(** * Sandcrawler scraper abstraction ([src/scraper.js]): a shallow embedding

    The development follows the layout of the JavaScript file:

    - [JS]: the fragment of JavaScript data the scraper manipulates
      (dynamically typed values, objects as finite maps, truthiness, [||]);
    - [createJob]: the job factory;
    - the option store: the module-level [defaults] object and the objects
      [config] allocates, addressed by reference so that aliasing is visible;
    - [Async]: the three primitives of the [async] library the scraper calls
      ([series], [applyEachSeries], [queue]);
    - the scraper itself: constructor, queue worker, [run], [fail],
      [succeed], [exit], [teardown], and the registration methods;
    - a small-step semantics whose actions are the asynchronous callbacks
      (a start middleware calls back, a pipeline stage calls back, the queue
      pulls a job), with the trace of observable events;
    - the theorems. *)

From stdpp Require Import gmap strings list fin_maps.
From Stdlib Require Import ZArith Lia.

Set Warnings "-register-all".

(** ** JavaScript values *)

Module JS.

(** Numbers are kept as integers plus [NaN]: the scraper only ever tests a
    number for truthiness or compares it with a worker count, and every
    non-integral double behaves there like a non-zero integer. *)
Inductive value : Type :=
| VUndefined
| VNull
| VBool (b : bool)
| VNum (n : Z)
| VNaN
| VStr (s : string)
| VArr (l : list value)
| VObj (o : gmap string value).

(** An object is a finite map from property names to values. *)
Abbreviation obj := (gmap string value).

(** Exceptions raised by the code: [Error(msg)] thrown by the scraper, and the
    [TypeError] the runtime raises on a property read of [null]/[undefined]. *)
Inductive exn : Type :=
| Error (msg : string)
| TypeError.

(** [if (v)], [!v]: ToBoolean. *)
Definition truthy (v : value) : bool :=
  match v with
  | VUndefined | VNull | VNaN => false
  | VBool b => b
  | VNum n => negb (Z.eqb n 0)
  | VStr s => negb (String.eqb s "")
  | VArr _ | VObj _ => true
  end.

(** [a || b]. *)
Definition or_else (a b : value) : value := if truthy a then a else b.

(** [v.k] for a [v] that is neither [null] nor [undefined]: an absent
    property reads as [undefined]; the primitive and array cases have no own
    property of the names the scraper reads ([url], [data], [params],
    [timeout], [maxConcurrency]). *)
Definition prop (v : value) (k : string) : value :=
  match v with
  | VObj o => default VUndefined (o !! k)
  | _ => VUndefined
  end.

(** [typeof v === 'number'] / typology's ['number']. *)
Definition is_number (v : value) : bool :=
  match v with VNum _ | VNaN => true | _ => false end.

(** typology's ['object']: a plain object. *)
Definition is_object (v : value) : bool :=
  match v with VObj _ => true | _ => false end.

End JS.
Import JS.

(** ** Jobs *)

Record job : Type := Job {
  j_id : string;
  j_original : value;
  j_state : obj;
  j_req : obj;
  j_res : obj
}.

Definition set_req (k : string) (v : value) (j : job) : job :=
  {| j_id := j_id j; j_original := j_original j; j_state := j_state j;
     j_req := <[k := v]> (j_req j); j_res := j_res j |}.

Definition set_res (k : string) (v : value) (j : job) : job :=
  {| j_id := j_id j; j_original := j_original j; j_state := j_state j;
     j_req := j_req j; j_res := <[k := v]> (j_res j) |}.

Definition with_req (rq : obj) (j : job) : job :=
  {| j_id := j_id j; j_original := j_original j; j_state := j_state j;
     j_req := rq; j_res := j_res j |}.

Definition with_req_res (rq rs : obj) (j : job) : job :=
  {| j_id := j_id j; j_original := j_original j; j_state := j_state j;
     j_req := rq; j_res := rs |}.

Definition no_url_provided : string :=
  "sandcrawler.scraper.url(s)/addUrl(s): no url provided.".

(** The job skeleton of [createJob]; [uid] is the string [uuid.v4()] drew. *)
Definition skeleton (uid : string) (feed : value) : job :=
  {| j_id := "Job[" +:+ uid +:+ "]";
     j_original := feed;
     j_state := ∅;
     j_req := <["retries" := VNum 0]> (<["data" := VObj ∅]> (<["params" := VObj ∅]> ∅));
     j_res := ∅ |}.

(** [createJob(feed)], scraper.js lines 99-133.  A string feed is the url.
    Otherwise [feed.url] is read: on [null]/[undefined] that read raises a
    [TypeError]; on anything else a falsy [feed.url] throws the
    "no url provided" [Error]. *)
Definition createJob (uid : string) (feed : value) : exn + job :=
  let job := skeleton uid feed in
  match feed with
  | VStr _ => inr (set_req "url" feed job)
  | VUndefined | VNull => inl TypeError
  | _ =>
    if negb (truthy (prop feed "url")) then inl (Error no_url_provided)
    else
      let job := set_req "url" (prop feed "url") job in
      let job := set_req "data" (or_else (prop feed "data") (VObj ∅)) job in
      let job := set_req "params" (or_else (prop feed "params") (VObj ∅)) job in
      let job :=
        if truthy (prop feed "timeout")
        then set_req "timeout" (prop feed "timeout") job
        else job in
      inr job
  end.

(** A valid feed: a string, or an object that provides a url, i.e. one whose
    [url] passes the safeguard [if (!feed.url) throw] of [createJob]. *)
Definition valid_feed (feed : value) : bool :=
  match feed with
  | VStr _ => true
  | VObj _ => truthy (prop feed "url")
  | _ => false
  end.

(** The url the feed designates. *)
Definition feed_url (feed : value) : value :=
  match feed with
  | VStr _ => feed
  | _ => prop feed "url"
  end.

(** ** The option store

    [defaults] is one module-level object ([require('../defaults.json').scraper],
    cached by the module system); [this.options] holds a reference to an
    object, not a copy.  The store maps references to object contents. *)

Inductive ref : Type :=
| RDefaults           (* the module-level [defaults] object *)
| RAlloc (n : nat).   (* the n-th object allocated by [extend] *)

Record store : Type := Store {
  st_defaults : obj;
  st_allocated : list obj
}.

Definition deref (st : store) (r : ref) : option obj :=
  match r with
  | RDefaults => Some (st_defaults st)
  | RAlloc n => st_allocated st !! n
  end.

(** [r.k = v]: an in-place property write through a reference. *)
Definition write (r : ref) (k : string) (v : value) (st : store) : store :=
  match r with
  | RDefaults => {| st_defaults := <[k := v]> (st_defaults st); st_allocated := st_allocated st |}
  | RAlloc n => {| st_defaults := st_defaults st;
                   st_allocated := alter (insert k v) n (st_allocated st) |}
  end.

(** Allocation of a new object. *)
Definition alloc (o : obj) (st : store) : ref * store :=
  (RAlloc (length (st_allocated st)),
   {| st_defaults := st_defaults st; st_allocated := st_allocated st ++ [o] |}).

(** [r.k] through a reference; a dangling reference reads as [undefined]. *)
Definition read (st : store) (r : ref) (k : string) : value :=
  match deref st r with
  | Some o => default VUndefined (o !! k)
  | None => VUndefined
  end.

(** Modelled from the spec: [extend] of [./helpers.js], which is not among
    the sources.  Section 6 of the specification: "[configure(optionsPatch)]:
    merges into current options", and section 9: "only ever merged (producing
    a new value)".  [extend o base] is the new object holding the properties
    of the patch [o] and, for the names [o] lacks, those of [base]. *)
Definition extend (o base : obj) : obj := o ∪ base.

(** ** User code and observable events

    A middleware or an engine is user code that is handed a callback.  It is
    modelled by what it does to the arguments it may mutate and by the value
    it eventually passes to that callback.  A start middleware
    ([function(callback)]) has no argument: it is the value it calls back
    with. *)

Abbreviation start_mw := value.
Abbreviation req_mw := (obj → obj * value).
Abbreviation res_mw := (obj → obj → obj * obj * value).
Abbreviation engine := (job → job * value).

Record middlewares : Type := Middlewares {
  mw_before : list start_mw;
  mw_after : list start_mw;
  mw_beforeScraping : list req_mw;
  mw_afterScraping : list res_mw
}.

(** The asynchronous calls of one job's pipeline. *)
Inductive stage : Type :=
| SBefore (i : nat)   (* this.middlewares.beforeScraping[i](job.req, cb) *)
| SFetch              (* this.engine.fetch(job, cb) *)
| SAfter (i : nat).   (* this.middlewares.afterScraping[i](job.req, job.res, cb) *)

(** Jobs are JavaScript objects and have an identity; [r : nat] is the
    position of the job in the order of the pushes. *)
Inductive event : Type :=
| Emit_scraper_start
| Emit_scraper_fail (err : value)
| Emit_scraper_success
| Emit_scraper_end (status : string)
| Emit_scraper_teardown
| Emit_job_fail (err : value) (r : nat) (j : job)
| Emit_job_success (r : nat) (j : job)
| OnComplete (err : value)                     (* the callback given to [run] *)
| CallBefore (i : nat)                         (* before[i] is invoked *)
| BeforeCalledBack (i : nat) (err : value)     (* before[i] invokes its callback *)
| Invoked (r : nat) (st : stage)               (* a stage of job r is invoked *)
| CalledBack (r : nat) (st : stage) (err : value)   (* it invokes its callback *)
| Drain_called.                                (* the queue calls [drain] *)

(** The one function the scraper ever assigns to [queue.drain]: the closure
    of [run], lines 181-186. *)
Inductive drain_callback : Type :=
| DrainOfRun.

(** ** The [async] library *)

Module Async.

(** Modelled from the spec: [async.series] and [async.applyEachSeries], whose
    code is not among the sources.  Section 4.2: "invoke stage 1; on success
    invoke stage 2 with the same arguments; continue in series; on the first
    error, abort immediately and propagate that error - later stages in the
    list never run."  [aborts err] tells whether the value a stage called
    back with ends the series; [task_at tasks i] is the stage to invoke at
    position [i], [None] when the list is exhausted and the final callback is
    due. *)
Definition aborts (err : value) : bool := truthy err.

Definition task_at {A : Type} (tasks : list A) (i : nat) : option A := tasks !! i.

(** Modelled from the spec: the object [async.queue(worker, concurrency)]
    returns.  Section 4.3: pending jobs in push order, a bound on the
    concurrently active workers, a pause flag, a registered drain callback.
    [q_workers] holds, for each active worker, the job it processes and the
    stage call it is waiting on; [q_shifted] counts the jobs pulled so far. *)
Record queue : Type := Queue {
  q_tasks : list job;
  q_shifted : nat;
  q_concurrency : value;
  q_paused : bool;
  q_drain : option drain_callback;
  q_workers : gmap nat (job * stage)
}.

Definition create (concurrency : value) : queue :=
  {| q_tasks := []; q_shifted := 0; q_concurrency := concurrency;
     q_paused := false; q_drain := None; q_workers := ∅ |}.

Definition with_tasks (ts : list job) (q : queue) : queue :=
  {| q_tasks := ts; q_shifted := q_shifted q; q_concurrency := q_concurrency q;
     q_paused := q_paused q; q_drain := q_drain q; q_workers := q_workers q |}.

Definition with_paused (b : bool) (q : queue) : queue :=
  {| q_tasks := q_tasks q; q_shifted := q_shifted q; q_concurrency := q_concurrency q;
     q_paused := b; q_drain := q_drain q; q_workers := q_workers q |}.

Definition with_drain (d : option drain_callback) (q : queue) : queue :=
  {| q_tasks := q_tasks q; q_shifted := q_shifted q; q_concurrency := q_concurrency q;
     q_paused := q_paused q; q_drain := d; q_workers := q_workers q |}.

Definition with_workers (ws : gmap nat (job * stage)) (q : queue) : queue :=
  {| q_tasks := q_tasks q; q_shifted := q_shifted q; q_concurrency := q_concurrency q;
     q_paused := q_paused q; q_drain := q_drain q; q_workers := ws |}.

(** Modelled from the spec: "pushing is always legal"; "pushed jobs
    accumulate". *)
Definition push (j : job) (q : queue) : queue := with_tasks (q_tasks q ++ [j]) q.

(** Modelled from the spec: "The queue starts paused: pushed jobs accumulate
    but no worker activates until the scraper's run is invoked." *)
Definition pause (q : queue) : queue := with_paused true q.

Definition resume (q : queue) : queue := with_paused false q.

(** Modelled from the spec: "kill terminates the queue: pending jobs are
    dropped, active workers' in-flight calls are not forcibly aborted"; the
    drain callback is unregistered with them. *)
Definition kill (q : queue) : queue := with_drain None (with_tasks [] q).

(** Modelled from the spec: "Holds a bounded number of concurrently-active
    workers": a worker may activate while the number of active ones is below
    the bound.  A bound that is not a number frees no slot. *)
Definition slot_free (q : queue) : bool :=
  match q_concurrency q with
  | VNum k => (Z.of_nat (size (q_workers q)) <? k)%Z
  | _ => false
  end.

(** Modelled from the spec: "Each worker, when free, pulls the next pending
    job": the head of the pending jobs leaves the queue, provided the queue
    is not paused and a slot is free. *)
Definition shift (q : queue) : option (job * queue) :=
  if q_paused q then None
  else if negb (slot_free q) then None
  else match q_tasks q with
       | [] => None
       | j :: ts =>
         Some (j, {| q_tasks := ts; q_shifted := S (q_shifted q);
                     q_concurrency := q_concurrency q; q_paused := q_paused q;
                     q_drain := q_drain q; q_workers := q_workers q |})
       end.

(** Modelled from the spec: "A drain condition - no pending jobs and no
    active workers". *)
Definition idle (q : queue) : bool :=
  match q_tasks q with
  | [] => Nat.eqb (size (q_workers q)) 0
  | _ :: _ => false
  end.

(** The stage call worker [r] waits on. *)
Definition await (r : nat) (j : job) (st : stage) (q : queue) : queue :=
  with_workers (<[r := (j, st)]> (q_workers q)) q.

(** Modelled from the spec: "On completion (success or failure) the worker
    ... becomes free again." *)
Definition free (r : nat) (q : queue) : queue :=
  with_workers (delete r (q_workers q)) q.

End Async.
Import Async.

(** ** The scraper *)

Record flags : Type := Flags {
  fulfilled : bool;
  locked : bool;
  paused : bool;
  running : bool
}.

(** [this.engine] starts [null] and is mounted by the public constructors
    (index.js, [staticSpider]) before a run; the model mounts it at
    construction.  [s_listeners] are the event names observers subscribed to.
    [s_series] and [s_trace] belong to the model: the index of the start
    middleware whose callback is awaited, and the events so far, oldest
    first. *)
Record scraper : Type := MkScraper {
  s_id : string;
  s_name : value;
  s_options : ref;
  s_engine : engine;
  s_state : flags;
  s_queue : queue;
  s_middlewares : middlewares;
  s_listeners : list string;
  s_series : option nat;
  s_trace : list event
}.

Definition with_options (o : ref) (s : scraper) : scraper :=
  {| s_id := s_id s; s_name := s_name s; s_options := o; s_engine := s_engine s;
     s_state := s_state s; s_queue := s_queue s; s_middlewares := s_middlewares s;
     s_listeners := s_listeners s; s_series := s_series s; s_trace := s_trace s |}.

Definition with_state (f : flags) (s : scraper) : scraper :=
  {| s_id := s_id s; s_name := s_name s; s_options := s_options s; s_engine := s_engine s;
     s_state := f; s_queue := s_queue s; s_middlewares := s_middlewares s;
     s_listeners := s_listeners s; s_series := s_series s; s_trace := s_trace s |}.

Definition with_queue (q : queue) (s : scraper) : scraper :=
  {| s_id := s_id s; s_name := s_name s; s_options := s_options s; s_engine := s_engine s;
     s_state := s_state s; s_queue := q; s_middlewares := s_middlewares s;
     s_listeners := s_listeners s; s_series := s_series s; s_trace := s_trace s |}.

Definition with_middlewares (m : middlewares) (s : scraper) : scraper :=
  {| s_id := s_id s; s_name := s_name s; s_options := s_options s; s_engine := s_engine s;
     s_state := s_state s; s_queue := s_queue s; s_middlewares := m;
     s_listeners := s_listeners s; s_series := s_series s; s_trace := s_trace s |}.

Definition with_listeners (l : list string) (s : scraper) : scraper :=
  {| s_id := s_id s; s_name := s_name s; s_options := s_options s; s_engine := s_engine s;
     s_state := s_state s; s_queue := s_queue s; s_middlewares := s_middlewares s;
     s_listeners := l; s_series := s_series s; s_trace := s_trace s |}.

Definition with_series (i : option nat) (s : scraper) : scraper :=
  {| s_id := s_id s; s_name := s_name s; s_options := s_options s; s_engine := s_engine s;
     s_state := s_state s; s_queue := s_queue s; s_middlewares := s_middlewares s;
     s_listeners := s_listeners s; s_series := i; s_trace := s_trace s |}.

(** [this.emit(...)], and the invocation of a user callback: the event is
    appended to the trace. *)
Definition emit (e : event) (s : scraper) : scraper :=
  {| s_id := s_id s; s_name := s_name s; s_options := s_options s; s_engine := s_engine s;
     s_state := s_state s; s_queue := s_queue s; s_middlewares := s_middlewares s;
     s_listeners := s_listeners s; s_series := s_series s; s_trace := s_trace s ++ [e] |}.

(** [new Scraper(name)], lines 23-89.  The bound handed to [async.queue] is
    [this.options.maxConcurrency || 1], read through the reference to
    [defaults] at this moment. *)
Definition Scraper (st : store) (eng : engine) (uid : string) (name : value) : scraper :=
  let id := "Scraper[" +:+ uid +:+ "]" in
  {| s_id := id;
     s_name := or_else name (VStr (String.substring 0 16 id +:+ "]"));
     s_options := RDefaults;
     s_engine := eng;
     s_state := {| fulfilled := false; locked := false; paused := false; running := false |};
     s_queue := pause (create (or_else (read st RDefaults "maxConcurrency") (VNum 1)));
     s_middlewares := {| mw_before := []; mw_after := [];
                         mw_beforeScraping := []; mw_afterScraping := [] |};
     s_listeners := [];
     s_series := None;
     s_trace := [] |}.

(** [Scraper.prototype.teardown], lines 221-231. *)
Definition teardown (s : scraper) : scraper :=
  let s := emit Emit_scraper_teardown s in
  let s := with_queue (kill (s_queue s)) s in
  with_listeners [] s.

(** [Scraper.prototype.exit], lines 206-218. *)
Definition exit (status : string) (s : scraper) : scraper :=
  let s := emit (Emit_scraper_end status) s in
  let s := with_state {| fulfilled := true; locked := locked (s_state s);
                         paused := paused (s_state s); running := false |} s in
  teardown s.

(** [Scraper.prototype.fail], lines 194-197. *)
Definition fail (err : value) (s : scraper) : scraper :=
  exit "fail" (emit (Emit_scraper_fail err) s).

(** [Scraper.prototype.succeed], lines 200-203. *)
Definition succeed (s : scraper) : scraper :=
  exit "success" (emit Emit_scraper_success s).

(** The closure assigned to [queue.drain], lines 181-186:
    [callback(null); return self.succeed();]. *)
Definition call_drain (d : drain_callback) (s : scraper) : scraper :=
  match d with
  | DrainOfRun => succeed (emit (OnComplete VNull) s)
  end.

(** Modelled from the spec: "A drain condition - no pending jobs and no
    active workers - triggers a registered drain callback exactly once per
    run."  The condition is looked at when a worker becomes free: the queue
    calls [drain] from the callback it hands to its worker, once the last
    job has left its pipeline. *)
Definition check_drain (s : scraper) : scraper :=
  match q_drain (s_queue s) with
  | Some d => if idle (s_queue s) then call_drain d (emit Drain_called s) else s
  | None => s
  end.

(** [self.queue.resume()], line 188: the queue is no longer paused, and its
    workers start from the callbacks that follow.  Nothing is called here:
    a queue that is resumed while it holds no job does not call [drain]. *)
Definition queue_resume (s : scraper) : scraper :=
  with_queue (resume (s_queue s)) s.

(** The queue's own callback, handed to the worker: the worker is free. *)
Definition queue_callback (r : nat) (s : scraper) : scraper :=
  check_drain (with_queue (free r (s_queue s)) s).

(** The final callback of the queue worker, lines 60-75. *)
Definition job_callback (r : nat) (j : job) (err : value) (s : scraper) : scraper :=
  if truthy err then
    let j := set_res "error" err j in
    queue_callback r (emit (Emit_job_fail err r j) s)
  else
    queue_callback r (emit (Emit_job_success r j) s).

(** A stage of job [r] is invoked and its callback awaited. *)
Definition invoke (r : nat) (j : job) (st : stage) (s : scraper) : scraper :=
  emit (Invoked r st) (with_queue (await r j st (s_queue s)) s).

(** [afterScraping(job, callback)], lines 150-156, from position [i] of the
    series on. *)
Definition afterScraping (r : nat) (j : job) (i : nat) (s : scraper) : scraper :=
  match task_at (mw_afterScraping (s_middlewares s)) i with
  | Some _ => invoke r j (SAfter i) s
  | None => job_callback r j VUndefined s
  end.

(** [scrape(job, callback)], lines 145-147. *)
Definition scrape (r : nat) (j : job) (s : scraper) : scraper :=
  invoke r j SFetch s.

(** [beforeScraping(job, callback)], lines 136-142, from position [i] of the
    series on. *)
Definition beforeScraping (r : nat) (j : job) (i : nat) (s : scraper) : scraper :=
  match task_at (mw_beforeScraping (s_middlewares s)) i with
  | Some _ => invoke r j (SBefore i) s
  | None => scrape r j s
  end.

(** The queue worker, lines 53-77: the series
    [beforeScraping, scrape, afterScraping] applied to the job. *)
Definition worker (r : nat) (j : job) (s : scraper) : scraper :=
  beforeScraping r j 0 s.

(** The final callback of [async.series] in [run], lines 172-189. *)
Definition run_callback (err : value) (s : scraper) : scraper :=
  if truthy err then
    fail err (emit (OnComplete err) s)
  else
    queue_resume (with_queue (with_drain (Some DrainOfRun) (s_queue s)) s).

(** [async.series(this.middlewares.before, ...)] from position [i] on. *)
Definition series (i : nat) (s : scraper) : scraper :=
  match task_at (mw_before (s_middlewares s)) i with
  | Some _ => emit (CallBefore i) (with_series (Some i) s)
  | None => run_callback VUndefined (with_series None s)
  end.

(** [Scraper.prototype.run], lines 163-191. *)
Definition run (s : scraper) : scraper :=
  series 0 (emit Emit_scraper_start s).

(** [Scraper.prototype.url], lines 234-245: the feed, or each item of an
    array of feeds, becomes a job pushed to the queue.  [uuid n] is the
    string [uuid.v4()] returns for the [n]-th item.  When [createJob] throws
    on an item, the items before it have been pushed already: the exception
    comes with the scraper as it then is. *)
Fixpoint push_all (uuid : nat → string) (n : nat) (items : list value) (s : scraper)
    : exn * scraper + scraper :=
  match items with
  | [] => inr s
  | item :: items' =>
    match createJob (uuid n) item with
    | inl e => inl (e, s)
    | inr j => push_all uuid (S n) items' (with_queue (push j (s_queue s)) s)
    end
  end.

Definition wrong_url_argument : string := "sandcrawler.scraper.url(s): wrong argument.".

Definition url (uuid : nat → string) (feed : value) (s : scraper) : exn * scraper + scraper :=
  match feed with
  | VStr _ | VObj _ => push_all uuid 0 [feed] s
  | VArr items => push_all uuid 0 items s
  | _ => inl (Error wrong_url_argument, s)
  end.

(** [Scraper.prototype.config], lines 326-333. *)
Definition config (o : value) (st : store) (s : scraper) : exn + (store * scraper) :=
  match o with
  | VObj patch =>
    let '(r, st') := alloc (extend patch (default ∅ (deref st (s_options s)))) st in
    inr (st', with_options r s)
  | _ => inl (Error "sandcrawler.scraper.config: wrong argument.")
  end.

(** [Scraper.prototype.timeout], lines 336-344. *)
Definition timeout (t : value) (st : store) (s : scraper) : exn + (store * scraper) :=
  if is_number t then inr (write (s_options s) "timeout" t st, s)
  else inl (Error "sandcrawler.scraper.timeout: wrong argument").

(** [middlewareRegister], lines 362-377: the methods [before], [after],
    [beforeScraping] and [afterScraping], which append to the list of their
    hook.  (The methods share their names with the helper functions of lines
    136 and 150, hence the prefix.) *)
Definition register_before (fn : start_mw) (s : scraper) : scraper :=
  let m := s_middlewares s in
  with_middlewares {| mw_before := mw_before m ++ [fn]; mw_after := mw_after m;
                      mw_beforeScraping := mw_beforeScraping m;
                      mw_afterScraping := mw_afterScraping m |} s.

Definition register_after (fn : start_mw) (s : scraper) : scraper :=
  let m := s_middlewares s in
  with_middlewares {| mw_before := mw_before m; mw_after := mw_after m ++ [fn];
                      mw_beforeScraping := mw_beforeScraping m;
                      mw_afterScraping := mw_afterScraping m |} s.

Definition register_beforeScraping (fn : req_mw) (s : scraper) : scraper :=
  let m := s_middlewares s in
  with_middlewares {| mw_before := mw_before m; mw_after := mw_after m;
                      mw_beforeScraping := mw_beforeScraping m ++ [fn];
                      mw_afterScraping := mw_afterScraping m |} s.

Definition register_afterScraping (fn : res_mw) (s : scraper) : scraper :=
  let m := s_middlewares s in
  with_middlewares {| mw_before := mw_before m; mw_after := mw_after m;
                      mw_beforeScraping := mw_beforeScraping m;
                      mw_afterScraping := mw_afterScraping m ++ [fn] |} s.

(** Subscription of an observer ([on], [result]). *)
Definition on (name : string) (s : scraper) : scraper :=
  with_listeners (s_listeners s ++ [name]) s.

(** ** Small-step semantics of a run

    After [run] has returned, everything that happens is the consequence of
    an asynchronous callback.  The actions are: the awaited start middleware
    calls back; the queue pulls a pending job into a free worker; the awaited
    stage of job [r] calls back.  [step] is partial: [None] when the action
    is not enabled. *)

Inductive action : Type :=
| BeforeDone
| Process
| StageDone (r : nat).

Definition before_done (s : scraper) : option scraper :=
  match s_series s with
  | Some i =>
    match task_at (mw_before (s_middlewares s)) i with
    | Some err =>
      let s := emit (BeforeCalledBack i err) s in
      Some (if aborts err then run_callback err (with_series None s)
            else series (S i) s)
    | None => None
    end
  | None => None
  end.

Definition process (s : scraper) : option scraper :=
  match shift (s_queue s) with
  | Some (j, q) => Some (worker (q_shifted (s_queue s)) j (with_queue q s))
  | None => None
  end.

(** Calling a middleware on a job.  A [beforeScraping] middleware is handed
    [job.req] (line 139), an [afterScraping] one [job.req] and [job.res]
    (line 153); it is modelled by the objects it leaves and the value it
    calls back with.  Objects are kept by value.  In the source
    [job.original] is the feed itself (line 104) and [job.req.data] and
    [job.req.params] may be objects of the feed (lines 125-126), so a write
    inside one of these would show through [job.original] as well: the model
    does not follow that sharing, [j_original] stands for the feed as it was
    pushed, and no theorem relies on [original] once a stage has run. *)
Definition apply_before (mw : req_mw) (j : job) : job * value :=
  let '(rq, err) := mw (j_req j) in (with_req rq j, err).

Definition apply_after (mw : res_mw) (j : job) : job * value :=
  let '(rq, rs, err) := mw (j_req j) (j_res j) in (with_req_res rq rs j, err).

Definition stage_done (r : nat) (s : scraper) : option scraper :=
  match q_workers (s_queue s) !! r with
  | Some (j, SBefore i) =>
    match task_at (mw_beforeScraping (s_middlewares s)) i with
    | Some mw =>
      let '(j, err) := apply_before mw j in
      let s := emit (CalledBack r (SBefore i) err) s in
      Some (if aborts err then job_callback r j err s else beforeScraping r j (S i) s)
    | None => None
    end
  | Some (j, SFetch) =>
    let '(j, err) := s_engine s j in
    let s := emit (CalledBack r SFetch err) s in
    Some (if aborts err then job_callback r j err s else afterScraping r j 0 s)
  | Some (j, SAfter i) =>
    match task_at (mw_afterScraping (s_middlewares s)) i with
    | Some mw =>
      let '(j, err) := apply_after mw j in
      let s := emit (CalledBack r (SAfter i) err) s in
      Some (if aborts err then job_callback r j err s else afterScraping r j (S i) s)
    | None => None
    end
  | None => None
  end.

Definition step (a : action) (s : scraper) : option scraper :=
  match a with
  | BeforeDone => before_done s
  | Process => process s
  | StageDone r => stage_done r s
  end.

Fixpoint exec (acts : list action) (s : scraper) : option scraper :=
  match acts with
  | [] => Some s
  | a :: acts' =>
    match step a s with
    | Some s' => exec acts' s'
    | None => None
    end
  end.

(** No action is enabled. *)
Definition quiescent (s : scraper) : Prop := ∀ a, step a s = None.

(** A scraper as the registration methods leave it, about to be run. *)
Record ready (s : scraper) : Prop := Ready {
  ready_paused : q_paused (s_queue s) = true;
  ready_workers : q_workers (s_queue s) = ∅;
  ready_shifted : q_shifted (s_queue s) = 0;
  ready_drain : q_drain (s_queue s) = None;
  ready_series : s_series s = None;
  ready_fulfilled : fulfilled (s_state s) = false;
  ready_trace : s_trace s = []
}.

(** ** Reference semantics of one job and of the start series

    The events of one job when its pipeline is run alone, written as a plain
    recursive function: call the stage, wait for its callback, stop at the
    first truthy error, otherwise go on with the next stage. *)

Fixpoint after_trace (r i : nat) (mws : list res_mw) (j : job) : list event :=
  match mws with
  | [] => [Emit_job_success r j]
  | mw :: mws' =>
    let '(j', err) := apply_after mw j in
    Invoked r (SAfter i) :: CalledBack r (SAfter i) err ::
      (if truthy err then [Emit_job_fail err r (set_res "error" err j')]
       else after_trace r (S i) mws' j')
  end.

Definition fetch_trace (eng : engine) (afters : list res_mw) (r : nat) (j : job) : list event :=
  let '(j', err) := eng j in
  Invoked r SFetch :: CalledBack r SFetch err ::
    (if truthy err then [Emit_job_fail err r (set_res "error" err j')]
     else after_trace r 0 afters j').

Fixpoint before_trace (eng : engine) (afters : list res_mw)
    (r i : nat) (mws : list req_mw) (j : job) : list event :=
  match mws with
  | [] => fetch_trace eng afters r j
  | mw :: mws' =>
    let '(j', err) := apply_before mw j in
    Invoked r (SBefore i) :: CalledBack r (SBefore i) err ::
      (if truthy err then [Emit_job_fail err r (set_res "error" err j')]
       else before_trace eng afters r (S i) mws' j')
  end.

(** The whole pipeline of job [r], started on [j], under the middlewares and
    the engine of [s]. *)
Definition pipeline (s : scraper) (r : nat) (j : job) : list event :=
  before_trace (s_engine s) (mw_afterScraping (s_middlewares s)) r 0
    (mw_beforeScraping (s_middlewares s)) j.

(** The pipeline from the call of stage [st] on. *)
Definition trace_from (s : scraper) (r : nat) (j : job) (st : stage) : list event :=
  match st with
  | SBefore i =>
    before_trace (s_engine s) (mw_afterScraping (s_middlewares s)) r i
      (drop i (mw_beforeScraping (s_middlewares s))) j
  | SFetch => fetch_trace (s_engine s) (mw_afterScraping (s_middlewares s)) r j
  | SAfter i => after_trace r i (drop i (mw_afterScraping (s_middlewares s))) j
  end.

(** What is still to come for a worker that waits on the callback of [st]. *)
Definition awaited (s : scraper) (r : nat) (j : job) (st : stage) : list event :=
  tail (trace_from s r j st).

(** The stage a worker waits on exists. *)
Definition stage_valid (s : scraper) (st : stage) : Prop :=
  match st with
  | SBefore i => i < length (mw_beforeScraping (s_middlewares s))
  | SFetch => True
  | SAfter i => i < length (mw_afterScraping (s_middlewares s))
  end.

(** The events that concern job [r]. *)
Definition about (r : nat) (e : event) : bool :=
  match e with
  | Invoked r' _ | CalledBack r' _ _ | Emit_job_fail _ r' _ | Emit_job_success r' _ =>
    Nat.eqb r r'
  | _ => false
  end.

Definition proj (r : nat) (tr : list event) : list event := List.filter (about r) tr.

(** The events of the scraper itself. *)
Definition of_scraper (e : event) : bool :=
  match e with
  | Invoked _ _ | CalledBack _ _ _ | Emit_job_fail _ _ _ | Emit_job_success _ _ => false
  | _ => true
  end.

Definition sproj (tr : list event) : list event := List.filter of_scraper tr.

(** The order of the stages of a pipeline. *)
Definition stage_ltb (a b : stage) : bool :=
  match a, b with
  | SBefore i, SBefore i' => Nat.ltb i i'
  | SBefore _, _ => true
  | SFetch, SAfter _ => true
  | SAfter i, SAfter i' => Nat.ltb i i'
  | _, _ => false
  end.

Definition follows (prev : option stage) (st : stage) : Prop :=
  match prev with
  | None => True
  | Some p => stage_ltb p st = true
  end.

(** A strictly sequential pipeline: every call is followed by its own
    callback before anything else happens to the job, the stages called
    increase strictly, the first truthy error ends the pipeline with
    [job:fail], and [job:success] comes only after every callback was
    falsy. *)
Inductive sequential (r : nat) : option stage → list event → Prop :=
| seq_success prev j :
    sequential r prev [Emit_job_success r j]
| seq_fail prev st err j :
    follows prev st → truthy err = true →
    j_res j !! "error" = Some err →
    sequential r prev [Invoked r st; CalledBack r st err; Emit_job_fail err r j]
| seq_next prev st err tl :
    follows prev st → truthy err = false →
    sequential r (Some st) tl →
    sequential r prev (Invoked r st :: CalledBack r st err :: tl).

(** The events of the start series [before] on the list [bs], from position
    [i] on, up to and including the first truthy callback. *)
Fixpoint start_trace (i : nat) (bs : list start_mw) : list event :=
  match bs with
  | [] => []
  | err :: bs' =>
    CallBefore i :: BeforeCalledBack i err ::
      (if truthy err then [] else start_trace (S i) bs')
  end.

(** The first truthy value a start middleware calls back with. *)
Fixpoint start_error (bs : list start_mw) : option value :=
  match bs with
  | [] => None
  | err :: bs' => if truthy err then Some err else start_error bs'
  end.

Definition fail_tail (err : value) : list event :=
  [OnComplete err; Emit_scraper_fail err; Emit_scraper_end "fail"; Emit_scraper_teardown].

Definition success_tail : list event :=
  [Drain_called; OnComplete VNull; Emit_scraper_success; Emit_scraper_end "success";
   Emit_scraper_teardown].

Definition is_OnComplete (e : event) : bool :=
  match e with OnComplete _ => true | _ => false end.

Definition is_Drain_called (e : event) : bool :=
  match e with Drain_called => true | _ => false end.

(** How often the callback of [run] was invoked, with which values; how
    often the queue called [drain]. *)
Definition completions (tr : list event) : list event := List.filter is_OnComplete tr.

Definition drains (tr : list event) : nat := length (List.filter is_Drain_called tr).

(** ** Invariants of a run *)

(** The numeric bound of the queue; a bound that is not a number admits no
    worker. *)
Definition bound (q : queue) : Z :=
  match q_concurrency q with
  | VNum k => k
  | _ => 0%Z
  end.

Definition is_fetch (st : stage) : bool :=
  match st with SFetch => true | _ => false end.

(** The workers that wait on the engine: the [fetch] invocations in flight. *)
Definition fetching (q : queue) : gmap nat (job * stage) :=
  filter (λ w, is_fetch w.2.2 = true) (q_workers q).

(** What a run never changes. *)
Record same_setup (s0 s : scraper) : Prop := SameSetup {
  same_id : s_id s = s_id s0;
  same_name : s_name s = s_name s0;
  same_options : s_options s = s_options s0;
  same_engine : s_engine s = s_engine s0;
  same_middlewares : s_middlewares s = s_middlewares s0;
  same_concurrency : q_concurrency (s_queue s) = q_concurrency (s_queue s0)
}.

(** The state of every job against the jobs [jobs0] pushed before the run:
    pending jobs have no event, the events of an active job are its pipeline
    up to the awaited callback, and the events of a job that left the
    pipeline are its whole pipeline. *)
Record jobs_inv (s0 : scraper) (jobs0 : list job) (s : scraper) : Prop := JobsInv {
  ji_shifted : q_shifted (s_queue s) ≤ length jobs0;
  ji_tasks : q_tasks (s_queue s) = drop (q_shifted (s_queue s)) jobs0
             ∨ q_tasks (s_queue s) = [];
  ji_pending : ∀ r, q_shifted (s_queue s) ≤ r →
    q_workers (s_queue s) !! r = None ∧ proj r (s_trace s) = [];
  ji_active : ∀ r j st, q_workers (s_queue s) !! r = Some (j, st) →
    stage_valid s0 st ∧
    ∃ j0, jobs0 !! r = Some j0 ∧
      proj r (s_trace s) ++ awaited s0 r j st = pipeline s0 r j0 ∧
      ∀ st' err, CalledBack r st' err ∈ proj r (s_trace s) → truthy err = false;
  ji_done : ∀ r, r < q_shifted (s_queue s) → q_workers (s_queue s) !! r = None →
    ∃ j0, jobs0 !! r = Some j0 ∧ proj r (s_trace s) = pipeline s0 r j0
}.

(** The phases of a run, with the events of the scraper so far. *)
Inductive phase (s0 s : scraper) : Prop :=
| Starting (i : nat) :
    s_series s = Some i →
    i < length (mw_before (s_middlewares s0)) →
    start_error (take i (mw_before (s_middlewares s0))) = None →
    q_paused (s_queue s) = true →
    q_workers (s_queue s) = ∅ →
    q_shifted (s_queue s) = 0 →
    q_drain (s_queue s) = None →
    q_tasks (s_queue s) = q_tasks (s_queue s0) →
    fulfilled (s_state s) = false →
    s_trace s = Emit_scraper_start ::
                start_trace 0 (take i (mw_before (s_middlewares s0))) ++ [CallBefore i] →
    phase s0 s
| Failed (err : value) :
    s_series s = None →
    start_error (mw_before (s_middlewares s0)) = Some err →
    q_paused (s_queue s) = true →
    q_workers (s_queue s) = ∅ →
    q_shifted (s_queue s) = 0 →
    q_drain (s_queue s) = None →
    q_tasks (s_queue s) = [] →
    fulfilled (s_state s) = true →
    running (s_state s) = false →
    s_listeners s = [] →
    s_trace s = Emit_scraper_start ::
                start_trace 0 (mw_before (s_middlewares s0)) ++ fail_tail err →
    phase s0 s
| Running :
    s_series s = None →
    start_error (mw_before (s_middlewares s0)) = None →
    q_paused (s_queue s) = false →
    q_drain (s_queue s) = Some DrainOfRun →
    (q_tasks (s_queue s0) ≠ [] ∧ idle (s_queue s) = false)
    ∨ (q_tasks (s_queue s0) = [] ∧ q_workers (s_queue s) = ∅) →
    q_shifted (s_queue s) ≤ length (q_tasks (s_queue s0)) →
    q_tasks (s_queue s) = drop (q_shifted (s_queue s)) (q_tasks (s_queue s0)) →
    fulfilled (s_state s) = false →
    sproj (s_trace s) = Emit_scraper_start :: start_trace 0 (mw_before (s_middlewares s0)) →
    phase s0 s
| Succeeded (pre : list event) :
    s_series s = None →
    start_error (mw_before (s_middlewares s0)) = None →
    q_paused (s_queue s) = false →
    q_drain (s_queue s) = None →
    q_tasks (s_queue s) = [] →
    q_workers (s_queue s) = ∅ →
    q_shifted (s_queue s) = length (q_tasks (s_queue s0)) →
    fulfilled (s_state s) = true →
    running (s_state s) = false →
    s_listeners s = [] →
    s_trace s = pre ++ success_tail →
    sproj pre = Emit_scraper_start :: start_trace 0 (mw_before (s_middlewares s0)) →
    q_tasks (s_queue s0) ≠ [] →
    phase s0 s.

(** ** A bound on the length of a run *)

Definition stage_cost (s : scraper) (st : stage) : nat :=
  let nb := length (mw_beforeScraping (s_middlewares s)) in
  let na := length (mw_afterScraping (s_middlewares s)) in
  match st with
  | SBefore i => (nb - i) + 1 + na
  | SFetch => 1 + na
  | SAfter i => na - i
  end.

Definition job_cost (s : scraper) : nat :=
  2 + length (mw_beforeScraping (s_middlewares s)) + length (mw_afterScraping (s_middlewares s)).

Definition workers_cost (s : scraper) (ws : gmap nat (job * stage)) : nat :=
  sum_list_with (λ w, stage_cost s w.2.2) (map_to_list ws).

(** The number of callbacks a run may still take. *)
Definition potential (s : scraper) : nat :=
  match s_series s with
  | Some i => length (mw_before (s_middlewares s)) - i
  | None => 0
  end
  + length (q_tasks (s_queue s)) * job_cost s
  + workers_cost s (q_workers (s_queue s)).

(** ** Auxiliary notions for the proofs *)

(** The state after the drain callback of [run] ran on [s]. *)
Definition drained (s : scraper) : scraper :=
  succeed (emit (OnComplete VNull) (emit Drain_called s)).

(** The outcome of the stage call [st] on job [j]. *)
Definition run_stage (s : scraper) (st : stage) (j : job) : job * value :=
  match st with
  | SBefore i =>
    match mw_beforeScraping (s_middlewares s) !! i with
    | Some mw => apply_before mw j
    | None => (j, VUndefined)
    end
  | SFetch => s_engine s j
  | SAfter i =>
    match mw_afterScraping (s_middlewares s) !! i with
    | Some mw => apply_after mw j
    | None => (j, VUndefined)
    end
  end.

(** The event that ends the pipeline of job [r]. *)
Definition job_event (r : nat) (j : job) (err : value) : event :=
  if truthy err then Emit_job_fail err r (set_res "error" err j)
  else Emit_job_success r j.

(** The position in the pipeline after stage [st]. *)
Definition succ_stage (st : stage) : stage :=
  match st with
  | SBefore i => SBefore (S i)
  | SFetch => SAfter 0
  | SAfter i => SAfter (S i)
  end.

(** Changes that concern the scraper only: no job moves, no job event. *)
Record scraper_only (s s' : scraper) : Prop := ScraperOnly {
  so_shifted : q_shifted (s_queue s') = q_shifted (s_queue s);
  so_workers : q_workers (s_queue s') = q_workers (s_queue s);
  so_tasks : q_tasks (s_queue s') = q_tasks (s_queue s) ∨ q_tasks (s_queue s') = [];
  so_trace : ∃ evs, s_trace s' = s_trace s ++ evs ∧ forallb of_scraper evs = true
}.

(** The number of active workers never exceeds the bound of the queue. *)
Definition bounded (s : scraper) : Prop :=
  (Z.of_nat (size (q_workers (s_queue s))) ≤ Z.max 0 (bound (s_queue s)))%Z.

(** The calls of [engine.fetch] and their callbacks in a trace; the calls
    in flight are those not called back yet. *)
Definition is_fetch_call (e : event) : bool :=
  match e with Invoked _ SFetch => true | _ => false end.

Definition is_fetch_callback (e : event) : bool :=
  match e with CalledBack _ SFetch _ => true | _ => false end.

Definition fetch_calls (tr : list event) : nat := length (List.filter is_fetch_call tr).

Definition fetch_callbacks (tr : list event) : nat :=
  length (List.filter is_fetch_callback tr).

Definition in_flight (tr : list event) : nat := fetch_calls tr - fetch_callbacks tr.

Definition fetch_weight (st : stage) : nat := if is_fetch st then 1 else 0.

(** The workers that wait on the engine are the calls in flight. *)
Definition in_flight_inv (s : scraper) : Prop :=
  fetch_calls (s_trace s) = fetch_callbacks (s_trace s) + size (fetching (s_queue s)).

(** A run that can always go on until the scraper is fulfilled: the queue
    holds a job and admits a worker, or the start series fails. *)
Definition live (s0 : scraper) : Prop :=
  ((1 ≤ bound (s_queue s0))%Z ∧ q_tasks (s_queue s0) ≠ [])
  ∨ is_Some (start_error (mw_before (s_middlewares s0))).

(** ** A worked configuration

    The scenario of section 8 of the specification: [maxConcurrency = 2],
    the urls ["http://a"] and ["http://b"], and an engine that fails on
    ["http://b"] only. *)

Definition example_store : store :=
  {| st_defaults := {[ "maxConcurrency" := VNum 2 ]}; st_allocated := [] |}.

Definition example_engine : engine := λ j,
  match j_original j with
  | VStr u => if String.eqb u "http://b" then (j, VStr "unreachable") else (j, VNull)
  | _ => (j, VNull)
  end.

Definition example_uuid (n : nat) : string :=
  match n with
  | 0 => "1b9d6bcd"
  | _ => "bbfd4b2d"
  end.

Definition example_scraper : scraper :=
  let s := Scraper example_store example_engine "c0ffee" VUndefined in
  match url example_uuid (VArr [VStr "http://a"; VStr "http://b"]) s with
  | inr s' => s'
  | inl _ => s
  end.

(** The same with a start middleware that fails. *)
Definition example_refused : scraper :=
  register_before (VStr "refused") example_scraper.

(** The same with a [beforeScraping] middleware that fails on every job. *)
Definition example_blocked : scraper :=
  register_beforeScraping (λ rq, (rq, VStr "blocked")) example_scraper.

(** The same with a [beforeScraping] middleware that lets every job pass. *)
Definition example_checked : scraper :=
  register_beforeScraping (λ rq, (rq, VNull)) example_scraper.

(** A scraper on which no url was pushed. *)
Definition example_idle : scraper :=
  Scraper example_store example_engine "c0ffee" VUndefined.

(** ** Methods used outside a run *)

(** [Scraper.prototype.addUrl], lines 248-261: the pushes of [url], then
    [this.emit('job:added')].  ['job:added'] is not one of the events of a
    run's trace; the result lists the names of the events the call emitted.
    When an item is rejected the exception leaves the method before the
    [emit]. *)
Definition addUrl (uuid : nat → string) (feed : value) (s : scraper)
    : exn * scraper + scraper * list string :=
  match url uuid feed s with
  | inl failure => inl failure
  | inr s' => inr (s', ["job:added"])
  end.

(** The names of the properties [createJob] may set on [job.req]. *)
Definition req_keys : list string := ["retries"; "data"; "params"; "url"; "timeout"].

(** The loaders of [./phantom_script.js] ([fromFile], [fromFunction],
    [fromString]).  Their code is not among the sources: they are taken as
    arbitrary functions, which return the script stack or throw.  [F] is the
    type of JavaScript functions. *)
Record phscript (F : Type) : Type := Phscript {
  fromFile : value → value → exn + value;
  fromFunction : F → value → exn + value;
  fromString : string → value → exn + value
}.
Arguments fromFile {F}.
Arguments fromFunction {F}.
Arguments fromString {F}.

(** The first argument of [jawascript]: a function, or any other value. *)
Inductive script_source (F : Type) : Type :=
| SrcFunction (f : F)
| SrcValue (v : value).
Arguments SrcFunction {F}.
Arguments SrcValue {F}.

(** [Scraper.prototype.script], lines 274-280, as a function of
    [this.scriptStack], the one property it reads and writes: the result is
    the new [scriptStack]. *)
Definition script {F : Type} (ph : phscript F) (path check : value) (scriptStack : value)
    : exn + value :=
  if truthy scriptStack
  then inl (Error "sandcrawler.scraper.script: script already registered.")
  else fromFile ph path check.

(** [Scraper.prototype.jawascript], lines 283-295, likewise. *)
Definition jawascript {F : Type} (ph : phscript F) (fn : script_source F) (check : value)
    (scriptStack : value) : exn + value :=
  if truthy scriptStack
  then inl (Error "sandcrawler.scraper.jawascript: script already registered.")
  else match fn with
       | SrcFunction f => fromFunction ph f check
       | SrcValue (VStr src) => fromString ph src check
       | SrcValue _ => inl (Error "sandcrawler.scraper.jawascript: wrong argument.")
       end.

(** A call of one of the two methods. *)
Inductive registration (F : Type) : Type :=
| ByScript (path check : value)
| ByJawascript (fn : script_source F) (check : value).
Arguments ByScript {F}.
Arguments ByJawascript {F}.

Definition register {F : Type} (ph : phscript F) (c : registration F) (scriptStack : value)
    : exn + value :=
  match c with
  | ByScript path check => script ph path check scriptStack
  | ByJawascript fn check => jawascript ph fn check scriptStack
  end.

(** A caller that makes the calls [cs] one after the other and goes on after
    an exception: the [scriptStack] at the end. *)
Fixpoint register_all {F : Type} (ph : phscript F) (cs : list (registration F))
    (scriptStack : value) : value :=
  match cs with
  | [] => scriptStack
  | c :: cs' =>
    match register ph c scriptStack with
    | inl _ => register_all ph cs' scriptStack
    | inr scriptStack' => register_all ph cs' scriptStack'
    end
  end.

(** ** Observers and the end of a run *)

(** [Scraper.prototype.result], lines 309-323: two handlers that call [fn]
    are subscribed, one to [job:fail], then one to [job:success].  As for
    the registration methods, [fn] is a function (the model has no callback
    that is not one), so the guard of line 311 passes. *)
Definition result (s : scraper) : scraper := on "job:success" (on "job:fail" s).

(** What these handlers call [fn] with when the event is emitted:
    [fn(err, job.req, job.res)] on [job:fail] and
    [fn(null, job.req, job.res)] on [job:success]. *)
Definition result_args (e : event) : option (value * obj * obj) :=
  match e with
  | Emit_job_fail err _ j => Some (err, j_req j, j_res j)
  | Emit_job_success _ j => Some (VNull, j_req j, j_res j)
  | _ => None
  end.

(** The calls of [fn] that concern job [r], oldest first. *)
Definition result_calls (r : nat) (tr : list event) : list (value * obj * obj) :=
  omap result_args (proj r tr).

(** The flags once [exit] has run, lines 213-214. *)
Definition ended_flags (f : flags) : flags :=
  {| fulfilled := true; locked := locked f; paused := paused f; running := false |}.

Definition is_end (e : event) : bool :=
  match e with Emit_scraper_end _ => true | _ => false end.

(** The [scraper:end] events of a trace. *)
Definition ends (tr : list event) : list event := List.filter is_end tr.

(** The status a run exits with: [fail] calls [exit('fail')], [succeed]
    calls [exit('success')]. *)
Definition exit_status (s0 : scraper) : string :=
  match start_error (mw_before (s_middlewares s0)) with
  | Some _ => "fail"
  | None => "success"
  end.

(** The flags and the listeners are those of [s0], or the scraper has
    exited. *)
Definition flags_inv (s0 s : scraper) : Prop :=
  (s_state s = s_state s0 ∧ s_listeners s = s_listeners s0)
  ∨ (s_state s = ended_flags (s_state s0) ∧ s_listeners s = []).

(** The call of [engine.fetch] for job [r]. *)
Definition is_fetch_of (r : nat) (e : event) : bool :=
  match e with
  | Invoked r' SFetch => Nat.eqb r r'
  | _ => false
  end.

Definition stage_eqb (a b : stage) : bool :=
  match a, b with
  | SBefore i, SBefore i' => Nat.eqb i i'
  | SFetch, SFetch => true
  | SAfter i, SAfter i' => Nat.eqb i i'
  | _, _ => false
  end.

(** The call of stage [st] for job [r]. *)
Definition is_call_of (r : nat) (st : stage) (e : event) : bool :=
  match e with
  | Invoked r' st' => Nat.eqb r r' && stage_eqb st st'
  | _ => false
  end.

(** How often stage [st] was called for job [r]. *)
Definition calls_of (r : nat) (st : stage) (tr : list event) : nat :=
  length (List.filter (is_call_of r st) tr).

(** A scraper constructed while [maxConcurrency] is negative in the
    options, with one url. *)
Definition example_stalled : scraper :=
  let st := {| st_defaults := {[ "maxConcurrency" := VNum (-1) ]}; st_allocated := [] |} in
  match url example_uuid (VStr "http://a") (Scraper st example_engine "c0ffee" VUndefined) with
  | inr s' => s'
  | inl _ => Scraper st example_engine "c0ffee" VUndefined
  end.

(** * Theorems *)

(** ** The job factory *)

Lemma createJob_string (uid s : string) :
  createJob uid (VStr s) = inr (set_req "url" (VStr s) (skeleton uid (VStr s))).
Proof. reflexivity. Qed.

(** What [createJob] returns on an object whose [url] is truthy. *)
Lemma createJob_object (uid : string) (o : obj) :
  truthy (prop (VObj o) "url") = true →
  ∃ j, createJob uid (VObj o) = inr j
    ∧ j_id j = "Job[" +:+ uid +:+ "]"
    ∧ j_original j = VObj o
    ∧ j_state j = ∅
    ∧ j_res j = ∅
    ∧ j_req j !! "url" = Some (prop (VObj o) "url")
    ∧ j_req j !! "data" = Some (or_else (prop (VObj o) "data") (VObj ∅))
    ∧ j_req j !! "params" = Some (or_else (prop (VObj o) "params") (VObj ∅))
    ∧ j_req j !! "retries" = Some (VNum 0)
    ∧ j_req j !! "timeout" =
        (if truthy (prop (VObj o) "timeout") then Some (prop (VObj o) "timeout") else None).
Proof.
  intros Hurl. unfold createJob. rewrite Hurl. cbn [negb].
  eexists. split; [reflexivity|].
  destruct (truthy (prop (VObj o) "timeout")); cbn;
    split_and!; by simplify_map_eq.
Qed.

(** A falsy [url] (absent, [undefined], [null], [""], [0], [NaN], [false])
    raises the "no url provided" error. *)
Lemma createJob_falsy_url (uid : string) (o : obj) :
  truthy (prop (VObj o) "url") = false →
  createJob uid (VObj o) = inl (Error no_url_provided).
Proof. intros H. unfold createJob. by rewrite H. Qed.

(** C6, as stated, fails: a feed whose [data] property is present with the
    value 0 yields a job whose [req.data] is the empty mapping, not the
    feed's value. *)
Lemma createJob_data_zero_replaced :
  ¬ (∀ (uid : string) (o : obj) (v : value) (j : job),
       valid_feed (VObj o) = true →
       o !! "data" = Some v →
       createJob uid (VObj o) = inr j →
       j_req j !! "data" = Some v).
Proof.
  intros H.
  pose (o := <["data" := VNum 0]> ({[ "url" := VStr "http://a" ]} : obj)).
  destruct (createJob_object "7f" o) as (j & Hj & _ & _ & _ & _ & _ & Hd & _);
    [reflexivity|].
  specialize (H "7f" o (VNum 0) j eq_refl eq_refl Hj).
  rewrite Hd in H. discriminate H.
Qed.

(** C6, amended: for every valid feed [F] (a string, or an object whose
    [url] is truthy) [createJob] returns a job: its identifier is built from
    the uuid drawn, [original] is the feed, [req.url] is [F] for a string
    and [F.url] for an object, [req.data] and [req.params] are
    [F.data || {}] and [F.params || {}], that is the feed's values when
    these are truthy and empty mappings when they are absent or falsy,
    [req.retries] is 0, and [res] and [state] are empty. *)
Theorem createJob_valid_feed (uid : string) (F : value) :
  valid_feed F = true →
  ∃ j, createJob uid F = inr j
    ∧ j_id j = "Job[" +:+ uid +:+ "]"
    ∧ j_original j = F
    ∧ j_req j !! "url" = Some (feed_url F)
    ∧ (∀ k, k = "data" ∨ k = "params" →
         j_req j !! k = Some (or_else (prop F k) (VObj ∅))
         ∧ (truthy (prop F k) = true → j_req j !! k = Some (prop F k))
         ∧ (truthy (prop F k) = false → j_req j !! k = Some (VObj ∅)))
    ∧ j_req j !! "retries" = Some (VNum 0)
    ∧ j_res j = ∅
    ∧ j_state j = ∅.
Proof.
  intros Hv.
  assert (Hor : ∀ (j : job) k, j_req j !! k = Some (or_else (prop F k) (VObj ∅)) →
            j_req j !! k = Some (or_else (prop F k) (VObj ∅))
            ∧ (truthy (prop F k) = true → j_req j !! k = Some (prop F k))
            ∧ (truthy (prop F k) = false → j_req j !! k = Some (VObj ∅))).
  { intros j k Hk. split; [done|]. rewrite Hk. unfold or_else.
    split; intros ->; done. }
  destruct F; try discriminate Hv.
  - eexists. split; [apply createJob_string|].
    split_and!; try (cbn; by simplify_map_eq).
    intros k [-> | ->]; apply Hor; cbn; by simplify_map_eq.
  - cbn [valid_feed] in Hv.
    destruct (createJob_object uid o Hv)
      as (j & Hj & Hid & Horig & Hst & Hres & Hu & Hd & Hp & Hr & _).
    exists j. split_and!; try done.
    intros k [-> | ->]; by apply Hor.
Qed.

Lemma createJob_valid_feed_witness :
  ∃ j, createJob "7f" (VObj (<["data" := VNum 0]> {[ "url" := VStr "http://a" ]})) = inr j
    ∧ j_req j !! "url" = Some (VStr "http://a")
    ∧ j_req j !! "data" = Some (VObj ∅)
    ∧ j_req j !! "params" = Some (VObj ∅).
Proof.
  set (o := <["data" := VNum 0]> ({[ "url" := VStr "http://a" ]} : obj)).
  destruct (createJob_valid_feed "7f" (VObj o))
    as (j & Hj & _ & _ & Hu & Hk & _); [reflexivity|].
  exists j. split; [exact Hj|]. split; [exact Hu|].
  split; [apply (Hk "data") | apply (Hk "params")]; first [by left | by right | reflexivity].
Defined.

(** C7: on an object feed that has no [url] property, [createJob] throws the
    error whose message says that no url was provided, and returns no job. *)
Theorem createJob_no_url (uid : string) (o : obj) :
  o !! "url" = None →
  createJob uid (VObj o) = inl (Error no_url_provided).
Proof.
  intros H. apply createJob_falsy_url. cbn. by rewrite H.
Qed.

Lemma createJob_no_url_witness :
  createJob "7f" (VObj ∅) = inl (Error no_url_provided).
Proof. apply (createJob_no_url "7f" ∅). reflexivity. Defined.

(** C8, as stated, fails: a feed whose [timeout] property is present with
    the value 0 yields a job whose [req.timeout] is unset. *)
Lemma createJob_timeout_zero_unset :
  ¬ (∀ (uid : string) (o : obj) (v : value) (j : job),
       o !! "timeout" = Some v →
       createJob uid (VObj o) = inr j →
       j_req j !! "timeout" = Some v).
Proof.
  intros H.
  pose (o := <["timeout" := VNum 0]> ({[ "url" := VStr "http://a" ]} : obj)).
  destruct (createJob_object "7f" o) as (j & Hj & _ & _ & _ & _ & _ & _ & _ & _ & Ht);
    [reflexivity|].
  specialize (H "7f" o (VNum 0) j eq_refl Hj).
  rewrite Ht in H. discriminate H.
Qed.

(** C8, amended: for every object feed that [createJob] accepts,
    [req.timeout] is the feed's [timeout] when that value is truthy, and is
    left unset when the property is absent or its value is falsy. *)
Theorem createJob_timeout (uid : string) (o : obj) (j : job) :
  createJob uid (VObj o) = inr j →
  (∀ v, o !! "timeout" = Some v → truthy v = true → j_req j !! "timeout" = Some v)
  ∧ (∀ v, o !! "timeout" = Some v → truthy v = false → j_req j !! "timeout" = None)
  ∧ (o !! "timeout" = None → j_req j !! "timeout" = None).
Proof.
  intros Hj.
  destruct (truthy (prop (VObj o) "url")) eqn:Hurl.
  - destruct (createJob_object uid o Hurl)
      as (j' & Hj' & _ & _ & _ & _ & _ & _ & _ & _ & Ht).
    rewrite Hj in Hj'. injection Hj' as <-.
    cbn [prop] in Ht.
    split_and!.
    + intros v Hv Htr. rewrite Hv in Ht. cbn in Ht. by rewrite Htr in Ht.
    + intros v Hv Htr. rewrite Hv in Ht. cbn in Ht. by rewrite Htr in Ht.
    + intros Hv. rewrite Hv in Ht. exact Ht.
  - rewrite (createJob_falsy_url uid o Hurl) in Hj. discriminate Hj.
Qed.

Lemma createJob_timeout_witness :
  ∃ j, createJob "7f" (VObj (<["timeout" := VNum 0]> {[ "url" := VStr "http://a" ]})) = inr j
     ∧ j_req j !! "timeout" = None.
Proof.
  set (o := <["timeout" := VNum 0]> ({[ "url" := VStr "http://a" ]} : obj)).
  assert (∃ j, createJob "7f" (VObj o) = inr j) as [j Hj] by (eexists; reflexivity).
  exists j. split; [exact Hj|].
  destruct (createJob_timeout "7f" o j Hj) as (_ & Hfalsy & _).
  apply (Hfalsy (VNum 0)); reflexivity.
Defined.

(** ** The shape of the states a step leads to *)

Lemma same_setup_refl s : same_setup s s.
Proof. by constructor. Qed.

Lemma same_setup_trans s0 s1 s2 : same_setup s0 s1 → same_setup s1 s2 → same_setup s0 s2.
Proof. intros [] []. constructor; congruence. Qed.

Lemma check_drain_cases s :
  (check_drain s = s ∧ (q_drain (s_queue s) = None ∨ idle (s_queue s) = false))
  ∨ (check_drain s = drained s ∧ q_drain (s_queue s) = Some DrainOfRun
     ∧ idle (s_queue s) = true).
Proof.
  unfold check_drain.
  destruct (q_drain (s_queue s)) as [[]|] eqn:Hd; [|left; auto].
  destruct (idle (s_queue s)) eqn:Hi; [right | left]; auto.
Qed.

Lemma drained_trace s : s_trace (drained s) = s_trace s ++ success_tail.
Proof. cbn. by rewrite <- !app_assoc. Qed.

Lemma drained_queue s : s_queue (drained s) = kill (s_queue s).
Proof. reflexivity. Qed.

Lemma job_callback_eq r j err s :
  job_callback r j err s =
  check_drain (with_queue (free r (s_queue s)) (emit (job_event r j err) s)).
Proof.
  unfold job_callback, job_event, queue_callback. by destruct (truthy err).
Qed.

(** The shape of the state after a stage callback. *)
Lemma stage_done_shape r s s' :
  stage_done r s = Some s' →
  ∃ j st j' err,
    q_workers (s_queue s) !! r = Some (j, st)
    ∧ stage_valid s st
    ∧ run_stage s st j = (j', err)
    ∧ ((truthy err = false ∧ ∃ st', stage_valid s st' ∧
          stage_cost s st' < stage_cost s st ∧
          trace_from s r j' (succ_stage st) = trace_from s r j' st' ∧
          s' = invoke r j' st' (emit (CalledBack r st err) s))
       ∨ (∃ err', (truthy err = true ∧ err' = err
                   ∨ truthy err = false ∧ err' = VUndefined
                     ∧ trace_from s r j' (succ_stage st) = [job_event r j' VUndefined]) ∧
          s' = check_drain (with_queue (free r (s_queue s))
                 (emit (job_event r j' err') (emit (CalledBack r st err) s))))).
Proof.
  unfold stage_done, task_at, aborts.
  destruct (q_workers (s_queue s) !! r) as [[j st]|] eqn:Hw; [|done].
  destruct st as [i| |i].
  - destruct (mw_beforeScraping (s_middlewares s) !! i) as [mw|] eqn:Hmw; [|done].
    destruct (apply_before mw j) as [j' err] eqn:Hap. intros [= <-].
    exists j, (SBefore i), j', err. split_and!; [done| |by cbn; rewrite Hmw|].
    { cbn. by eapply lookup_lt_Some. }
    destruct (truthy err) eqn:Herr.
    + right. exists err. split; [by left|]. by rewrite job_callback_eq.
    + left. split; [done|]. unfold beforeScraping, task_at, scrape. cbn [emit s_middlewares].
      destruct (mw_beforeScraping (s_middlewares s) !! S i) as [mw'|] eqn:Hmw'.
      * exists (SBefore (S i)). apply lookup_lt_Some in Hmw, Hmw'.
        split_and!; [done|cbn; lia|done|done].
      * exists SFetch. apply lookup_lt_Some in Hmw. split_and!; [done|cbn; lia| |done].
        cbn. apply lookup_ge_None in Hmw'. by rewrite drop_ge.
  - destruct (s_engine s j) as [j' err] eqn:Hap. intros [= <-].
    exists j, SFetch, j', err. split_and!; [done|done|done|].
    destruct (truthy err) eqn:Herr.
    + right. exists err. split; [by left|]. by rewrite job_callback_eq.
    + unfold afterScraping, task_at. cbn [emit s_middlewares].
      destruct (mw_afterScraping (s_middlewares s) !! 0) as [mw'|] eqn:Hmw'.
      * left. split; [done|]. exists (SAfter 0). apply lookup_lt_Some in Hmw'.
        split_and!; [done|cbn; lia|done|done].
      * right. exists VUndefined. split; [|by rewrite job_callback_eq].
        right. split_and!; [done..|].
        cbn. apply lookup_ge_None in Hmw'. by rewrite drop_ge.
  - destruct (mw_afterScraping (s_middlewares s) !! i) as [mw|] eqn:Hmw; [|done].
    destruct (apply_after mw j) as [j' err] eqn:Hap. intros [= <-].
    exists j, (SAfter i), j', err. split_and!; [done| |by cbn; rewrite Hmw|].
    { cbn. by eapply lookup_lt_Some. }
    destruct (truthy err) eqn:Herr.
    + right. exists err. split; [by left|]. by rewrite job_callback_eq.
    + unfold afterScraping, task_at. cbn [emit s_middlewares].
      destruct (mw_afterScraping (s_middlewares s) !! S i) as [mw'|] eqn:Hmw'.
      * left. split; [done|]. exists (SAfter (S i)). apply lookup_lt_Some in Hmw, Hmw'.
        split_and!; [done|cbn; lia|done|done].
      * right. exists VUndefined. split; [|by rewrite job_callback_eq].
        right. split_and!; [done..|].
        cbn. apply lookup_ge_None in Hmw'. by rewrite drop_ge.
Qed.

Lemma trace_from_step s r j st j' err :
  stage_valid s st →
  run_stage s st j = (j', err) →
  trace_from s r j st =
    Invoked r st :: CalledBack r st err ::
      (if truthy err then [job_event r j' err] else trace_from s r j' (succ_stage st)).
Proof.
  unfold job_event. destruct st as [i| |i]; cbn; intros Hv Hrun.
  - apply lookup_lt_is_Some_2 in Hv as [mw Hmw]. rewrite Hmw in Hrun.
    rewrite (drop_S _ _ _ Hmw). cbn. rewrite Hrun. by destruct (truthy err).
  - unfold fetch_trace. rewrite Hrun. destruct (truthy err); [done|].
    by rewrite drop_0.
  - apply lookup_lt_is_Some_2 in Hv as [mw Hmw]. rewrite Hmw in Hrun.
    rewrite (drop_S _ _ _ Hmw). cbn. rewrite Hrun. by destruct (truthy err).
Qed.

Lemma trace_from_head s r j st :
  stage_valid s st → ∃ tl, trace_from s r j st = Invoked r st :: tl ∧ awaited s r j st = tl.
Proof.
  intros Hv. destruct (run_stage s st j) as [j' err] eqn:Hrun.
  unfold awaited. rewrite (trace_from_step _ _ _ _ _ _ Hv Hrun). eauto.
Qed.

Lemma process_shape s s' :
  process s = Some s' →
  ∃ j ts st',
    q_paused (s_queue s) = false
    ∧ slot_free (s_queue s) = true
    ∧ q_tasks (s_queue s) = j :: ts
    ∧ stage_valid s st'
    ∧ trace_from s (q_shifted (s_queue s)) j st' = pipeline s (q_shifted (s_queue s)) j
    ∧ s' = invoke (q_shifted (s_queue s)) j st'
             (with_queue {| q_tasks := ts; q_shifted := S (q_shifted (s_queue s));
                            q_concurrency := q_concurrency (s_queue s);
                            q_paused := q_paused (s_queue s);
                            q_drain := q_drain (s_queue s);
                            q_workers := q_workers (s_queue s) |} s).
Proof.
  unfold process, shift.
  destruct (q_paused (s_queue s)) eqn:Hp; [done|].
  destruct (slot_free (s_queue s)) eqn:Hf; [|done]. cbn [negb].
  destruct (q_tasks (s_queue s)) as [|j ts] eqn:Ht; [done|].
  intros [= <-]. exists j, ts.
  unfold worker, beforeScraping, scrape, task_at. cbn [with_queue s_middlewares].
  destruct (mw_beforeScraping (s_middlewares s) !! 0) as [mw|] eqn:Hmw.
  - exists (SBefore 0). split_and!; try done.
    cbn. by eapply lookup_lt_Some.
  - exists SFetch. split_and!; try done.
    unfold pipeline. cbn. by destruct (mw_beforeScraping (s_middlewares s)).
Qed.

Lemma before_done_shape s s' :
  before_done s = Some s' →
  ∃ i err,
    s_series s = Some i
    ∧ mw_before (s_middlewares s) !! i = Some err
    ∧ ((truthy err = true ∧
        s' = fail err (emit (OnComplete err)
               (with_series None (emit (BeforeCalledBack i err) s))))
       ∨ (truthy err = false ∧ s' = series (S i) (emit (BeforeCalledBack i err) s))).
Proof.
  unfold before_done, task_at, aborts.
  destruct (s_series s) as [i|]; [|done].
  destruct (mw_before (s_middlewares s) !! i) as [err|] eqn:Hb; [|done].
  intros [= <-]. exists i, err. split_and!; [done..|].
  destruct (truthy err) eqn:Herr; [left | right]; split; try done.
  unfold run_callback. by rewrite Herr.
Qed.

Lemma series_shape i s :
  (∃ err, mw_before (s_middlewares s) !! i = Some err
     ∧ series i s = emit (CallBefore i) (with_series (Some i) s))
  ∨ (mw_before (s_middlewares s) !! i = None
     ∧ series i s = with_queue (resume (with_drain (Some DrainOfRun) (s_queue s)))
                      (with_series None s)).
Proof.
  unfold series, task_at.
  destruct (mw_before (s_middlewares s) !! i) as [err|] eqn:Hb; [left; eauto|right].
  split; [done|]. reflexivity.
Qed.

#[local] Arguments proj : simpl never.
#[local] Arguments sproj : simpl never.
#[local] Arguments trace_from : simpl never.
#[local] Arguments pipeline : simpl never.
#[local] Arguments awaited : simpl never.
#[local] Arguments stage_valid : simpl never.

Lemma scraper_only_refl s : scraper_only s s.
Proof. constructor; auto. exists []. by rewrite app_nil_r. Qed.

Lemma scraper_only_trans s1 s2 s3 :
  scraper_only s1 s2 → scraper_only s2 s3 → scraper_only s1 s3.
Proof.
  intros [Hs1 Hw1 Ht1 (e1 & Htr1 & He1)] [Hs2 Hw2 Ht2 (e2 & Htr2 & He2)].
  constructor; [congruence|congruence| |].
  - destruct Ht2 as [Ht2|Ht2]; [rewrite Ht2; exact Ht1 | by right].
  - exists (e1 ++ e2). rewrite Htr2, Htr1, <- app_assoc. split; [done|].
    by rewrite forallb_app, He1, He2.
Qed.

Ltac scraper_only_tac :=
  constructor; cbn;
  [reflexivity | reflexivity | auto
  | eexists; split;
    [first [rewrite <- ?app_assoc; reflexivity | exact (eq_sym (app_nil_r _))]
    | reflexivity]].

Lemma drained_scraper_only s : scraper_only s (drained s).
Proof. scraper_only_tac. Qed.

Lemma check_drain_scraper_only s : scraper_only s (check_drain s).
Proof.
  destruct (check_drain_cases s) as [[-> _] | [-> _]];
    [apply scraper_only_refl | apply drained_scraper_only].
Qed.

Lemma series_scraper_only i s : scraper_only s (series i s).
Proof.
  destruct (series_shape i s) as [(err & _ & ->) | [_ ->]]; scraper_only_tac.
Qed.

Lemma run_scraper_only s : scraper_only s (run s).
Proof.
  unfold run. eapply scraper_only_trans; [|apply series_scraper_only]. scraper_only_tac.
Qed.

Lemma before_done_scraper_only s s' : before_done s = Some s' → scraper_only s s'.
Proof.
  intros (i & err & _ & _ & [[_ ->] | [_ ->]])%before_done_shape.
  - scraper_only_tac.
  - eapply scraper_only_trans; [|apply series_scraper_only]. scraper_only_tac.
Qed.

Lemma proj_app r tr1 tr2 : proj r (tr1 ++ tr2) = proj r tr1 ++ proj r tr2.
Proof. apply List.filter_app. Qed.

Lemma sproj_app tr1 tr2 : sproj (tr1 ++ tr2) = sproj tr1 ++ sproj tr2.
Proof. apply List.filter_app. Qed.

Lemma proj_of_scraper r evs : forallb of_scraper evs = true → proj r evs = [].
Proof.
  unfold proj. induction evs as [|e evs IH]; [done|]. cbn. intros [He Hevs]%andb_prop.
  rewrite (IH Hevs). by destruct e.
Qed.

Lemma sproj_of_scraper evs : forallb of_scraper evs = true → sproj evs = evs.
Proof.
  unfold sproj. induction evs as [|e evs IH]; [done|]. cbn. intros [He Hevs]%andb_prop.
  by rewrite He, (IH Hevs).
Qed.

Lemma about_job_event r j err : about r (job_event r j err) = true.
Proof. unfold job_event. destruct (truthy err); cbn; apply Nat.eqb_refl. Qed.

Lemma trace_from_same s0 s r j st :
  same_setup s0 s → trace_from s r j st = trace_from s0 r j st.
Proof. intros [_ _ _ He Hm _]. unfold trace_from. by rewrite He, Hm. Qed.

Lemma pipeline_same s0 s r j : same_setup s0 s → pipeline s r j = pipeline s0 r j.
Proof. intros [_ _ _ He Hm _]. unfold pipeline. by rewrite He, Hm. Qed.

Lemma stage_valid_same s0 s st : same_setup s0 s → stage_valid s st → stage_valid s0 st.
Proof. intros [_ _ _ He Hm _]. unfold stage_valid. by rewrite Hm. Qed.

Lemma run_stage_same s0 s st j : same_setup s0 s → run_stage s st j = run_stage s0 st j.
Proof. intros [_ _ _ He Hm _]. unfold run_stage. by rewrite He, Hm. Qed.

Lemma jobs_inv_scraper_only s0 jobs0 s s' :
  scraper_only s s' → jobs_inv s0 jobs0 s → jobs_inv s0 jobs0 s'.
Proof.
  intros [Hs Hw Ht (evs & Htr & Hevs)] [H1 H2 H3 H4 H5].
  assert (Hproj : ∀ r, proj r (s_trace s') = proj r (s_trace s)).
  { intros r. by rewrite Htr, proj_app, (proj_of_scraper _ _ Hevs), app_nil_r. }
  constructor; rewrite ?Hs, ?Hw.
  - done.
  - destruct Ht as [-> | ->]; auto.
  - intros r Hr. rewrite Hproj. auto.
  - intros r j st Hr. rewrite Hproj. auto.
  - intros r Hr Hn. rewrite Hproj. auto.
Qed.

Lemma elem_of_proj r e tr : e ∈ proj r tr ↔ about r e = true ∧ e ∈ tr.
Proof.
  unfold proj. rewrite !list_elem_of_In, List.filter_In. tauto.
Qed.

Lemma proj_one_same r e : about r e = true → proj r [e] = [e].
Proof. intros H. unfold proj. cbn. by rewrite H. Qed.

Lemma proj_one_other r e : about r e = false → proj r [e] = [].
Proof. intros H. unfold proj. cbn. by rewrite H. Qed.

Lemma about_other r r' e : about r e = true → r' ≠ r → about r' e = false.
Proof.
  destruct e; cbn; try done; intros ->%Nat.eqb_eq Hne; by apply Nat.eqb_neq.
Qed.

Lemma jobs_inv_active_lt s0 jobs0 s r w :
  jobs_inv s0 jobs0 s → q_workers (s_queue s) !! r = Some w → r < q_shifted (s_queue s).
Proof.
  intros [_ _ Hp _ _] Hw.
  destruct (decide (r < q_shifted (s_queue s))) as [|Hge]; [done|].
  destruct (Hp r) as [Hn _]; [lia|]. congruence.
Qed.

Lemma jobs_inv_process s0 jobs0 s s' :
  same_setup s0 s → process s = Some s' → jobs_inv s0 jobs0 s → jobs_inv s0 jobs0 s'.
Proof.
  intros Hsame (j & ts & st' & _ & _ & Hts & Hv & Htf & ->)%process_shape Hinv.
  destruct Hinv as [H1 H2 H3 H4 H5].
  set (r := q_shifted (s_queue s)) in *.
  destruct H2 as [H2|H2]; [|congruence].
  rewrite Hts in H2.
  assert (Hj0 : jobs0 !! r = Some j).
  { rewrite <- (Nat.add_0_r r), <- lookup_drop, <- H2. done. }
  assert (Hts' : ts = drop (S r) jobs0).
  { rewrite <- (Nat.add_1_l r), Nat.add_comm, <- drop_drop, <- H2. done. }
  destruct (H3 r) as [Hwr Hpr]; [done|].
  constructor; cbn.
  - by apply lookup_lt_Some in Hj0.
  - by left.
  - intros r2 Hr2. destruct (H3 r2) as [Hw2 Hp2]; [lia|].
    rewrite lookup_insert_ne by lia. split; [done|].
    rewrite proj_app, Hp2. apply proj_one_other. cbn. apply Nat.eqb_neq. lia.
  - intros r2 j2 st2 Hw2. destruct (decide (r2 = r)) as [->|Hne].
    + rewrite lookup_insert_eq in Hw2. injection Hw2 as <- <-.
      split; [by eapply stage_valid_same|].
      exists j. split; [done|].
      rewrite proj_app, Hpr, proj_one_same by (cbn; apply Nat.eqb_refl).
      destruct (trace_from_head s0 r j st') as (tl & Hhd & ->);
        [by eapply stage_valid_same|].
      rewrite <- (pipeline_same s0 s) by done. rewrite <- Htf.
      rewrite (trace_from_same s0 s) by done. split; [by rewrite Hhd|].
      intros st2 err Hin. by apply list_elem_of_singleton in Hin.
    + rewrite lookup_insert_ne in Hw2 by done.
      destruct (H4 r2 j2 st2 Hw2) as (Hv2 & j0 & Hj02 & Heq & Hcalm).
      rewrite proj_app, proj_one_other, app_nil_r by (cbn; by apply Nat.eqb_neq).
      eauto 10.
  - intros r2 Hr2 Hw2. destruct (decide (r2 = r)) as [->|Hne].
    + by rewrite lookup_insert_eq in Hw2.
    + rewrite lookup_insert_ne in Hw2 by done.
      rewrite proj_app, proj_one_other, app_nil_r by (cbn; by apply Nat.eqb_neq).
      apply H5; [lia|done].
Qed.

Lemma awaited_step s r j st j' err :
  stage_valid s st →
  run_stage s st j = (j', err) →
  awaited s r j st =
    CalledBack r st err ::
      (if truthy err then [job_event r j' err] else trace_from s r j' (succ_stage st)).
Proof.
  intros Hv Hrun. unfold awaited. by rewrite (trace_from_step _ _ _ _ _ _ Hv Hrun).
Qed.

Lemma jobs_inv_stage_done s0 jobs0 s s' r :
  same_setup s0 s → stage_done r s = Some s' → jobs_inv s0 jobs0 s → jobs_inv s0 jobs0 s'.
Proof.
  intros Hsame (j & st & j' & err & Hw & Hv & Hrun & Hcase)%stage_done_shape Hinv.
  pose proof (jobs_inv_active_lt _ _ _ _ _ Hinv Hw) as Hlt.
  apply (stage_valid_same s0) in Hv; [|done].
  rewrite (run_stage_same s0) in Hrun by done.
  pose proof (awaited_step s0 r j st j' err Hv Hrun) as Haw.
  destruct Hinv as [H1 H2 H3 H4 H5].
  destruct (H4 r j st Hw) as (_ & j0 & Hj0 & Heq & Hcalm).
  destruct Hcase as [(Herr & st' & Hv' & _ & Htf & ->) | (err' & Herr & ->)].
  - (* the next stage is invoked *)
    apply (stage_valid_same s0) in Hv'; [|done].
    rewrite !(trace_from_same s0 s) in Htf by done.
    rewrite Herr in Haw.
    constructor; cbn.
    + done.
    + done.
    + intros r2 Hr2. destruct (H3 r2 Hr2) as [Hw2 Hp2].
      rewrite lookup_insert_ne by lia. split; [done|].
      rewrite !proj_app, Hp2, !proj_one_other; [done|cbn; apply Nat.eqb_neq; lia..].
    + intros r2 j2 st2 Hw2. destruct (decide (r2 = r)) as [->|Hne].
      * rewrite lookup_insert_eq in Hw2. injection Hw2 as <- <-.
        split; [done|]. exists j0. split; [done|].
        rewrite !proj_app, !proj_one_same by (cbn; apply Nat.eqb_refl).
        destruct (trace_from_head s0 r j' st' Hv') as (tl & Hhd & ->).
        split.
        -- rewrite <- Heq, Haw, Htf, Hhd, <- !app_assoc. done.
        -- intros st2 err2 [[Hin|Hin%list_elem_of_singleton]%elem_of_app
                             |Hin%list_elem_of_singleton]%elem_of_app.
           ++ by eapply Hcalm.
           ++ by injection Hin as _ ->.
           ++ done.
      * rewrite lookup_insert_ne in Hw2 by done.
        rewrite !proj_app, !proj_one_other, !app_nil_r by (cbn; by apply Nat.eqb_neq).
        auto.
    + intros r2 Hr2 Hw2. destruct (decide (r2 = r)) as [->|Hne].
      * by rewrite lookup_insert_eq in Hw2.
      * rewrite lookup_insert_ne in Hw2 by done.
        rewrite !proj_app, !proj_one_other, !app_nil_r by (cbn; by apply Nat.eqb_neq).
        auto.
  - (* the job leaves the pipeline *)
    eapply jobs_inv_scraper_only; [apply check_drain_scraper_only|].
    assert (Haw' : awaited s0 r j st = [CalledBack r st err; job_event r j' err']).
    { rewrite Haw. destruct Herr as [[-> ->] | (-> & -> & Htf)]; [done|].
      by rewrite (trace_from_same s0 s) in Htf by done; rewrite Htf. }
    constructor; cbn.
    + done.
    + done.
    + intros r2 Hr2. destruct (H3 r2 Hr2) as [Hw2 Hp2].
      rewrite lookup_delete_ne by lia. split; [done|].
      rewrite !proj_app, Hp2, !proj_one_other; [done|..].
      * eapply about_other; [apply about_job_event|lia].
      * cbn; apply Nat.eqb_neq; lia.
    + intros r2 j2 st2 Hw2. destruct (decide (r2 = r)) as [->|Hne].
      * by rewrite lookup_delete_eq in Hw2.
      * rewrite lookup_delete_ne in Hw2 by done.
        rewrite !proj_app, !proj_one_other, !app_nil_r; [auto|..].
        -- eapply about_other; [apply about_job_event|done].
        -- cbn; by apply Nat.eqb_neq.
    + intros r2 Hr2 Hw2. destruct (decide (r2 = r)) as [->|Hne].
      * exists j0. split; [done|].
        rewrite !proj_app, !proj_one_same; [|apply about_job_event|cbn; apply Nat.eqb_refl].
        by rewrite <- Heq, Haw', <- !app_assoc.
      * rewrite lookup_delete_ne in Hw2 by done.
        rewrite !proj_app, !proj_one_other, !app_nil_r; [auto|..].
        -- eapply about_other; [apply about_job_event|done].
        -- cbn; by apply Nat.eqb_neq.
Qed.

Lemma jobs_inv_step s0 jobs0 a s s' :
  same_setup s0 s → step a s = Some s' → jobs_inv s0 jobs0 s → jobs_inv s0 jobs0 s'.
Proof.
  destruct a; cbn [step]; intros Hsame Hstep.
  - eapply jobs_inv_scraper_only, before_done_scraper_only, Hstep.
  - by eapply jobs_inv_process.
  - by eapply jobs_inv_stage_done.
Qed.

Lemma check_drain_same_setup s : same_setup s (check_drain s).
Proof. destruct (check_drain_cases s) as [[-> _] | [-> _]]; by constructor. Qed.

Lemma series_same_setup i s : same_setup s (series i s).
Proof.
  destruct (series_shape i s) as [(err & _ & ->) | [_ ->]]; by constructor.
Qed.

Lemma run_same_setup s : same_setup s (run s).
Proof.
  unfold run. eapply same_setup_trans; [|apply series_same_setup]. by constructor.
Qed.

Lemma step_same_setup a s s' : step a s = Some s' → same_setup s s'.
Proof.
  destruct a; cbn [step].
  - intros (i & err & _ & _ & [[_ ->] | [_ ->]])%before_done_shape; [by constructor|].
    eapply same_setup_trans; [|apply series_same_setup]. by constructor.
  - intros (j & ts & st' & _ & _ & _ & _ & _ & ->)%process_shape. by constructor.
  - intros (j & st & j' & err & _ & _ & _ & [(_ & st' & _ & _ & _ & ->) | (err' & _ & ->)])
      %stage_done_shape; [by constructor|].
    eapply same_setup_trans; [|apply check_drain_same_setup]. by constructor.
Qed.

(** Invariants of executions. *)
Lemma exec_invariant (P : scraper → Prop) s0 :
  (∀ a s s', same_setup s0 s → P s → step a s = Some s' → P s') →
  ∀ acts s s', same_setup s0 s → P s → exec acts s = Some s' → P s' ∧ same_setup s0 s'.
Proof.
  intros Hstep. induction acts as [|a acts IH]; intros s s' Hsame HP; cbn.
  - by intros [= <-].
  - destruct (step a s) as [s1|] eqn:Ha; [|done].
    apply IH; [|by eapply Hstep].
    eapply same_setup_trans; [done|by eapply step_same_setup].
Qed.

Lemma exec_app acts1 acts2 s :
  exec (acts1 ++ acts2) s = exec acts1 s ≫= exec acts2.
Proof.
  revert s. induction acts1 as [|a acts1 IH]; intros s; cbn; [done|].
  by destruct (step a s).
Qed.

Lemma exec_same_setup acts s s' : exec acts s = Some s' → same_setup s s'.
Proof.
  intros H. eapply (exec_invariant (λ _, True) s); eauto using same_setup_refl.
Qed.

Lemma jobs_inv_ready s0 : ready s0 → jobs_inv s0 (q_tasks (s_queue s0)) s0.
Proof.
  intros [Hp Hw Hs Hd Hse Hf Ht]. constructor; rewrite ?Hs, ?Hw, ?Ht.
  - lia.
  - by left.
  - done.
  - intros r j st. by rewrite lookup_empty.
  - lia.
Qed.

Lemma jobs_inv_exec s0 acts s :
  ready s0 → exec acts (run s0) = Some s →
  jobs_inv s0 (q_tasks (s_queue s0)) s ∧ same_setup s0 s.
Proof.
  intros Hready Hexec.
  eapply (exec_invariant (jobs_inv s0 (q_tasks (s_queue s0)))); [| | |exact Hexec].
  - intros a s1 s2 Hsame Hinv Hstep. by eapply jobs_inv_step.
  - apply run_same_setup.
  - eapply jobs_inv_scraper_only; [apply run_scraper_only|by apply jobs_inv_ready].
Qed.

(** ** The phases of a run *)

Lemma start_error_app l l' :
  start_error l = None → start_error (l ++ l') = start_error l'.
Proof.
  induction l as [|e l IH]; cbn; [done|]. destruct (truthy e); [done|auto].
Qed.

Lemma start_trace_app k l l' :
  start_error l = None →
  start_trace k (l ++ l') = start_trace k l ++ start_trace (k + length l) l'.
Proof.
  revert k. induction l as [|e l IH]; intros k; cbn.
  - by rewrite Nat.add_0_r.
  - destruct (truthy e); [done|]. intros H. rewrite (IH (S k) H).
    by replace (S k + length l) with (k + S (length l)) by lia.
Qed.

Lemma start_error_take_S (bs : list start_mw) i err :
  bs !! i = Some err → start_error (take i bs) = None →
  start_error (take (S i) bs) = if truthy err then Some err else None.
Proof.
  intros Hi Hnone. rewrite (take_S_r _ _ _ Hi), start_error_app by done.
  cbn. by destruct (truthy err).
Qed.

Lemma start_trace_take_S (bs : list start_mw) i err :
  bs !! i = Some err → start_error (take i bs) = None →
  start_trace 0 (take (S i) bs) =
    start_trace 0 (take i bs) ++ [CallBefore i; BeforeCalledBack i err].
Proof.
  intros Hi Hnone. rewrite (take_S_r _ _ _ Hi), start_trace_app by done.
  cbn. rewrite length_take_le by (apply lookup_lt_Some in Hi; lia).
  by destruct (truthy err).
Qed.

Lemma start_stop (bs : list start_mw) i err :
  bs !! i = Some err → start_error (take i bs) = None → truthy err = true →
  start_error bs = Some err
  ∧ start_trace 0 bs = start_trace 0 (take i bs) ++ [CallBefore i; BeforeCalledBack i err].
Proof.
  intros Hi Hnone Herr.
  pose proof (take_drop_middle _ _ _ Hi) as Hbs.
  split.
  - rewrite <- Hbs, start_error_app by done. cbn. by rewrite Herr.
  - rewrite <- Hbs at 1. rewrite start_trace_app by done. cbn. rewrite Herr.
    by rewrite length_take_le by (apply lookup_lt_Some in Hi; lia).
Qed.

Lemma idle_empty q : idle q = true ↔ q_tasks q = [] ∧ q_workers q = ∅.
Proof.
  unfold idle. destruct (q_tasks q); [|by split; [|intros []]].
  rewrite Nat.eqb_eq, map_size_empty_iff. tauto.
Qed.

Lemma idle_await r j st q : idle (await r j st q) = false.
Proof.
  apply not_true_is_false. rewrite idle_empty. cbn. intros [_ H].
  by apply insert_non_empty in H.
Qed.

Lemma start_trace_of_scraper k l : forallb of_scraper (start_trace k l) = true.
Proof.
  revert k. induction l as [|e l IH]; intros k; cbn; [done|].
  destruct (truthy e); [done|apply IH].
Qed.

Lemma sproj_start k l : sproj (start_trace k l) = start_trace k l.
Proof. apply sproj_of_scraper, start_trace_of_scraper. Qed.

(** The state in which the queue is resumed, when the start series is over. *)
Lemma phase_resume s0 s1 :
  s_series s1 = None →
  start_error (mw_before (s_middlewares s0)) = None →
  q_workers (s_queue s1) = ∅ →
  q_shifted (s_queue s1) = 0 →
  q_tasks (s_queue s1) = q_tasks (s_queue s0) →
  fulfilled (s_state s1) = false →
  s_trace s1 = Emit_scraper_start :: start_trace 0 (mw_before (s_middlewares s0)) →
  phase s0 (with_queue (resume (with_drain (Some DrainOfRun) (s_queue s1))) s1).
Proof.
  intros Hser Herr Hw Hsh Hts Hf Htr.
  apply Running; cbn; try done.
  - destruct (q_tasks (s_queue s0)) as [|j0 ts0] eqn:Hts0; [by right|left].
    split; [done|]. unfold idle. cbn. by rewrite Hts.
  - rewrite Hsh. lia.
  - by rewrite Hsh.
  - rewrite Htr. change (Emit_scraper_start :: ?l) with ([Emit_scraper_start] ++ l).
    by rewrite sproj_app, sproj_start.
Qed.

Lemma phase_series s0 s i :
  same_setup s0 s →
  start_error (take i (mw_before (s_middlewares s0))) = None →
  i ≤ length (mw_before (s_middlewares s0)) →
  q_paused (s_queue s) = true →
  q_workers (s_queue s) = ∅ →
  q_shifted (s_queue s) = 0 →
  q_drain (s_queue s) = None →
  q_tasks (s_queue s) = q_tasks (s_queue s0) →
  fulfilled (s_state s) = false →
  s_trace s = Emit_scraper_start :: start_trace 0 (take i (mw_before (s_middlewares s0))) →
  phase s0 (series i s).
Proof.
  intros Hsame Herr Hi Hp Hw Hsh Hd Hts Hf Htr.
  destruct Hsame as [_ _ _ _ Hmw _].
  destruct (series_shape i s) as [(err & Hb & ->) | [Hb ->]]; rewrite Hmw in Hb.
  - apply (Starting s0 _ i); cbn; try done.
    + by eapply lookup_lt_Some.
    + by rewrite Htr.
  - apply lookup_ge_None in Hb.
    rewrite take_ge in Herr, Htr by lia.
    by apply (phase_resume s0 (with_series None s)).
Qed.

Lemma phase_run s0 : ready s0 → phase s0 (run s0).
Proof.
  intros [Hp Hw Hs Hd Hse Hf Ht]. unfold run.
  apply phase_series; cbn; try done; try lia.
  by rewrite Ht.
Qed.

Lemma phase_before_done s0 s s' :
  same_setup s0 s → phase s0 s → before_done s = Some s' → phase s0 s'.
Proof.
  intros Hsame Hph (i & err & Hser & Hb & Hcase)%before_done_shape.
  destruct Hph as [i' Hser' Hi Herr Hp Hw Hsh Hd Hts Hf Htr| | |]; try congruence.
  assert (i' = i) as -> by congruence.
  pose proof Hsame as [_ _ _ _ Hmw _]. rewrite Hmw in Hb.
  destruct Hcase as [[Htruthy ->] | [Hfalsy ->]].
  - destruct (start_stop _ _ _ Hb Herr Htruthy) as [Hse Hst].
    apply (Failed s0 _ err); cbn; try done.
    rewrite Htr, Hst. cbn. by rewrite <- !app_assoc.
  - apply phase_series; cbn; try done; try lia.
    + by destruct Hsame; constructor.
    + by rewrite (start_error_take_S _ _ _ Hb Herr), Hfalsy.
    + rewrite Htr, (start_trace_take_S _ _ _ Hb Herr). cbn. by rewrite <- !app_assoc.
Qed.

Lemma sproj_one_job e : of_scraper e = false → sproj [e] = [].
Proof. intros H. unfold sproj. cbn. by rewrite H. Qed.

Lemma of_scraper_job_event r j err : of_scraper (job_event r j err) = false.
Proof. unfold job_event. by destruct (truthy err). Qed.

Lemma phase_process s0 s s' :
  phase s0 s → process s = Some s' → phase s0 s'.
Proof.
  intros Hph (j & ts & st' & Hp & _ & Hts & _ & _ & ->)%process_shape.
  destruct Hph as [| |Hser Herr _ Hd Hidle Hsh Htasks Hf Htr|]; try congruence.
  rewrite Hts in Htasks.
  assert (Hjobs : q_tasks (s_queue s0) ≠ []).
  { intros Hnil. by rewrite Hnil, drop_nil in Htasks. }
  apply Running; cbn; try done.
  - left. split; [done|apply idle_await].
  - apply Nat.le_succ_l, Nat.nle_gt. intros Hge. by rewrite drop_ge in Htasks.
  - by rewrite <- (Nat.add_1_l (q_shifted _)), Nat.add_comm, <- drop_drop, <- Htasks.
  - by rewrite sproj_app, sproj_one_job, app_nil_r.
Qed.

Lemma phase_stage_done s0 s s' r :
  phase s0 s → stage_done r s = Some s' → phase s0 s'.
Proof.
  intros Hph (j & st & j' & err & Hw & _ & _ & Hcase)%stage_done_shape.
  destruct Hph as [i' _ _ _ _ Hw0| err0 _ _ _ Hw0| Hser Herr Hp Hd Hidle Hsh Htasks Hf Htr
                  | pre _ _ _ _ _ Hw0];
    try (rewrite Hw0, lookup_empty in Hw; discriminate Hw).
  assert (Hjobs : q_tasks (s_queue s0) ≠ []).
  { destruct Hidle as [[? _] | [_ Hw0]]; [done|].
    rewrite Hw0, lookup_empty in Hw. discriminate Hw. }
  destruct Hcase as [(_ & st' & _ & _ & _ & ->) | (err' & _ & ->)].
  - apply Running; cbn; try done.
    + left. split; [done|apply idle_await].
    + by rewrite !sproj_app, !sproj_one_job, !app_nil_r.
  - set (s1 := with_queue _ _).
    assert (Htr1 : sproj (s_trace s1) =
              Emit_scraper_start :: start_trace 0 (mw_before (s_middlewares s0))).
    { cbn. rewrite !sproj_app, !sproj_one_job, !app_nil_r; [done|..|done].
      apply of_scraper_job_event. }
    destruct (check_drain_cases s1) as [[-> Hc] | (-> & _ & Hidle1)].
    + destruct Hc as [Hc|Hc]; [cbn in Hc; congruence|].
      apply Running; first [done | by left].
    + apply idle_empty in Hidle1 as [Ht1 Hw1].
      apply (Succeeded s0 _ (s_trace s1)); try done.
      * cbn in Ht1 |- *. rewrite Htasks in Ht1.
        apply drop_nil_inv in Ht1. lia.
      * apply drained_trace.
Qed.

Lemma phase_step s0 a s s' :
  same_setup s0 s → phase s0 s → step a s = Some s' → phase s0 s'.
Proof.
  destruct a; cbn [step]; intros Hsame Hph Hstep.
  - by eapply phase_before_done.
  - by eapply phase_process.
  - by eapply phase_stage_done.
Qed.

Lemma phase_exec s0 acts s :
  ready s0 → exec acts (run s0) = Some s → phase s0 s.
Proof.
  intros Hready Hexec.
  eapply (exec_invariant (phase s0)); [| | |exact Hexec].
  - intros a s1 s2 Hsame Hph Hstep. by eapply phase_step.
  - apply run_same_setup.
  - by apply phase_run.
Qed.

(** ** The bound on the active workers *)

Lemma bounded_scraper_only s s' :
  same_setup s s' → scraper_only s s' → bounded s → bounded s'.
Proof.
  intros [_ _ _ _ _ Hc] [_ Hw _ _]. unfold bounded, bound. by rewrite Hw, Hc.
Qed.

Lemma slot_free_bound q :
  slot_free q = true → (Z.of_nat (size (q_workers q)) < bound q)%Z.
Proof.
  unfold slot_free, bound. destruct (q_concurrency q); try done. by intros ?%Z.ltb_lt.
Qed.

Lemma bounded_step a s s' : step a s = Some s' → bounded s → bounded s'.
Proof.
  intros Hstep. pose proof (step_same_setup _ _ _ Hstep) as Hsame.
  destruct a; cbn [step] in Hstep.
  - by apply bounded_scraper_only, before_done_scraper_only.
  - apply process_shape in Hstep as (j & ts & st' & _ & Hfree & _ & _ & _ & ->).
    apply slot_free_bound in Hfree. unfold bounded, bound in *. cbn.
    rewrite map_size_insert. intros _.
    destruct (q_workers (s_queue s) !! _); cbn; lia.
  - apply stage_done_shape in Hstep
      as (j & st & j' & err & Hw & _ & _ & [(_ & st' & _ & _ & _ & ->) | (err' & _ & ->)]).
    + unfold bounded, bound. cbn. by rewrite map_size_insert, Hw.
    + intros Hb. eapply bounded_scraper_only;
        [apply check_drain_same_setup|apply check_drain_scraper_only|].
      unfold bounded, bound in *. cbn. rewrite map_size_delete, Hw. cbn. lia.
Qed.

Lemma bounded_exec acts s s' : exec acts s = Some s' → bounded s → bounded s'.
Proof.
  revert s. induction acts as [|a acts IH]; intros s; cbn.
  - by intros [= <-].
  - destruct (step a s) as [s1|] eqn:Ha; [|done].
    intros Hexec Hb. eapply IH; [done|]. by eapply bounded_step.
Qed.

Lemma bounded_run s : q_workers (s_queue s) = ∅ → bounded (run s).
Proof.
  intros Hw. eapply bounded_scraper_only; [apply run_same_setup|apply run_scraper_only|].
  unfold bounded. rewrite Hw, map_size_empty. lia.
Qed.

Lemma fetching_size q : size (fetching q) ≤ size (q_workers q).
Proof. apply map_subseteq_size, map_filter_subseteq. Qed.

(** ** Termination and progress *)

Lemma job_cost_same s s' : s_middlewares s' = s_middlewares s → job_cost s' = job_cost s.
Proof. unfold job_cost. by intros ->. Qed.

Lemma workers_cost_same s s' ws :
  s_middlewares s' = s_middlewares s → workers_cost s' ws = workers_cost s ws.
Proof. unfold workers_cost, stage_cost. by intros ->. Qed.

#[local] Arguments job_cost : simpl never.
#[local] Arguments workers_cost : simpl never.
#[local] Arguments stage_cost : simpl never.

Ltac potential_norm s :=
  unfold potential;
  rewrite ?(job_cost_same s), ?(workers_cost_same s) by reflexivity;
  cbn.

Lemma workers_cost_insert_None s r w (m : gmap nat (job * stage)) :
  m !! r = None →
  workers_cost s (<[r := w]> m) = stage_cost s w.2 + workers_cost s m.
Proof.
  intros Hr. unfold workers_cost. by rewrite map_to_list_insert.
Qed.

Lemma workers_cost_delete s r w (m : gmap nat (job * stage)) :
  m !! r = Some w →
  workers_cost s m = stage_cost s w.2 + workers_cost s (delete r m).
Proof.
  intros Hr. unfold workers_cost. by rewrite <- (map_to_list_delete m r w Hr).
Qed.

Lemma workers_cost_insert_Some s r w w0 (m : gmap nat (job * stage)) :
  m !! r = Some w0 →
  workers_cost s (<[r := w]> m) + stage_cost s w0.2 = stage_cost s w.2 + workers_cost s m.
Proof.
  intros Hr. rewrite <- insert_delete_eq.
  rewrite workers_cost_insert_None by apply lookup_delete_eq.
  rewrite (workers_cost_delete s r w0 m Hr). lia.
Qed.

Lemma workers_cost_insert_le s r w (m : gmap nat (job * stage)) :
  workers_cost s (<[r := w]> m) ≤ stage_cost s w.2 + workers_cost s m.
Proof.
  destruct (m !! r) as [w0|] eqn:Hr.
  - pose proof (workers_cost_insert_Some s r w w0 m Hr). lia.
  - by rewrite workers_cost_insert_None.
Qed.

Lemma stage_cost_lt_job s st : stage_cost s st < job_cost s.
Proof. unfold stage_cost, job_cost. destruct st; lia. Qed.

Lemma stage_cost_pos s st : stage_valid s st → 0 < stage_cost s st.
Proof. unfold stage_valid, stage_cost. destruct st; lia. Qed.

Lemma potential_check_drain s : potential (check_drain s) ≤ potential s.
Proof.
  destruct (check_drain_cases s) as [[-> _] | [-> _]]; [done|].
  potential_norm s. lia.
Qed.

Lemma potential_series i s :
  potential (series i s) ≤
    (length (mw_before (s_middlewares s)) - i)
    + length (q_tasks (s_queue s)) * job_cost s + workers_cost s (q_workers (s_queue s)).
Proof.
  destruct (series_shape i s) as [(err & Hb & ->) | [Hb ->]].
  - potential_norm s. done.
  - potential_norm s. lia.
Qed.

(** Every action uses up some of the potential. *)
Lemma potential_step a s s' : step a s = Some s' → potential s' < potential s.
Proof.
  destruct a; cbn [step].
  - intros (i & err & Hser & Hb & [[_ ->] | [_ ->]])%before_done_shape;
      apply lookup_lt_Some in Hb.
    + potential_norm s. rewrite Hser. lia.
    + eapply Nat.le_lt_trans; [apply potential_series|].
      potential_norm s. rewrite Hser. lia.
  - intros (j & ts & st' & _ & _ & Hts & _ & _ & ->)%process_shape.
    potential_norm s. rewrite Hts. cbn.
    pose proof (workers_cost_insert_le s (q_shifted (s_queue s)) (j, st')
                  (q_workers (s_queue s))) as Hle.
    pose proof (stage_cost_lt_job s st').
    cbn in Hle. lia.
  - intros (j & st & j' & err & Hw & Hv & _ &
            [(_ & st' & _ & Hcost & _ & ->) | (err' & _ & ->)])%stage_done_shape.
    + potential_norm s.
      pose proof (workers_cost_insert_Some s r (j', st') (j, st) _ Hw) as Heq.
      cbn in Heq. lia.
    + eapply Nat.le_lt_trans; [apply potential_check_drain|].
      potential_norm s.
      pose proof (workers_cost_delete s r (j, st) _ Hw) as Heq.
      pose proof (stage_cost_pos s st Hv).
      cbn in Heq. lia.
Qed.

(** A run is finite: the number of actions taken is bounded by the
    potential of the state they start from. *)
Lemma exec_length acts s s' :
  exec acts s = Some s' → length acts + potential s' ≤ potential s.
Proof.
  revert s. induction acts as [|a acts IH]; intros s; cbn.
  - intros [= <-]. lia.
  - destruct (step a s) as [s1|] eqn:Ha; [|done]. intros Hexec.
    apply IH in Hexec. apply potential_step in Ha. lia.
Qed.

Lemma stage_done_enabled r s j st :
  q_workers (s_queue s) !! r = Some (j, st) → stage_valid s st →
  is_Some (stage_done r s).
Proof.
  intros Hw Hv. unfold stage_done, task_at. rewrite Hw.
  destruct st as [i| |i]; unfold stage_valid in Hv.
  - apply lookup_lt_is_Some_2 in Hv as [mw ->].
    destruct (apply_before mw j). eauto.
  - destruct (s_engine s j). eauto.
  - apply lookup_lt_is_Some_2 in Hv as [mw ->].
    destruct (apply_after mw j). eauto.
Qed.

(** A run that has not ended can go on, provided the queue held a job and
    its bound admits a worker. *)
Lemma progress s0 jobs0 s :
  same_setup s0 s → jobs_inv s0 jobs0 s → phase s0 s →
  (1 ≤ bound (s_queue s))%Z →
  q_tasks (s_queue s0) ≠ [] →
  fulfilled (s_state s) = false →
  ∃ a s', step a s = Some s'.
Proof.
  intros Hsame Hinv Hph Hk Hjobs Hf.
  destruct Hph as [i Hser Hi _ _ _ _ _ _ _ _ | err _ _ _ _ _ _ _ Hf'
                  | _ _ Hp _ [[_ Hidle]|[Hnone _]] _ _ _ _
                  | pre _ _ _ _ _ _ _ Hf']; try congruence.
  - exists BeforeDone. cbn. unfold before_done, task_at. rewrite Hser.
    destruct Hsame as [_ _ _ _ Hmw _]. rewrite Hmw.
    apply lookup_lt_is_Some_2 in Hi as [err ->]. eauto.
  - destruct (decide (q_workers (s_queue s) = ∅)) as [Hw|Hw].
    + assert (Hfree : slot_free (s_queue s) = true).
      { unfold slot_free. unfold bound in Hk.
        destruct (q_concurrency (s_queue s)); try lia.
        rewrite Hw, map_size_empty. apply Z.ltb_lt. lia. }
      exists Process. cbn. unfold process, shift. rewrite Hp, Hfree. cbn [negb].
      destruct (q_tasks (s_queue s)) eqn:Ht; [|eauto].
      exfalso. apply not_true_iff_false in Hidle. apply Hidle, idle_empty. done.
    + apply map_choose in Hw as (r & [j st] & Hr).
      destruct Hinv as [_ _ _ Ha _]. destruct (Ha r j st Hr) as [Hv _].
      assert (Hv' : stage_valid s st).
      { destruct Hsame as [_ _ _ _ Hmw _]. unfold stage_valid in *. by rewrite Hmw. }
      destruct (stage_done_enabled r s j st Hr Hv') as [s' Hs'].
      by exists (StageDone r), s'.
Qed.

(** Once the scraper is fulfilled nothing can happen any more. *)
Lemma ended_quiescent s0 s : phase s0 s → fulfilled (s_state s) = true → quiescent s.
Proof.
  intros Hph Hf a.
  destruct Hph as [i _ _ _ _ _ _ _ _ Hf' | err Hser _ Hp Hw _ _ _ _ _ _
                  | _ _ _ _ _ _ _ Hf' | pre Hser _ _ _ Ht Hw _ _ _ _];
    try congruence.
  - destruct a; cbn; unfold before_done, process, shift, stage_done.
    + by rewrite Hser.
    + by rewrite Hp.
    + by rewrite Hw, lookup_empty.
  - destruct a; cbn; unfold before_done, process, shift, stage_done.
    + by rewrite Hser.
    + rewrite Ht. by repeat case_match.
    + by rewrite Hw, lookup_empty.
Qed.

(** ** Sequential pipelines *)

#[local] Arguments Nat.ltb : simpl never.

Lemma stage_ltb_trans a b c :
  stage_ltb a b = true → stage_ltb b c = true → stage_ltb a c = true.
Proof.
  destruct a, b, c; cbn; try done; rewrite ?Nat.ltb_lt; lia.
Qed.

Lemma follows_trans prev st st' :
  follows prev st → stage_ltb st st' = true → follows prev st'.
Proof. destruct prev; cbn; [|done]. apply stage_ltb_trans. Qed.

Lemma sequential_after r prev i mws j :
  follows prev (SAfter i) → sequential r prev (after_trace r i mws j).
Proof.
  revert prev i j. induction mws as [|mw mws IH]; intros prev i j Hprev; cbn.
  - constructor.
  - destruct (apply_after mw j) as [j' err]. destruct (truthy err) eqn:Herr.
    + apply seq_fail; [done|done|]. cbn. by rewrite lookup_insert_eq.
    + apply seq_next; [done|done|]. apply IH. cbn. apply Nat.ltb_lt. lia.
Qed.

Lemma sequential_fetch eng afters r prev j :
  follows prev SFetch → sequential r prev (fetch_trace eng afters r j).
Proof.
  intros Hprev. unfold fetch_trace. destruct (eng j) as [j' err].
  destruct (truthy err) eqn:Herr.
  - apply seq_fail; [done|done|]. cbn. by rewrite lookup_insert_eq.
  - apply seq_next; [done|done|]. by apply sequential_after.
Qed.

Lemma sequential_before eng afters r prev i mws j :
  prev = None ∨ (∃ i', prev = Some (SBefore i') ∧ i' < i) →
  sequential r prev (before_trace eng afters r i mws j).
Proof.
  revert prev i j. induction mws as [|mw mws IH]; intros prev i j Hprev; cbn.
  - apply sequential_fetch. by destruct Hprev as [-> | (i' & -> & _)].
  - assert (follows prev (SBefore i)).
    { destruct Hprev as [-> | (i' & -> & Hi)]; cbn; [done|]. by apply Nat.ltb_lt. }
    destruct (apply_before mw j) as [j' err]. destruct (truthy err) eqn:Herr.
    + apply seq_fail; [done|done|]. cbn. by rewrite lookup_insert_eq.
    + apply seq_next; [done|done|]. apply IH. right. exists i. split; [done|lia].
Qed.

(** The pipeline of a job is strictly sequential. *)
Lemma sequential_pipeline s r j : sequential r None (pipeline s r j).
Proof. apply sequential_before. by left. Qed.

(** In a sequential pipeline a truthy callback is the last but one event:
    [job:fail] with that error follows it and ends the pipeline, and
    everything before belongs to earlier stages, whose callbacks were falsy. *)
Lemma sequential_fail r prev tr st err :
  sequential r prev tr →
  CalledBack r st err ∈ tr → truthy err = true →
  follows prev st ∧
  ∃ pre j,
    tr = pre ++ [Invoked r st; CalledBack r st err; Emit_job_fail err r j]
    ∧ j_res j !! "error" = Some err
    ∧ ∀ e, e ∈ pre →
        ∃ st' err', stage_ltb st' st = true ∧
          (e = Invoked r st' ∨ (e = CalledBack r st' err' ∧ truthy err' = false)).
Proof.
  intros Hseq. revert st err.
  induction Hseq as [prev j|prev st0 err0 j Hprev Herr0 Hres
                     |prev st0 err0 tl Hprev Herr0 Htl IH]; intros st err Hin Herr.
  - by apply list_elem_of_singleton in Hin.
  - rewrite !elem_of_cons, elem_of_nil in Hin.
    destruct Hin as [|[[= <- <-]|[|[]]]]; try done.
    split; [done|]. exists [], j. split_and!; [done|done|].
    intros e Hin. by apply elem_of_nil in Hin.
  - rewrite !elem_of_cons in Hin. destruct Hin as [|[[= <- <-]|Hin]]; [done|congruence|].
    destruct (IH st err Hin Herr) as (Hfol & pre & j & -> & Hres & Hpre).
    cbn in Hfol. split; [by eapply follows_trans|].
    exists (Invoked r st0 :: CalledBack r st0 err0 :: pre), j. split_and!; [done|done|].
    intros e. rewrite !elem_of_cons. intros [->|[->|Hin']].
    + exists st0, err0. auto.
    + exists st0, err0. auto.
    + destruct (Hpre e Hin') as (st' & err' & Hlt & He).
      exists st', err'. split; [|done]. done.
Qed.

(** [job:fail] in a sequential pipeline carries a truthy error, stored on
    the job's [res.error], and directly follows the callback that passed
    it. *)
Lemma sequential_job_fail r prev tr err j :
  sequential r prev tr →
  Emit_job_fail err r j ∈ tr →
  truthy err = true ∧ j_res j !! "error" = Some err ∧ ∃ st, CalledBack r st err ∈ tr.
Proof.
  intros Hseq. induction Hseq as [prev j0|prev st0 err0 j0 Hprev Herr0 Hres
                                  |prev st0 err0 tl Hprev Herr0 Htl IH]; intros Hin.
  - by apply list_elem_of_singleton in Hin.
  - rewrite !elem_of_cons, elem_of_nil in Hin.
    destruct Hin as [|[|[[= <- <-]|[]]]]; try done.
    split_and!; [done|done|]. exists st0. rewrite !elem_of_cons. auto.
  - rewrite !elem_of_cons in Hin. destruct Hin as [|[|Hin]]; [done|done|].
    destruct (IH Hin) as (? & ? & st & ?). split_and!; [done|done|].
    exists st. rewrite !elem_of_cons. auto.
Qed.

(** [job:success] in a sequential pipeline: no callback was truthy. *)
Lemma sequential_job_success r prev tr j :
  sequential r prev tr →
  Emit_job_success r j ∈ tr →
  ∀ st err, CalledBack r st err ∈ tr → truthy err = false.
Proof.
  intros Hseq. induction Hseq as [prev j0|prev st0 err0 j0 Hprev Herr0 Hres
                                  |prev st0 err0 tl Hprev Herr0 Htl IH]; intros Hin st err.
  - intros Hcb. by apply list_elem_of_singleton in Hcb.
  - rewrite !elem_of_cons, elem_of_nil in Hin. by destruct Hin as [|[|[|[]]]].
  - rewrite !elem_of_cons in Hin. destruct Hin as [|[|Hin]]; [done|done|].
    rewrite !elem_of_cons. intros [|[[= _ ->]|Hcb]]; [done|done|]. by eapply IH.
Qed.

(** A sequential pipeline ends with exactly one job event. *)
Lemma sequential_last r prev tr :
  sequential r prev tr →
  ∃ pre e, tr = pre ++ [e]
    ∧ ((∃ j, e = Emit_job_success r j) ∨ (∃ err j, e = Emit_job_fail err r j))
    ∧ ∀ e', e' ∈ pre → ∃ st, e' = Invoked r st ∨ ∃ err, e' = CalledBack r st err.
Proof.
  induction 1 as [prev j|prev st err j Hprev Herr Hres|prev st err tl Hprev Herr Htl IH].
  - exists [], (Emit_job_success r j). split_and!; [done|eauto|].
    intros e' Hin. by apply elem_of_nil in Hin.
  - exists [Invoked r st; CalledBack r st err], (Emit_job_fail err r j).
    split_and!; [done|eauto|].
    intros e'. rewrite !elem_of_cons, elem_of_nil. intros [->|[->|[]]]; eauto.
  - destruct IH as (pre & e & -> & He & Hpre).
    exists (Invoked r st :: CalledBack r st err :: pre), e. split_and!; [done|done|].
    intros e'. rewrite !elem_of_cons. intros [->|[->|Hin]]; eauto.
Qed.

(** ** Counting the completion and drain callbacks *)

Lemma completions_app tr1 tr2 :
  completions (tr1 ++ tr2) = completions tr1 ++ completions tr2.
Proof. apply List.filter_app. Qed.

Lemma drains_app tr1 tr2 : drains (tr1 ++ tr2) = drains tr1 + drains tr2.
Proof. unfold drains. by rewrite List.filter_app, length_app. Qed.

Lemma completions_sproj tr : completions (sproj tr) = completions tr.
Proof.
  unfold completions, sproj. induction tr as [|e tr IH]; [done|].
  cbn. destruct e; cbn; by rewrite ?IH.
Qed.

Lemma drains_sproj tr : drains (sproj tr) = drains tr.
Proof.
  unfold drains, sproj. induction tr as [|e tr IH]; [done|].
  cbn. destruct e; cbn; by rewrite ?IH.
Qed.

Lemma completions_start k l : completions (start_trace k l) = [].
Proof.
  revert k. induction l as [|e l IH]; intros k; cbn; [done|].
  destruct (truthy e); [done|apply IH].
Qed.

Lemma drains_start k l : drains (start_trace k l) = 0.
Proof.
  revert k. induction l as [|e l IH]; intros k; cbn; [done|].
  destruct (truthy e); [done|apply IH].
Qed.

Lemma drains_elem tr : Drain_called ∈ tr → 0 < drains tr.
Proof.
  intros (tr1 & tr2 & ->)%list_elem_of_split.
  rewrite drains_app. unfold drains at 2. cbn. lia.
Qed.

(** How often the callback of [run] and the drain callback were invoked, by
    the phase of the run. *)
Lemma phase_counts s0 s :
  phase s0 s →
  match start_error (mw_before (s_middlewares s0)), fulfilled (s_state s) with
  | Some err, true => completions (s_trace s) = [OnComplete err] ∧ drains (s_trace s) = 0
  | None, true => completions (s_trace s) = [OnComplete VNull] ∧ drains (s_trace s) = 1
  | _, false => completions (s_trace s) = [] ∧ drains (s_trace s) = 0
  end.
Proof.
  intros [i _ _ _ _ _ _ _ _ Hf Htr | err _ Herr _ _ _ _ _ Hf _ _ Htr
         | _ Herr _ _ _ _ _ Hf Htr | pre _ Herr _ _ _ _ _ Hf _ _ Htr Hpre].
  - rewrite Hf, Htr.
    change (Emit_scraper_start :: ?l) with ([Emit_scraper_start] ++ l).
    rewrite !completions_app, !drains_app, completions_start, drains_start.
    by destruct (start_error _).
  - rewrite Hf, Herr, Htr.
    change (Emit_scraper_start :: ?l) with ([Emit_scraper_start] ++ l).
    by rewrite !completions_app, !drains_app, completions_start, drains_start.
  - rewrite Hf, Herr, <- completions_sproj, <- drains_sproj, Htr.
    change (Emit_scraper_start :: ?l) with ([Emit_scraper_start] ++ l).
    by rewrite !completions_app, !drains_app, completions_start, drains_start.
  - rewrite Hf, Herr, Htr, completions_app, drains_app.
    rewrite <- (completions_sproj pre), <- (drains_sproj pre), Hpre.
    change (Emit_scraper_start :: ?l) with ([Emit_scraper_start] ++ l).
    by rewrite !completions_app, !drains_app, completions_start, drains_start.
Qed.

Lemma start_error_first (bs : list start_mw) i err :
  bs !! i = Some err → truthy err = true →
  (∀ i' e, i' < i → bs !! i' = Some e → truthy e = false) →
  start_error bs = Some err.
Proof.
  revert i. induction bs as [|e bs IH]; intros i Hi Herr Hfirst; [done|].
  destruct i as [|i]; cbn in *.
  - injection Hi as ->. by rewrite Herr.
  - rewrite (Hfirst 0 e) by (done || lia).
    apply (IH i); [done..|]. intros i' e' Hi' He'. apply (Hfirst (S i') e'); [lia|done].
Qed.

Lemma start_error_truthy (bs : list start_mw) err :
  start_error bs = Some err → truthy err = true ∧ err ∈ bs.
Proof.
  induction bs as [|e bs IH]; cbn; [done|].
  destruct (truthy e) eqn:He.
  - intros [= <-]. split; [done|]. apply elem_of_cons. by left.
  - intros [? ?]%IH. split; [done|]. apply elem_of_cons. by right.
Qed.

Lemma start_error_None (bs : list start_mw) :
  start_error bs = None ↔ ∀ e, e ∈ bs → truthy e = false.
Proof.
  induction bs as [|e bs IH]; cbn.
  - split; [|done]. intros _ e He. by apply elem_of_nil in He.
  - destruct (truthy e) eqn:He.
    + split; [done|]. intros H. rewrite (H e) in He; [done|]. apply elem_of_cons. by left.
    + rewrite IH. split.
      * intros H e'. rewrite elem_of_cons. intros [->|?]; auto.
      * intros H e' He'. apply H, elem_of_cons. by right.
Qed.

Lemma after_trace_no_before r n mws j i err :
  CalledBack r (SBefore i) err ∉ after_trace r n mws j.
Proof.
  revert n j. induction mws as [|mw mws IH]; intros n j; cbn.
  - by intros ?%list_elem_of_singleton.
  - destruct (apply_after mw j) as [j' e]. rewrite !elem_of_cons.
    intros [|[|Hin]]; [done|done|].
    destruct (truthy e); [by apply list_elem_of_singleton in Hin|].
    by eapply IH.
Qed.

Lemma fetch_trace_no_before eng afters r j i err :
  CalledBack r (SBefore i) err ∉ fetch_trace eng afters r j.
Proof.
  unfold fetch_trace. destruct (eng j) as [j' e]. rewrite !elem_of_cons.
  intros [|[|Hin]]; [done|done|].
  destruct (truthy e); [by apply list_elem_of_singleton in Hin|].
  by eapply after_trace_no_before.
Qed.

(** The stages of a pipeline are called one after the other from the first
    on: a pipeline that reaches the [i]-th middleware of [beforeScraping]
    went through all the earlier ones. *)
Lemma before_trace_visits eng afters r k mws j i err :
  CalledBack r (SBefore i) err ∈ before_trace eng afters r k mws j →
  k ≤ i ∧ ∀ i', k ≤ i' ≤ i → Invoked r (SBefore i') ∈ before_trace eng afters r k mws j.
Proof.
  revert k j. induction mws as [|mw mws IH]; intros k j; cbn.
  - by intros ?%fetch_trace_no_before.
  - destruct (apply_before mw j) as [j' e]. rewrite !elem_of_cons.
    intros [|[[= <- <-]|Hin]]; [done| |].
    + split; [done|]. intros i' Hi'. replace i' with i by lia. by left.
    + destruct (truthy e); [by apply list_elem_of_singleton in Hin|].
      destruct (IH _ _ Hin) as [Hk Hall]. split; [lia|].
      intros i' Hi'.
      destruct (decide (i' = k)) as [->|]; [by left|].
      right. right. apply Hall. lia.
Qed.

(** ** The state of one job *)

(** A job is pending, active or out of the pipeline. *)
Lemma job_status s0 jobs0 s r :
  jobs_inv s0 jobs0 s →
  proj r (s_trace s) = []
  ∨ (∃ j st j0, q_workers (s_queue s) !! r = Some (j, st)
       ∧ jobs0 !! r = Some j0
       ∧ proj r (s_trace s) ++ awaited s0 r j st = pipeline s0 r j0
       ∧ ∀ st' err, CalledBack r st' err ∈ proj r (s_trace s) → truthy err = false)
  ∨ (∃ j0, jobs0 !! r = Some j0
       ∧ q_workers (s_queue s) !! r = None
       ∧ proj r (s_trace s) = pipeline s0 r j0).
Proof.
  intros [_ _ Hp Ha Hd].
  destruct (decide (r < q_shifted (s_queue s))) as [Hlt|Hge].
  - destruct (q_workers (s_queue s) !! r) as [[j st]|] eqn:Hw.
    + destruct (Ha r j st Hw) as (_ & j0 & ? & ? & ?). right. left. eauto 10.
    + destruct (Hd r Hlt Hw) as (j0 & ? & ?). right. right. eauto.
  - left. apply Hp. lia.
Qed.

Lemma about_CalledBack r st err : about r (CalledBack r st err) = true.
Proof. cbn. apply Nat.eqb_refl. Qed.

Lemma about_Invoked r st : about r (Invoked r st) = true.
Proof. cbn. apply Nat.eqb_refl. Qed.

(** A truthy callback in the trace: the job is out of the pipeline, and its
    events are its whole pipeline. *)
Lemma truthy_callback_done s0 jobs0 s r st err :
  jobs_inv s0 jobs0 s →
  CalledBack r st err ∈ s_trace s → truthy err = true →
  ∃ j0, jobs0 !! r = Some j0
    ∧ q_workers (s_queue s) !! r = None
    ∧ proj r (s_trace s) = pipeline s0 r j0.
Proof.
  intros Hinv Hin Herr.
  assert (Hin' : CalledBack r st err ∈ proj r (s_trace s)).
  { apply elem_of_proj. split; [apply about_CalledBack|done]. }
  destruct (job_status s0 jobs0 s r Hinv)
    as [Hnil | [(j & st' & j0 & _ & _ & _ & Hcalm) | Hdone]].
  - rewrite Hnil in Hin'. by apply elem_of_nil in Hin'.
  - rewrite (Hcalm _ _ Hin') in Herr. discriminate Herr.
  - done.
Qed.

Lemma stage_ltb_before st i :
  stage_ltb st (SBefore i) = true → ∃ i', st = SBefore i' ∧ i' < i.
Proof.
  destruct st as [i'| |i']; cbn; try done. intros ?%Nat.ltb_lt. eauto.
Qed.

Lemma prefix_of_job s0 jobs0 s r j0 :
  jobs_inv s0 jobs0 s → jobs0 !! r = Some j0 →
  proj r (s_trace s) `prefix_of` pipeline s0 r j0.
Proof.
  intros Hinv Hj0.
  destruct (job_status s0 jobs0 s r Hinv)
    as [-> | [(j & st' & j0' & _ & Hj0' & Heq & _) | (j0' & Hj0' & _ & Heq)]].
  - apply prefix_nil.
  - rewrite Hj0 in Hj0'. injection Hj0' as <-. rewrite <- Heq. by apply prefix_app_r.
  - rewrite Hj0 in Hj0'. injection Hj0' as <-. by rewrite Heq.
Qed.

(** ** The calls of the engine in flight *)

Lemma fetch_calls_app tr1 tr2 : fetch_calls (tr1 ++ tr2) = fetch_calls tr1 + fetch_calls tr2.
Proof. unfold fetch_calls. by rewrite List.filter_app, length_app. Qed.

Lemma fetch_callbacks_app tr1 tr2 :
  fetch_callbacks (tr1 ++ tr2) = fetch_callbacks tr1 + fetch_callbacks tr2.
Proof. unfold fetch_callbacks. by rewrite List.filter_app, length_app. Qed.

Lemma fetch_calls_of_scraper evs : forallb of_scraper evs = true → fetch_calls evs = 0.
Proof.
  unfold fetch_calls. induction evs as [|e evs IH]; [done|]. cbn.
  intros [He Hevs]%andb_prop. destruct e; cbn in *; auto. done.
Qed.

Lemma fetch_callbacks_of_scraper evs :
  forallb of_scraper evs = true → fetch_callbacks evs = 0.
Proof.
  unfold fetch_callbacks. induction evs as [|e evs IH]; [done|]. cbn.
  intros [He Hevs]%andb_prop. destruct e; cbn in *; auto. done.
Qed.

Lemma fetch_calls_Invoked r st : fetch_calls [Invoked r st] = fetch_weight st.
Proof. by destruct st. Qed.

Lemma fetch_callbacks_CalledBack r st err :
  fetch_callbacks [CalledBack r st err] = fetch_weight st.
Proof. by destruct st. Qed.

Lemma fetch_callbacks_Invoked r st : fetch_callbacks [Invoked r st] = 0.
Proof. done. Qed.

Lemma fetch_calls_CalledBack r st err : fetch_calls [CalledBack r st err] = 0.
Proof. done. Qed.

Lemma fetch_calls_job_event r j err : fetch_calls [job_event r j err] = 0.
Proof. unfold job_event. by destruct (truthy err). Qed.

Lemma fetch_callbacks_job_event r j err : fetch_callbacks [job_event r j err] = 0.
Proof. unfold job_event. by destruct (truthy err). Qed.

Lemma fetching_free q r j st :
  q_workers q !! r = Some (j, st) →
  size (fetching (free r q)) + fetch_weight st = size (fetching q).
Proof.
  intros Hr. unfold fetching, fetch_weight. cbn.
  rewrite map_filter_delete, map_size_delete, map_lookup_filter, Hr. cbn.
  destruct (is_fetch st) eqn:Hst.
  - rewrite option_guard_True by done. cbn.
    assert (size (filter (λ w, is_fetch w.2.2 = true) (q_workers q)) ≠ 0); [|lia].
    rewrite map_size_empty_iff. intros Hempty.
    pose proof (map_lookup_filter (λ w : nat * (job * stage), is_fetch w.2.2 = true)
                  (q_workers q) r) as Hl.
    rewrite Hempty, lookup_empty, Hr in Hl. cbn in Hl.
    by rewrite option_guard_True in Hl by done.
  - rewrite option_guard_False by (cbn; congruence). cbn. lia.
Qed.

Lemma fetching_await_fresh q r j st :
  q_workers q !! r = None →
  size (fetching (await r j st q)) = size (fetching q) + fetch_weight st.
Proof.
  intros Hr. unfold fetching, fetch_weight. cbn.
  rewrite map_filter_insert. cbn. destruct (is_fetch st) eqn:Hst.
  - rewrite decide_True by done.
    rewrite map_size_insert_None; [lia|]. by rewrite map_lookup_filter, Hr.
  - rewrite decide_False by congruence. rewrite delete_id by done. lia.
Qed.

Lemma fetching_await q r j st j0 st0 :
  q_workers q !! r = Some (j0, st0) →
  size (fetching (await r j st q)) + fetch_weight st0 = size (fetching q) + fetch_weight st.
Proof.
  intros Hr.
  assert (await r j st q = await r j st (free r q)) as ->.
  { unfold await, free. cbn. by rewrite insert_delete_eq. }
  rewrite fetching_await_fresh by (cbn; apply lookup_delete_eq).
  pose proof (fetching_free q r j0 st0 Hr). lia.
Qed.

Lemma in_flight_scraper_only s s' : scraper_only s s' → in_flight_inv s → in_flight_inv s'.
Proof.
  intros [_ Hw _ (evs & Htr & Hevs)]. unfold in_flight_inv, fetching.
  rewrite Hw, Htr, fetch_calls_app, fetch_callbacks_app.
  rewrite (fetch_calls_of_scraper _ Hevs), (fetch_callbacks_of_scraper _ Hevs). lia.
Qed.

Lemma in_flight_step s0 jobs0 a s s' :
  jobs_inv s0 jobs0 s → step a s = Some s' → in_flight_inv s → in_flight_inv s'.
Proof.
  intros Hinv. destruct a; cbn [step].
  - intros Hstep. by apply in_flight_scraper_only, before_done_scraper_only.
  - intros (j & ts & st' & _ & _ & _ & _ & _ & ->)%process_shape.
    destruct Hinv as [_ _ Hp _ _]. destruct (Hp (q_shifted (s_queue s))) as [Hfresh _]; [done|].
    unfold in_flight_inv. cbn [invoke emit s_trace s_queue with_queue].
    rewrite fetch_calls_app, fetch_callbacks_app, fetch_calls_Invoked, fetch_callbacks_Invoked.
    set (q' := Queue _ _ _ _ _ _).
    change (await _ j st' q') with (await (q_shifted (s_queue s)) j st' q').
    rewrite (fetching_await_fresh q') by done.
    change (fetching q') with (fetching (s_queue s)). lia.
  - intros (j & st & j' & err & Hw & _ & _ &
            [(_ & st' & _ & _ & _ & ->) | (err' & _ & ->)])%stage_done_shape.
    + unfold in_flight_inv. cbn [invoke emit s_trace s_queue with_queue].
      rewrite !fetch_calls_app, !fetch_callbacks_app, fetch_calls_Invoked,
        fetch_callbacks_Invoked, fetch_calls_CalledBack, fetch_callbacks_CalledBack.
      pose proof (fetching_await (s_queue s) r j' st' j st Hw). lia.
    + intros Hfl. eapply in_flight_scraper_only; [apply check_drain_scraper_only|].
      revert Hfl. unfold in_flight_inv. cbn [emit s_trace s_queue with_queue].
      rewrite !fetch_calls_app, !fetch_callbacks_app, fetch_calls_job_event,
        fetch_callbacks_job_event, fetch_calls_CalledBack, fetch_callbacks_CalledBack.
      pose proof (fetching_free (s_queue s) r j st Hw). lia.
Qed.

Lemma in_flight_exec s0 acts s :
  ready s0 → exec acts (run s0) = Some s → in_flight_inv s.
Proof.
  intros Hready Hexec.
  assert (Hgen : ∀ acts s1 s2,
            jobs_inv s0 (q_tasks (s_queue s0)) s1 → same_setup s0 s1 → in_flight_inv s1 →
            exec acts s1 = Some s2 → in_flight_inv s2).
  { clear. induction acts as [|a acts IH]; intros s1 s2 Hinv Hsame Hfl; cbn.
    - by intros [= <-].
    - destruct (step a s1) as [s1'|] eqn:Ha; [|done].
      apply IH.
      + by eapply jobs_inv_step.
      + eapply same_setup_trans; [done|by eapply step_same_setup].
      + by eapply in_flight_step. }
  eapply Hgen; [| | |exact Hexec].
  - eapply jobs_inv_scraper_only; [apply run_scraper_only|by apply jobs_inv_ready].
  - apply run_same_setup.
  - eapply in_flight_scraper_only; [apply run_scraper_only|].
    destruct Hready as [_ Hw _ _ _ _ Ht]. unfold in_flight_inv, fetching.
    by rewrite Hw, Ht.
Qed.

(** ** The run as a whole *)

Lemma starting_enabled s0 s i :
  same_setup s0 s → s_series s = Some i → i < length (mw_before (s_middlewares s0)) →
  ∃ s', step BeforeDone s = Some s'.
Proof.
  intros [_ _ _ _ Hmw _] Hser Hi. cbn. unfold before_done, task_at.
  rewrite Hser, Hmw. apply lookup_lt_is_Some_2 in Hi as [e ->]. eauto.
Qed.

Lemma live_step s0 acts s :
  ready s0 → live s0 → exec acts (run s0) = Some s →
  fulfilled (s_state s) = false → ∃ a s', step a s = Some s'.
Proof.
  intros Hready Hlive Hexec Hf.
  destruct (jobs_inv_exec s0 acts s Hready Hexec) as [Hinv Hsame].
  pose proof (phase_exec s0 acts s Hready Hexec) as Hph.
  destruct Hlive as [[Hk Hjobs] | [err Herr]].
  - eapply progress; eauto. unfold bound in *. by rewrite (same_concurrency _ _ Hsame).
  - destruct Hph as [i Hser Hi _ _ _ _ _ _ _ _ | err' _ _ _ _ _ _ _ Hf' _ _ _
                    | _ Hse' _ _ _ _ _ _ _ | pre _ Hse' _ _ _ _ _ _ _ _ _ _];
      try congruence.
    exists BeforeDone. by eapply starting_enabled.
Qed.

(** Every execution extends to one after which nothing more can happen. *)
Lemma exec_completes s0 acts s :
  ready s0 → live s0 → exec acts (run s0) = Some s →
  ∃ acts' s', exec (acts ++ acts') (run s0) = Some s'
    ∧ fulfilled (s_state s') = true
    ∧ quiescent s'.
Proof.
  intros Hready Hlive.
  remember (potential s) as n eqn:Hn. revert acts s Hn.
  induction (lt_wf n) as [n _ IH]. intros acts s -> Hexec.
  destruct (fulfilled (s_state s)) eqn:Hf.
  - exists [], s. rewrite app_nil_r. split_and!; [done..|].
    eapply ended_quiescent; [|done]. by eapply phase_exec.
  - destruct (live_step s0 acts s Hready Hlive Hexec Hf) as (a & s1 & Ha).
    assert (Hexec1 : exec (acts ++ [a]) (run s0) = Some s1).
    { rewrite exec_app, Hexec. cbn. by rewrite Ha. }
    destruct (IH (potential s1) (potential_step _ _ _ Ha) (acts ++ [a]) s1 eq_refl Hexec1)
      as (acts' & s' & Hexec' & Hf' & Hq).
    exists (a :: acts'), s'. split_and!; [|done..].
    by rewrite <- app_assoc in Hexec'.
Qed.

Lemma slot_free_false q : (bound q ≤ 0)%Z → slot_free q = false.
Proof.
  intros Hk. destruct (slot_free q) eqn:Hf; [|done].
  apply slot_free_bound in Hf. lia.
Qed.

(** A queue whose bound admits no worker pulls no job. *)
Lemma no_slot_exec s0 acts s :
  ready s0 → (bound (s_queue s0) ≤ 0)%Z →
  exec acts (run s0) = Some s →
  q_shifted (s_queue s) = 0 ∧ q_workers (s_queue s) = ∅.
Proof.
  intros Hready Hk Hexec.
  eapply (exec_invariant (λ s, q_shifted (s_queue s) = 0 ∧ q_workers (s_queue s) = ∅) s0);
    [| | |exact Hexec].
  - intros a s1 s2 Hsame [Hsh Hw] Hstep. destruct a; cbn [step] in Hstep.
    + apply before_done_scraper_only in Hstep as [-> -> _ _]. done.
    + apply process_shape in Hstep as (j & ts & st' & _ & Hfree & _).
      apply slot_free_bound in Hfree. unfold bound in *.
      rewrite (same_concurrency _ _ Hsame) in Hfree. lia.
    + apply stage_done_shape in Hstep as (j & st & j' & err & Hr & _).
      by rewrite Hw, lookup_empty in Hr.
  - apply run_same_setup.
  - destruct (run_scraper_only s0) as [-> -> _ _].
    split; [apply Hready|apply Hready].
Qed.

(** Neither does a queue that holds no job. *)
Lemma no_job_exec s0 acts s :
  ready s0 → q_tasks (s_queue s0) = [] →
  exec acts (run s0) = Some s →
  q_shifted (s_queue s) = 0 ∧ q_workers (s_queue s) = ∅.
Proof.
  intros Hready Hnone Hexec.
  destruct (jobs_inv_exec s0 acts s Hready Hexec) as [[Hsh _ Hp _ _] _].
  rewrite Hnone in Hsh. cbn in Hsh.
  split; [lia|]. apply map_empty. intros r. apply Hp. lia.
Qed.

(** A run in which no job can start: once the start middlewares are
    through nothing more happens, and the run never completes. *)
Lemma stuck_run s0 acts s :
  ready s0 →
  start_error (mw_before (s_middlewares s0)) = None →
  exec acts (run s0) = Some s →
  q_shifted (s_queue s) = 0 → q_workers (s_queue s) = ∅ →
  q_tasks (s_queue s0) = [] ∨ (bound (s_queue s0) ≤ 0)%Z →
  fulfilled (s_state s) = false
  ∧ completions (s_trace s) = []
  ∧ drains (s_trace s) = 0
  ∧ (s_series s = None → quiescent s).
Proof.
  intros Hready Hse Hexec Hsh Hw Hwhy.
  destruct (jobs_inv_exec s0 acts s Hready Hexec) as [Hinv Hsame].
  pose proof (phase_exec s0 acts s Hready Hexec) as Hph.
  assert (Hf : fulfilled (s_state s) = false).
  { destruct Hph as [i _ _ _ _ _ _ _ _ Hf _ | err _ Hse' _ _ _ _ _ _ _ _ _
                    | _ _ _ _ _ _ _ Hf _ | pre _ _ _ _ _ _ Hsh' _ _ _ _ _ Hjobs];
      [done|congruence|done|].
    rewrite Hsh in Hsh'. by destruct (q_tasks (s_queue s0)). }
  pose proof (phase_counts s0 s Hph) as Hcount. rewrite Hse, Hf in Hcount.
  destruct Hcount as [Hc Hd].
  split_and!; [done..|].
  intros Hser a. destruct a; cbn [step].
  - unfold before_done. by rewrite Hser.
  - unfold process, shift. destruct (q_paused (s_queue s)); [done|].
    destruct Hwhy as [Hnone|Hk].
    + destruct Hinv as [_ [Ht|Ht] _ _ _]; rewrite Ht, ?Hnone, ?drop_nil;
        by destruct (negb (slot_free (s_queue s))).
    + rewrite slot_free_false; [done|].
      unfold bound in *. by rewrite (same_concurrency _ _ Hsame).
  - unfold stage_done. by rewrite Hw, lookup_empty.
Qed.

(** C1: if a start ([before]) middleware invokes its callback with an error
    ([err] is the first truthy value a start middleware passes, at position
    [i]), then in every state the run reaches the queue is still paused, no
    job was pulled or is active and no stage of any job was ever called
    (zero jobs started, the queue never resumed); every execution is finite
    and extends to one after which nothing more can happen; and when nothing
    more can
    happen the events are exactly [scraper:start], the calls and callbacks
    of the start middlewares up to the failing one, the completion callback
    of [run] called with [err], [scraper:fail] with [err], [scraper:end]
    with status "fail" and [scraper:teardown], the queue is killed (no
    pending job, no drain callback) and no listener is left. *)
Theorem before_failure_aborts_run (s0 : scraper) (i : nat) (err : value) :
  ready s0 →
  mw_before (s_middlewares s0) !! i = Some err →
  truthy err = true →
  (∀ i' e, i' < i → mw_before (s_middlewares s0) !! i' = Some e → truthy e = false) →
  ∀ acts s, exec acts (run s0) = Some s →
    (q_paused (s_queue s) = true
     ∧ q_shifted (s_queue s) = 0
     ∧ q_workers (s_queue s) = ∅
     ∧ ∀ r, proj r (s_trace s) = [])
    ∧ length acts + potential s ≤ potential (run s0)
    ∧ (fulfilled (s_state s) = false → ∃ s', step BeforeDone s = Some s')
    ∧ (∃ acts' s', exec (acts ++ acts') (run s0) = Some s' ∧ quiescent s')
    ∧ (quiescent s →
         s_trace s =
           Emit_scraper_start :: start_trace 0 (mw_before (s_middlewares s0)) ++
           [OnComplete err; Emit_scraper_fail err; Emit_scraper_end "fail";
            Emit_scraper_teardown]
         ∧ q_tasks (s_queue s) = []
         ∧ q_drain (s_queue s) = None
         ∧ s_listeners s = []
         ∧ fulfilled (s_state s) = true
         ∧ running (s_state s) = false).
Proof.
  intros Hready Hi Herr Hfirst acts s Hexec.
  pose proof (start_error_first _ _ _ Hi Herr Hfirst) as Hse.
  destruct (jobs_inv_exec s0 acts s Hready Hexec) as [Hinv Hsame].
  pose proof (phase_exec s0 acts s Hready Hexec) as Hph.
  pose proof (exec_length _ _ _ Hexec) as Hlen.
  assert (Hnone : q_shifted (s_queue s) = 0 → ∀ r, proj r (s_trace s) = []).
  { intros Hsh r. destruct Hinv as [_ _ Hp _ _]. apply Hp. lia. }
  assert (Hend : ∃ acts' s', exec (acts ++ acts') (run s0) = Some s' ∧ quiescent s').
  { destruct (exec_completes s0 acts s Hready) as (acts' & s' & ? & _ & ?); [|done|eauto].
    right. by rewrite Hse. }
  destruct Hph as [i' Hser Hi' _ Hp Hw Hsh Hd Hts Hf Htr
                  | err' Hser Hse' Hp Hw Hsh Hd Hts Hf Hrun Hl Htr
                  | _ Hse' _ _ _ _ _ _ _ | pre _ Hse' _ _ _ _ _ _ _ _ _ _];
    try congruence.
  - split_and!; auto.
    + intros _. by eapply starting_enabled.
    + intros Hq. destruct (starting_enabled s0 s i' Hsame Hser Hi') as [s' Hs'].
      by rewrite (Hq BeforeDone) in Hs'.
  - assert (err' = err) as -> by congruence.
    split_and!; auto; try congruence.
    intros _. by split_and!.
Qed.

(** C4, amended: in every run of a ready scraper the completion callback
    of [run] is called at most once and the drain callback of the queue at
    most once, and every execution is finite.  When the start series
    fails, the drain callback is never installed nor called, a step is
    possible as long as the scraper is not fulfilled, every execution
    extends to one after which nothing more can happen, and then the
    completion callback was called exactly once, with the error of the
    series.  When the start series succeeds, at least one job was pushed
    and the queue admits at least one worker, every execution extends
    likewise, and then the completion callback was called exactly once,
    with [null], and the drain callback exactly once.  When the start
    series succeeds and no job was pushed, neither callback is ever called:
    the scraper is never fulfilled, and once the start middlewares are
    through nothing more can happen. *)
Theorem run_completes_once (s0 : scraper) :
  ready s0 →
  ∀ acts s, exec acts (run s0) = Some s →
    length (completions (s_trace s)) ≤ 1
    ∧ drains (s_trace s) ≤ 1
    ∧ length acts + potential s ≤ potential (run s0)
    ∧ (∀ err, start_error (mw_before (s_middlewares s0)) = Some err →
         truthy err = true
         ∧ q_drain (s_queue s) = None
         ∧ drains (s_trace s) = 0
         ∧ (fulfilled (s_state s) = false → ∃ a s', step a s = Some s')
         ∧ (∃ acts' s', exec (acts ++ acts') (run s0) = Some s' ∧ quiescent s')
         ∧ (quiescent s → completions (s_trace s) = [OnComplete err]))
    ∧ (start_error (mw_before (s_middlewares s0)) = None →
       q_tasks (s_queue s0) ≠ [] →
       (1 ≤ bound (s_queue s0))%Z →
         (fulfilled (s_state s) = false → ∃ a s', step a s = Some s')
         ∧ (∃ acts' s', exec (acts ++ acts') (run s0) = Some s' ∧ quiescent s')
         ∧ (quiescent s →
              completions (s_trace s) = [OnComplete VNull] ∧ drains (s_trace s) = 1))
    ∧ (start_error (mw_before (s_middlewares s0)) = None →
       q_tasks (s_queue s0) = [] →
         fulfilled (s_state s) = false
         ∧ completions (s_trace s) = []
         ∧ drains (s_trace s) = 0
         ∧ (s_series s = None → quiescent s)).
Proof.
  intros Hready acts s Hexec.
  destruct (jobs_inv_exec s0 acts s Hready Hexec) as [Hinv Hsame].
  pose proof (phase_exec s0 acts s Hready Hexec) as Hph.
  pose proof (exec_length _ _ _ Hexec) as Hlen.
  pose proof (phase_counts s0 s Hph) as Hcount.
  split_and!.
  - destruct (start_error _), (fulfilled _); destruct Hcount as [-> _]; cbn; lia.
  - destruct (start_error _), (fulfilled _); destruct Hcount as [_ ->]; lia.
  - done.
  - intros err Herr. rewrite Herr in Hcount.
    assert (Hlive : live s0) by (right; by rewrite Herr).
    split_and!.
    + by apply start_error_truthy in Herr as [? _].
    + destruct Hph as [i _ _ _ _ _ _ Hd _ _ _ | err' _ _ _ _ _ Hd _ _ _ _ _
                      | _ Hse' _ _ _ _ _ _ _ | pre _ Hse' _ _ _ _ _ _ _ _ _ _];
        congruence.
    + by destruct (fulfilled _); destruct Hcount.
    + intros Hf. by eapply live_step.
    + destruct (exec_completes s0 acts s Hready Hlive Hexec) as (acts' & s' & ? & _ & ?).
      eauto.
    + intros Hq. destruct (fulfilled (s_state s)) eqn:Hf; [by destruct Hcount|].
      destruct (live_step s0 acts s Hready Hlive Hexec Hf) as (a & s' & Hs').
      by rewrite (Hq a) in Hs'.
  - intros Herr Hjobs Hk. rewrite Herr in Hcount.
    assert (Hlive : live s0) by by left.
    split_and!.
    + intros Hf. by eapply live_step.
    + destruct (exec_completes s0 acts s Hready Hlive Hexec) as (acts' & s' & ? & _ & ?).
      eauto.
    + intros Hq. destruct (fulfilled (s_state s)) eqn:Hf; [done|].
      destruct (live_step s0 acts s Hready Hlive Hexec Hf) as (a & s' & Hs').
      by rewrite (Hq a) in Hs'.
  - intros Herr Hnone.
    destruct (no_job_exec s0 acts s Hready Hnone Hexec) as [Hsh Hw].
    apply (stuck_run s0 acts s); auto.
Qed.

(** C2: in every run whose start middlewares all succeed: whenever a stage
    of a job calls back with an error, [job:fail] is emitted with that error
    and the job, and the job carries the error on [res.error]; the events of
    every job are, whatever the other jobs do, a prefix of the events of its
    own pipeline run alone; once the queue calls [drain], the trace ends
    with the completion callback of [run] called with [null],
    [scraper:success], [scraper:end] with status "success" and
    [scraper:teardown], that callback was called with no other value, and
    every pushed job went through its whole pipeline, failed or not; the
    queue does drain when it holds a job and admits at least one worker, and
    it never calls [drain] when no job was pushed. *)
Theorem job_errors_are_isolated (s0 : scraper) :
  ready s0 →
  (∀ e, e ∈ mw_before (s_middlewares s0) → truthy e = false) →
  ∀ acts s, exec acts (run s0) = Some s →
    (∀ r st err, CalledBack r st err ∈ s_trace s → truthy err = true →
       ∃ j, Emit_job_fail err r j ∈ s_trace s ∧ j_res j !! "error" = Some err)
    ∧ (∀ r j0, q_tasks (s_queue s0) !! r = Some j0 →
         proj r (s_trace s) `prefix_of` pipeline s0 r j0)
    ∧ (Drain_called ∈ s_trace s →
         (∃ pre, s_trace s = pre ++ [Drain_called; OnComplete VNull; Emit_scraper_success;
                                     Emit_scraper_end "success"; Emit_scraper_teardown])
         ∧ completions (s_trace s) = [OnComplete VNull]
         ∧ ∀ r j0, q_tasks (s_queue s0) !! r = Some j0 →
             proj r (s_trace s) = pipeline s0 r j0)
    ∧ ((1 ≤ bound (s_queue s0))%Z → q_tasks (s_queue s0) ≠ [] →
         (quiescent s → Drain_called ∈ s_trace s)
         ∧ ∃ acts' s', exec (acts ++ acts') (run s0) = Some s' ∧ Drain_called ∈ s_trace s')
    ∧ (q_tasks (s_queue s0) = [] → Drain_called ∉ s_trace s).
Proof.
  intros Hready Hse%start_error_None acts s Hexec.
  destruct (jobs_inv_exec s0 acts s Hready Hexec) as [Hinv Hsame].
  pose proof (phase_exec s0 acts s Hready Hexec) as Hph.
  pose proof (phase_counts s0 s Hph) as Hcount. rewrite Hse in Hcount.
  split_and!.
  - intros r st err Hin Herr.
    destruct (truthy_callback_done _ _ _ _ _ _ Hinv Hin Herr) as (j0 & Hj0 & _ & Hproj).
    assert (Hin' : CalledBack r st err ∈ pipeline s0 r j0).
    { rewrite <- Hproj. apply elem_of_proj. split; [apply about_CalledBack|done]. }
    destruct (sequential_fail r None _ st err (sequential_pipeline s0 r j0) Hin' Herr)
      as (_ & pre & j & Heq & Hres & _).
    exists j. split; [|done].
    eapply (proj1 (elem_of_proj r _ _)). rewrite Hproj, Heq.
    rewrite elem_of_app, !elem_of_cons. auto.
  - intros r j0 Hj0. by eapply prefix_of_job.
  - intros Hdrain. apply drains_elem in Hdrain.
    destruct (fulfilled (s_state s)) eqn:Hf; [|destruct Hcount; lia].
    destruct Hph as [i _ _ _ _ _ _ _ _ Hf' _ | err _ Hse' _ _ _ _ _ _ _ _ _
                    | _ _ _ _ _ _ _ Hf' _ | pre _ _ _ _ _ Hw Hsh _ _ _ Htr _];
      try congruence.
    split_and!; [by exists pre|by destruct Hcount|].
    intros r j0 Hj0.
    destruct Hinv as [_ _ _ _ Hd]. apply lookup_lt_Some in Hj0 as Hlt.
    destruct (Hd r) as (j0' & Hj0' & Hproj); [lia|by rewrite Hw|].
    by rewrite Hj0 in Hj0'; injection Hj0' as <-.
  - intros Hk Hjobs.
    assert (Hdrained : ∀ acts1 s1, exec acts1 (run s0) = Some s1 →
              fulfilled (s_state s1) = true → Drain_called ∈ s_trace s1).
    { intros acts1 s1 Hexec1 Hf1.
      destruct (phase_exec s0 acts1 s1 Hready Hexec1)
        as [i _ _ _ _ _ _ _ _ Hf' _ | err _ Hse' _ _ _ _ _ _ _ _ _
           | _ _ _ _ _ _ _ Hf' _ | pre _ _ _ _ _ _ _ _ _ _ Htr _];
        try congruence.
      rewrite Htr, elem_of_app. right. by left. }
    split.
    + intros Hq. destruct (fulfilled (s_state s)) eqn:Hf; [by eapply Hdrained|].
      destruct (progress s0 _ s Hsame Hinv Hph) as (a & s' & Hs'); [|done|done|].
      * unfold bound in *. by rewrite (same_concurrency _ _ Hsame).
      * by rewrite (Hq a) in Hs'.
    + destruct (exec_completes s0 acts s Hready) as (acts' & s' & Hexec' & Hf' & _);
        [by left|done|].
      exists acts', s'. split; [done|by eapply Hdrained].
  - intros Hnone Hin%drains_elem.
    destruct (no_job_exec _ _ _ Hready Hnone Hexec) as [Hsh Hw].
    destruct (stuck_run _ _ _ Hready Hse Hexec Hsh Hw) as (_ & _ & Hd & _); [by left|].
    lia.
Qed.

(** C3: if the [i]-th [beforeScraping] middleware calls back with an error
    for job [r], then [engine.fetch] is never invoked for [r], no
    [afterScraping] middleware and no later [beforeScraping] middleware is
    invoked for [r], the earlier [beforeScraping] middlewares were invoked,
    [job:success] is never emitted for [r], and the events of [r] are
    exactly: the calls of the middlewares before position [i], each followed
    by its falsy callback, the call of the [i]-th, its callback with that
    error, and [job:fail] with that error and the job, which carries the
    error on [res.error]; no other [job:fail] is emitted for [r]. *)
Theorem beforeScraping_failure_skips_fetch (s0 : scraper) :
  ready s0 →
  ∀ acts s r i err, exec acts (run s0) = Some s →
    CalledBack r (SBefore i) err ∈ s_trace s →
    truthy err = true →
    (Invoked r SFetch ∉ s_trace s)
    ∧ (∀ n, Invoked r (SAfter n) ∉ s_trace s)
    ∧ (∀ i', i < i' → Invoked r (SBefore i') ∉ s_trace s)
    ∧ (∀ i', i' ≤ i → Invoked r (SBefore i') ∈ s_trace s)
    ∧ (∀ j, Emit_job_success r j ∉ s_trace s)
    ∧ ∃ pre j,
        proj r (s_trace s) =
          pre ++ [Invoked r (SBefore i); CalledBack r (SBefore i) err; Emit_job_fail err r j]
        ∧ j_res j !! "error" = Some err
        ∧ (∀ err' j', Emit_job_fail err' r j' ∈ s_trace s → err' = err ∧ j' = j)
        ∧ (∀ e, e ∈ pre → ∃ i' err', i' < i ∧
             (e = Invoked r (SBefore i')
              ∨ (e = CalledBack r (SBefore i') err' ∧ truthy err' = false))).
Proof.
  intros Hready acts s r i err Hexec Hin Herr.
  destruct (jobs_inv_exec s0 acts s Hready Hexec) as [Hinv Hsame].
  destruct (truthy_callback_done _ _ _ _ _ _ Hinv Hin Herr) as (j0 & Hj0 & _ & Hproj).
  assert (Hin' : CalledBack r (SBefore i) err ∈ pipeline s0 r j0).
  { rewrite <- Hproj. apply elem_of_proj. split; [apply about_CalledBack|done]. }
  destruct (sequential_fail r None _ _ err (sequential_pipeline s0 r j0) Hin' Herr)
    as (_ & pre & j & Heq & Hres & Hpre).
  assert (Hpre' : ∀ e, e ∈ pre → ∃ i' err', i' < i ∧
             (e = Invoked r (SBefore i')
              ∨ (e = CalledBack r (SBefore i') err' ∧ truthy err' = false))).
  { intros e He. destruct (Hpre e He) as (st' & err' & Hlt & Hcase).
    apply stage_ltb_before in Hlt as (i' & -> & Hi'). eauto. }
  assert (Hall : ∀ e, about r e = true → e ∈ s_trace s →
            e ∈ pre ∨ e = Invoked r (SBefore i) ∨ e = CalledBack r (SBefore i) err
            ∨ e = Emit_job_fail err r j).
  { intros e Ha He. assert (e ∈ proj r (s_trace s)) as He' by by apply elem_of_proj.
    rewrite Hproj, Heq, elem_of_app, !elem_of_cons, elem_of_nil in He'. tauto. }
  assert (Hinv' : ∀ st, Invoked r st ∈ s_trace s → ∃ i', st = SBefore i' ∧ i' ≤ i).
  { intros st Hst. destruct (Hall _ (about_Invoked r st) Hst) as [Hp|[[= ->]|[|]]];
      [|by eauto|done|done].
    destruct (Hpre' _ Hp) as (i' & err' & Hi' & [[= ->]|[? _]]); [|done].
    exists i'. split; [done|lia]. }
  split_and!.
  - intros (i' & ? & _)%Hinv'. done.
  - intros n (i' & ? & _)%Hinv'. done.
  - intros i' Hi' (i2 & [= ->] & ?)%Hinv'. lia.
  - intros i' Hi'.
    destruct (before_trace_visits _ _ _ _ _ _ _ _ Hin') as [_ Hvis].
    eapply (proj1 (elem_of_proj r _ _)). rewrite Hproj. apply Hvis. lia.
  - intros j' Hj'.
    destruct (Hall (Emit_job_success r j')) as [Hp|[|[|]]]; [apply Nat.eqb_refl|done| |done..].
    by destruct (Hpre' _ Hp) as (i' & err' & _ & [|[? _]]).
  - exists pre, j. split_and!; [by rewrite Hproj|done| |done].
    intros err' j' Hj'.
    destruct (Hall (Emit_job_fail err' r j')) as [Hp|[|[|[= -> ->]]]];
      [apply Nat.eqb_refl|done| |done..].
    by destruct (Hpre' _ Hp) as (i' & err2 & _ & [|[? _]]).
Qed.

Lemma size_two (m : gmap nat (job * stage)) r r' w w' :
  m !! r = Some w → m !! r' = Some w' → r ≠ r' → 2 ≤ size m.
Proof.
  intros Hr Hr' Hne.
  pose proof (map_size_delete r m) as H1. rewrite Hr in H1. cbn in H1.
  pose proof (map_size_delete r' (delete r m)) as H2.
  rewrite lookup_delete_ne, Hr' in H2 by done. cbn in H2.
  assert (size (delete r m) ≠ 0).
  { rewrite map_size_empty_iff. intros Hempty.
    assert (delete r m !! r' = Some w') as Hl by by rewrite lookup_delete_ne.
    by rewrite Hempty, lookup_empty in Hl. }
  assert (size m ≠ 0).
  { rewrite map_size_empty_iff. intros Hempty. by rewrite Hempty, lookup_empty in Hr. }
  lia.
Qed.

(** C5: in every state of a run the [fetch] invocations in flight (called
    and not called back yet, counted on the trace) are the workers that wait
    on the engine, and their number is at most the bound the queue was
    constructed with; when that bound is 1 at most one is in flight, so no
    two jobs wait on the engine at the same time; the events
    of one job are a prefix of its pipeline, and a pipeline is strictly
    sequential (each stage called only after the callback of the previous
    one, in the order beforeScraping, fetch, afterScraping); and the bound
    of a scraper constructed while [maxConcurrency] is absent or falsy in
    the options is 1. *)
Theorem fetches_bounded (s0 : scraper) :
  ready s0 →
  ∀ acts s, exec acts (run s0) = Some s →
    in_flight (s_trace s) = size (fetching (s_queue s))
    ∧ (Z.of_nat (in_flight (s_trace s)) ≤ Z.max 0 (bound (s_queue s0)))%Z
    ∧ (q_concurrency (s_queue s0) = VNum 1 →
         in_flight (s_trace s) ≤ 1
         ∧ ∀ r r' j j',
             q_workers (s_queue s) !! r = Some (j, SFetch) →
             q_workers (s_queue s) !! r' = Some (j', SFetch) →
             r = r')
    ∧ (∀ r j0, q_tasks (s_queue s0) !! r = Some j0 →
         proj r (s_trace s) `prefix_of` pipeline s0 r j0
         ∧ sequential r None (pipeline s0 r j0))
    ∧ (∀ st eng uid name,
         truthy (read st RDefaults "maxConcurrency") = false →
         q_concurrency (s_queue (Scraper st eng uid name)) = VNum 1).
Proof.
  intros Hready acts s Hexec.
  destruct (jobs_inv_exec s0 acts s Hready Hexec) as [Hinv Hsame].
  assert (Hb : bounded s).
  { eapply bounded_exec; [exact Hexec|]. apply bounded_run, Hready. }
  unfold bounded, bound in Hb. rewrite (same_concurrency _ _ Hsame) in Hb.
  pose proof (in_flight_exec s0 acts s Hready Hexec) as Hfl.
  assert (Hin : in_flight (s_trace s) = size (fetching (s_queue s))).
  { unfold in_flight_inv in Hfl. unfold in_flight. lia. }
  pose proof (fetching_size (s_queue s)) as Hle.
  split_and!.
  - done.
  - unfold bound. lia.
  - intros H1. rewrite H1 in Hb. split; [lia|].
    intros r r' j j' Hr Hr'.
    destruct (decide (r = r')) as [|Hne]; [done|].
    pose proof (size_two _ _ _ _ _ Hr Hr' Hne). lia.
  - intros r j0 Hj0. split; [by eapply prefix_of_job|apply sequential_pipeline].
  - intros st eng uid name Hfalsy.
    change (q_concurrency (s_queue (Scraper st eng uid name)))
      with (or_else (read st RDefaults "maxConcurrency") (VNum 1)).
    unfold or_else. by rewrite Hfalsy.
Qed.

Lemma step_concurrency acts s s' :
  exec acts s = Some s' → q_concurrency (s_queue s') = q_concurrency (s_queue s).
Proof. intros H. by destruct (exec_same_setup _ _ _ H). Qed.

(** C9: the bound of the queue is the value of
    [this.options.maxConcurrency || 1] read by the constructor; [config]
    with any patch makes [this.options] refer to a newly allocated object,
    in which [maxConcurrency] is the one of the patch when it has one, and
    leaves the queue as it is; and the bound of the queue stays the same in
    every state of a run started afterwards. *)
Theorem concurrency_fixed_at_construction :
  (∀ st eng uid name,
     q_concurrency (s_queue (Scraper st eng uid name)) =
       or_else (read st RDefaults "maxConcurrency") (VNum 1))
  ∧ (∀ st s patch,
       ∃ st' s', config (VObj patch) st s = inr (st', s')
         ∧ s_options s' = RAlloc (length (st_allocated st))
         ∧ (∀ k, patch !! "maxConcurrency" = Some k →
              read st' (s_options s') "maxConcurrency" = k)
         ∧ s_queue s' = s_queue s
         ∧ ∀ acts s'', exec acts (run s') = Some s'' →
             q_concurrency (s_queue s'') = q_concurrency (s_queue s)).
Proof.
  split; [done|].
  intros st s patch. eexists _, _. split; [reflexivity|]. split_and!; try done.
  - intros k Hk. unfold read. cbn.
    rewrite lookup_app_r by done. rewrite Nat.sub_diag. cbn.
    unfold extend. by erewrite lookup_union_Some_l.
  - intros acts s'' Hexec.
    rewrite (step_concurrency _ _ _ Hexec).
    by destruct (run_same_setup (with_options (RAlloc (length (st_allocated st))) s)).
Qed.

(** C10: the constructor makes [this.options] refer to the shared
    [defaults] object itself; so for any two scrapers whose options still
    are that object, [timeout(t)] called on the first writes [t] into
    [defaults] in place, the second reads [t] as its [options.timeout], and
    so does every scraper constructed afterwards. *)
Theorem timeout_mutates_shared_defaults :
  (∀ st eng uid name, s_options (Scraper st eng uid name) = RDefaults)
  ∧ (∀ st s1 s2 t,
       s_options s1 = RDefaults → s_options s2 = RDefaults → is_number t = true →
       ∃ st', timeout t st s1 = inr (st', s1)
         ∧ st_defaults st' = <["timeout" := t]> (st_defaults st)
         ∧ read st' (s_options s2) "timeout" = t
         ∧ ∀ eng uid name, read st' (s_options (Scraper st' eng uid name)) "timeout" = t).
Proof.
  split; [done|].
  intros st s1 s2 t H1 H2 Ht. unfold timeout. rewrite Ht, H1.
  eexists. split; [reflexivity|]. rewrite H2. unfold read. cbn.
  rewrite lookup_insert_eq. done.
Qed.

(** ** The scrapers the registration methods build are ready *)

Lemma ready_Scraper st eng uid name : ready (Scraper st eng uid name).
Proof. by constructor. Qed.

Lemma ready_register_before fn s : ready s → ready (register_before fn s).
Proof. intros []. by constructor. Qed.

Lemma ready_register_after fn s : ready s → ready (register_after fn s).
Proof. intros []. by constructor. Qed.

Lemma ready_register_beforeScraping fn s : ready s → ready (register_beforeScraping fn s).
Proof. intros []. by constructor. Qed.

Lemma ready_register_afterScraping fn s : ready s → ready (register_afterScraping fn s).
Proof. intros []. by constructor. Qed.

Lemma ready_on name s : ready s → ready (on name s).
Proof. intros []. by constructor. Qed.

Lemma ready_push_all uuid n items s s' :
  ready s → push_all uuid n items s = inr s' → ready s'.
Proof.
  revert n s. induction items as [|item items IH]; intros n s Hr; cbn.
  - by intros [= <-].
  - destruct (createJob (uuid n) item) as [e|j]; [done|].
    apply IH. destruct Hr. by constructor.
Qed.

Lemma ready_url uuid feed s s' : ready s → url uuid feed s = inr s' → ready s'.
Proof.
  intros Hr. unfold url. destruct feed; try done; by apply ready_push_all.
Qed.

Lemma ready_example_scraper : ready example_scraper.
Proof. by constructor. Qed.

Lemma ready_example_refused : ready example_refused.
Proof. apply ready_register_before, ready_example_scraper. Qed.

Lemma ready_example_blocked : ready example_blocked.
Proof. apply ready_register_beforeScraping, ready_example_scraper. Qed.

Ltac run_to_end :=
  eexists; split; [vm_compute; reflexivity|].

Ltac computed := vm_compute; reflexivity.

Lemma before_failure_aborts_run_witness :
  ∃ s, exec [BeforeDone] (run example_refused) = Some s
    ∧ q_paused (s_queue s) = true
    ∧ q_shifted (s_queue s) = 0.
Proof.
  run_to_end.
  match goal with |- q_paused (s_queue ?s) = _ ∧ _ =>
    assert (Hexec : exec [BeforeDone] (run example_refused) = Some s) by computed
  end.
  destruct (before_failure_aborts_run example_refused 0 (VStr "refused")
              ready_example_refused ltac:(computed) ltac:(computed)
              (λ i' e (H : i' < 0), match Nat.nlt_0_r i' H with end)
              [BeforeDone] _ Hexec) as ((Hp & Hs & _) & _).
  split; [exact Hp|exact Hs].
Defined.

Lemma run_completes_once_witness :
  ∃ s, exec [Process; Process; StageDone 1; StageDone 0] (run example_scraper) = Some s
    ∧ completions (s_trace s) = [OnComplete VNull]
    ∧ drains (s_trace s) = 1.
Proof.
  assert (Hse : start_error (mw_before (s_middlewares example_scraper)) = None)
    by computed.
  assert (Hjob : q_tasks (s_queue example_scraper) ≠ [])
    by (intros H; vm_compute in H; discriminate H).
  assert (Hk : (1 ≤ bound (s_queue example_scraper))%Z)
    by (vm_compute; discriminate).
  run_to_end.
  match goal with |- completions (s_trace ?s) = _ ∧ _ =>
    assert (Hexec : exec [Process; Process; StageDone 1; StageDone 0] (run example_scraper)
                    = Some s) by computed
  end.
  destruct (run_completes_once example_scraper ready_example_scraper _ _ Hexec)
    as (_ & _ & _ & _ & Hjobs & _).
  destruct (Hjobs Hse Hjob Hk) as (_ & _ & Hq).
  apply Hq.
  eapply ended_quiescent;
    [eapply phase_exec; [apply ready_example_scraper|exact Hexec]|reflexivity].
Defined.

(** C4, as stated, fails, in three ways.  In the run of a scraper whose
    start middleware fails, the completion callback is called once but the
    drain callback of the queue is never called.  In the run of a scraper
    on which no job was pushed, and in the run of a scraper whose queue has
    a negative bound, nothing can happen once the queue is resumed, and
    neither callback was called. *)
Lemma run_does_not_always_complete_once :
  ¬ (∀ s0 acts s,
       ready s0 → (1 ≤ bound (s_queue s0))%Z → q_tasks (s_queue s0) ≠ [] →
       exec acts (run s0) = Some s → quiescent s →
       length (completions (s_trace s)) = 1 ∧ drains (s_trace s) = 1)
  ∧ ¬ (∀ s0 acts s,
         ready s0 → (1 ≤ bound (s_queue s0))%Z →
         start_error (mw_before (s_middlewares s0)) = None →
         exec acts (run s0) = Some s → quiescent s →
         length (completions (s_trace s)) = 1 ∧ drains (s_trace s) = 1)
  ∧ ¬ (∀ s0 acts s,
         ready s0 → q_tasks (s_queue s0) ≠ [] →
         start_error (mw_before (s_middlewares s0)) = None →
         exec acts (run s0) = Some s → quiescent s →
         length (completions (s_trace s)) = 1 ∧ drains (s_trace s) = 1).
Proof.
  split_and!.
  - intros H.
    assert (∃ s, exec [BeforeDone] (run example_refused) = Some s
                 ∧ fulfilled (s_state s) = true ∧ drains (s_trace s) = 0)
      as (s & Hexec & Hf & Hd) by (run_to_end; split; reflexivity).
    assert (Hq : quiescent s).
    { eapply ended_quiescent; [|exact Hf].
      eapply phase_exec; [apply ready_example_refused|exact Hexec]. }
    destruct (H _ _ _ ready_example_refused ltac:(vm_compute; discriminate)
                ltac:(intros Hn; vm_compute in Hn; discriminate Hn) Hexec Hq) as [_ Hd'].
    rewrite Hd in Hd'. discriminate Hd'.
  - intros H.
    assert (Hready : ready example_idle) by apply ready_Scraper.
    assert (Hexec : exec [] (run example_idle) = Some (run example_idle)) by reflexivity.
    destruct (no_job_exec _ _ _ Hready eq_refl Hexec) as [Hsh Hw].
    destruct (stuck_run _ _ _ Hready eq_refl Hexec Hsh Hw) as (_ & Hc & _ & Hq);
      [by left|].
    destruct (H _ _ _ Hready ltac:(vm_compute; discriminate) eq_refl Hexec (Hq eq_refl))
      as [Hc' _].
    rewrite Hc in Hc'. discriminate Hc'.
  - intros H.
    assert (Hready : ready example_stalled) by by constructor.
    assert (Hexec : exec [] (run example_stalled) = Some (run example_stalled))
      by reflexivity.
    assert (Hk : (bound (s_queue example_stalled) ≤ 0)%Z) by (vm_compute; discriminate).
    destruct (no_slot_exec _ _ _ Hready Hk Hexec) as [Hsh Hw].
    destruct (stuck_run _ _ _ Hready eq_refl Hexec Hsh Hw) as (_ & Hc & _ & Hq);
      [by right|].
    destruct (H _ _ _ Hready ltac:(intros Hn; vm_compute in Hn; discriminate Hn)
                eq_refl Hexec (Hq eq_refl)) as [Hc' _].
    rewrite Hc in Hc'. discriminate Hc'.
Qed.

Lemma job_errors_are_isolated_witness :
  ∃ s, exec [Process; Process; StageDone 1; StageDone 0] (run example_scraper) = Some s
    ∧ ∃ j, Emit_job_fail (VStr "unreachable") 1 j ∈ s_trace s
         ∧ j_res j !! "error" = Some (VStr "unreachable").
Proof.
  run_to_end.
  match goal with |- ∃ j, _ ∈ s_trace ?s ∧ _ =>
    assert (Hexec : exec [Process; Process; StageDone 1; StageDone 0] (run example_scraper)
                    = Some s) by computed
  end.
  destruct (job_errors_are_isolated example_scraper ready_example_scraper
              (λ e (H : e ∈ []), match proj1 (elem_of_nil e) H with end)
              _ _ Hexec) as (Hfail & _).
  apply (Hfail 1 SFetch (VStr "unreachable")); [|reflexivity].
  do 3 apply list_elem_of_further. apply list_elem_of_here.
Defined.

Lemma beforeScraping_failure_skips_fetch_witness :
  ∃ s, exec [Process; StageDone 0] (run example_blocked) = Some s
    ∧ Invoked 0 SFetch ∉ s_trace s.
Proof.
  run_to_end.
  match goal with |- _ ∉ s_trace ?s =>
    assert (Hexec : exec [Process; StageDone 0] (run example_blocked) = Some s) by computed
  end.
  destruct (beforeScraping_failure_skips_fetch example_blocked ready_example_blocked
              _ _ 0 0 (VStr "blocked") Hexec) as (Hfetch & _).
  - do 2 apply list_elem_of_further. apply list_elem_of_here.
  - reflexivity.
  - exact Hfetch.
Defined.

Lemma fetches_bounded_witness :
  ∃ s, exec [Process; Process] (run example_scraper) = Some s
    ∧ (Z.of_nat (size (fetching (s_queue s))) ≤ 2)%Z.
Proof.
  run_to_end.
  match goal with |- (Z.of_nat (size (fetching (s_queue ?s))) ≤ _)%Z =>
    assert (Hexec : exec [Process; Process] (run example_scraper) = Some s) by computed
  end.
  destruct (fetches_bounded example_scraper ready_example_scraper _ _ Hexec)
    as (Hin & Hb & _).
  rewrite <- Hin. exact Hb.
Defined.

Lemma concurrency_fixed_at_construction_witness :
  ∃ st' s', config (VObj {[ "maxConcurrency" := VNum 8 ]}) example_store example_scraper
              = inr (st', s')
    ∧ read st' (s_options s') "maxConcurrency" = VNum 8
    ∧ s_queue s' = s_queue example_scraper.
Proof.
  destruct concurrency_fixed_at_construction as [_ Hconfig].
  destruct (Hconfig example_store example_scraper {[ "maxConcurrency" := VNum 8 ]})
    as (st' & s' & Hc & _ & Hread & Hq & _).
  exists st', s'. split; [exact Hc|]. split; [apply Hread; reflexivity|exact Hq].
Defined.

Lemma timeout_mutates_shared_defaults_witness :
  ∃ st', timeout (VNum 5000) example_store (Scraper example_store example_engine "a" VUndefined)
           = inr (st', Scraper example_store example_engine "a" VUndefined)
    ∧ read st' (s_options (Scraper example_store example_engine "b" VUndefined)) "timeout"
        = VNum 5000.
Proof.
  destruct timeout_mutates_shared_defaults as [Hctor Hshared].
  destruct (Hshared example_store
              (Scraper example_store example_engine "a" VUndefined)
              (Scraper example_store example_engine "b" VUndefined)
              (VNum 5000) (Hctor _ _ _ _) (Hctor _ _ _ _) eq_refl)
    as (st' & Ht & _ & Hread & _).
  exists st'. split; [exact Ht|exact Hread].
Defined.

(** * Further properties of the code *)

(** ** Further properties of the job factory *)

Lemma createJob_accepts (uid : string) (feed : value) :
  (∃ j, createJob uid feed = inr j) ↔ valid_feed feed = true.
Proof.
  destruct feed as [| |b|n| |u|l|o]; cbn; try (split; [by intros [? ?]|done]).
  - split; eauto.
  - unfold createJob. cbn [prop].
    destruct (truthy (default VUndefined (o !! "url"))); cbn [negb].
    + split; eauto.
    + split; [by intros [? ?]|done].
Qed.

Lemma createJob_throws (uid : string) (feed : value) (e : exn) :
  createJob uid feed = inl e → e = TypeError ∨ e = Error no_url_provided.
Proof.
  unfold createJob. destruct feed as [| |b|n| |u|l|o]; cbn [prop truthy negb];
    try (intros [= <-]; auto); try done.
  destruct (truthy (default VUndefined (o !! "url"))); cbn [negb]; [done|].
  intros [= <-]. auto.
Qed.

Lemma createJob_url (uid : string) (feed : value) (j : job) :
  createJob uid feed = inr j → j_req j !! "url" = Some (feed_url feed).
Proof.
  destruct feed as [| |b|n| |u|l|o]; try discriminate.
  - intros [= <-]. cbn. by simplify_map_eq.
  - destruct (truthy (prop (VObj o) "url")) eqn:Hurl.
    + destruct (createJob_object uid o Hurl) as (j' & -> & _ & _ & _ & _ & Hu & _).
      by intros [= <-].
    + by rewrite (createJob_falsy_url uid o Hurl).
Qed.

(** X1: [createJob] accepts exactly the valid feeds; on [null] and [undefined]
    the read of [feed.url] raises a [TypeError]; on every other value (a
    number, a boolean, an array, an object without a truthy [url]) it throws
    the "no url provided" error; and it throws nothing else. *)
Theorem createJob_outcomes (uid : string) (feed : value) :
  ((∃ j, createJob uid feed = inr j) ↔ valid_feed feed = true)
  ∧ (createJob uid feed = inl TypeError ↔ feed = VNull ∨ feed = VUndefined)
  ∧ (createJob uid feed = inl (Error no_url_provided) ↔
       valid_feed feed = false ∧ feed ≠ VNull ∧ feed ≠ VUndefined)
  ∧ (∀ e, createJob uid feed = inl e → e = TypeError ∨ e = Error no_url_provided).
Proof.
  destruct feed as [| |b|n| |u|l|o]; cbn.
  all: try (split_and!; [split; [by intros [? ?]|done] | split; [done|by intros [|]]
                        | split; [done|by intros (? & ? & ?)] | intros e [= <-]; auto]).
  all: try (split_and!; [split; [by intros [? ?]|done] | split; [done|by intros [|]]
                        | by split | intros e [= <-]; auto]).
  - (* undefined *)
    split_and!; [split; [by intros [? ?]|done] | split; auto
                | split; [done|by intros (? & ? & ?)] | intros e [= <-]; auto].
  - (* null *)
    split_and!; [split; [by intros [? ?]|done] | split; auto
                | split; [done|by intros (? & ? & ?)] | intros e [= <-]; auto].
  - (* a string *)
    split_and!; [split; eauto | split; [done|by intros [|]]
                | split; [done|by intros (? & ? & ?)] | done].
  - (* an object *)
    unfold createJob. cbn [prop].
    destruct (truthy (default VUndefined (o !! "url"))) eqn:Hurl; cbn [negb].
    + split_and!; [split; eauto | split; [done|by intros [|]]
                  | split; [done|by intros (? & ? & ?)] | done].
    + split_and!; [split; [by intros [? ?]|done] | split; [done|by intros [|]]
                  | by split | intros e [= <-]; auto].
Qed.

Lemma createJob_outcomes_witness :
  createJob "7f" (VArr []) = inl (Error no_url_provided).
Proof.
  destruct (createJob_outcomes "7f" (VArr [])) as (_ & _ & [_ Hthrows] & _).
  apply Hthrows. by split_and!.
Defined.

(** X2: A string feed is taken as the url whatever the string, the empty one
    included, whereas an object feed whose [url] is a string is accepted
    only when that string is not empty. *)
Theorem createJob_empty_url (uid : string) :
  (∀ u, ∃ j, createJob uid (VStr u) = inr j ∧ j_req j !! "url" = Some (VStr u))
  ∧ (∀ (o : obj) u, o !! "url" = Some (VStr u) →
       ((∃ j, createJob uid (VObj o) = inr j) ↔ u ≠ "")).
Proof.
  split.
  - intros u. eexists. split; [apply createJob_string|]. cbn. by simplify_map_eq.
  - intros o u Hu.
    rewrite createJob_accepts.
    cbn. rewrite Hu. cbn. destruct (String.eqb_spec u ""); cbn; split; congruence.
Qed.

Lemma createJob_empty_url_witness :
  ¬ ∃ j, createJob "7f" (VObj {[ "url" := VStr "" ]}) = inr j.
Proof.
  destruct (createJob_empty_url "7f") as [_ Hobj].
  assert (Ho : ({[ "url" := VStr "" ]} : obj) !! "url" = Some (VStr "")) by reflexivity.
  intros Hj. by apply (Hobj _ "" Ho) in Hj.
Defined.

(** X3: What a job keeps of its feed: [req] holds no other property than
    [retries], [data], [params], [url] and [timeout], so any further property
    of the feed is reachable through [original] only; and the identifiers of
    jobs made from distinct uuids are distinct. *)
Theorem createJob_req_keys (uid : string) (feed : value) (j : job) :
  createJob uid feed = inr j →
  (∀ k, k ∉ req_keys → j_req j !! k = None)
  ∧ (∀ k, k ∈ ["retries"; "data"; "params"; "url"] → is_Some (j_req j !! k))
  ∧ j_original j = feed
  ∧ ∀ uid' feed' j', createJob uid' feed' = inr j' → uid ≠ uid' → j_id j ≠ j_id j'.
Proof.
  intros Hj.
  assert (Hid : ∀ u f j0, createJob u f = inr j0 →
            j_id j0 = "Job[" +:+ u +:+ "]" ∧ j_original j0 = f
            ∧ (∀ k, k ∉ req_keys → j_req j0 !! k = None)
            ∧ (∀ k, k ∈ ["retries"; "data"; "params"; "url"] → is_Some (j_req j0 !! k))).
  { intros u f j0. unfold createJob.
    destruct f as [| |b|n| |s|l|o]; cbn [prop truthy negb]; try discriminate.
    - intros [= <-]. cbn. split_and!; [done|done| |].
      + intros k Hk. unfold req_keys in Hk. rewrite !not_elem_of_cons in Hk.
        destruct Hk as (? & ? & ? & ? & ? & _). by simplify_map_eq.
      + intros k. rewrite !elem_of_cons, elem_of_nil.
        intros [->|[->|[->|[->|[]]]]]; by simplify_map_eq.
    - destruct (truthy (default VUndefined (o !! "url"))); cbn [negb]; [|discriminate].
      intros [= <-].
      destruct (truthy (default VUndefined (o !! "timeout"))); cbn; (split_and!; [done|done| |]).
      all: try (intros k Hk; unfold req_keys in Hk; rewrite !not_elem_of_cons in Hk;
                destruct Hk as (? & ? & ? & ? & ? & _); by simplify_map_eq).
      all: intros k; rewrite !elem_of_cons, elem_of_nil;
           intros [->|[->|[->|[->|[]]]]]; by simplify_map_eq. }
  destruct (Hid _ _ _ Hj) as (Hidj & Ho & Hk & Hk').
  split_and!; [done..|].
  intros uid' feed' j' Hj' Hne.
  destruct (Hid _ _ _ Hj') as (Hidj' & _).
  rewrite Hidj, Hidj'. intros Heq.
  apply (inj (String.append "Job[")) in Heq.
  assert (Hinj : ∀ a b : string, a +:+ "]" = b +:+ "]" → a = b).
  { induction a as [|c a IH]; intros [|c' b]; cbn; try done.
    - intros [= <- Hb]. by destruct b.
    - intros [= -> Ha]. by destruct a.
    - intros [= -> Ha]. f_equal. by apply IH. }
  by apply Hinj in Heq.
Qed.

Lemma createJob_req_keys_witness :
  ∃ j, createJob "7f" (VObj {[ "url" := VStr "http://a"; "method" := VStr "POST" ]}) = inr j
    ∧ j_req j !! "method" = None.
Proof.
  assert (∃ j, createJob "7f" (VObj {[ "url" := VStr "http://a"; "method" := VStr "POST" ]})
               = inr j) as [j Hj] by (eexists; reflexivity).
  exists j. split; [exact Hj|].
  destruct (createJob_req_keys _ _ _ Hj) as (Hkeys & _).
  apply Hkeys. unfold req_keys. rewrite !not_elem_of_cons. split_and!; try done.
  by intros ?%elem_of_nil.
Defined.

(** ** The name of a scraper *)

Lemma substring_app (n : nat) (a b : string) :
  n ≤ String.length a → String.substring 0 n (a +:+ b) = String.substring 0 n a.
Proof.
  revert a. induction n as [|n IH]; intros [|c a]; cbn; try done; try lia.
  - by destruct b.
  - intros Hn. change (String c a +:+ b) with (String c (a +:+ b)).
    cbn. f_equal. apply IH. lia.
Qed.

Lemma substring_app_l (n : nat) (a b : string) :
  String.substring 0 (String.length a + n) (a +:+ b) = a +:+ String.substring 0 n b.
Proof.
  induction a as [|c a IH]; [done|].
  change (String c a +:+ ?x) with (String c (a +:+ x)). cbn. by rewrite IH.
Qed.

(** X4: The constructor keeps a truthy [name]; for a falsy one ([undefined], the
    empty string, ...) the name is made of the first sixteen characters of
    the identifier, that is ["Scraper["] and the first eight characters of
    the uuid, closed by a bracket. *)
Theorem Scraper_name (st : store) (eng : engine) (uid : string) (name : value) :
  8 ≤ String.length uid →
  s_id (Scraper st eng uid name) = "Scraper[" +:+ uid +:+ "]"
  ∧ (truthy name = true → s_name (Scraper st eng uid name) = name)
  ∧ (truthy name = false →
       s_name (Scraper st eng uid name) =
         VStr ("Scraper[" +:+ String.substring 0 8 uid +:+ "]")).
Proof.
  intros Hlen. split; [reflexivity|]. split.
  - intros Hn. cbn. unfold or_else. by rewrite Hn.
  - intros Hn. cbn [Scraper s_name]. unfold or_else. rewrite Hn.
    pose proof (substring_app_l 8 "Scraper[" (uid +:+ "]")) as Hid.
    cbn [String.length Nat.add] in Hid. rewrite Hid.
    by rewrite substring_app.
Qed.

Lemma Scraper_name_witness :
  s_name (Scraper example_store example_engine "1b9d6bcd-bbfd" (VStr "")) =
    VStr "Scraper[1b9d6bcd]".
Proof.
  destruct (Scraper_name example_store example_engine "1b9d6bcd-bbfd" (VStr ""))
    as (_ & _ & Hname); [cbn; lia|].
  exact (Hname eq_refl).
Defined.

(** ** Feeding the queue *)

Lemma push_all_valid uuid n items s :
  Forall (λ item, valid_feed item = true) items →
  ∃ jobs,
    push_all uuid n items s =
      inr (with_queue (with_tasks (q_tasks (s_queue s) ++ jobs) (s_queue s)) s)
    ∧ length jobs = length items
    ∧ ∀ k item, items !! k = Some item →
        ∃ j, jobs !! k = Some j ∧ createJob (uuid (n + k)) item = inr j.
Proof.
  intros Hall. revert n s.
  induction Hall as [|item items Hitem Hall IH]; intros n s.
  - exists []. split_and!; [|done|done]. cbn. rewrite app_nil_r. by destruct s as [? ? ? ? ? []].
  - destruct (proj2 (createJob_accepts (uuid n) item) Hitem) as [j Hj].
    destruct (IH (S n) (with_queue (push j (s_queue s)) s)) as (jobs & Hpush & Hlen & Hjobs).
    exists (j :: jobs). split_and!.
    + cbn [push_all]. rewrite Hj, Hpush. cbn. by rewrite <- app_assoc.
    + cbn. by rewrite Hlen.
    + intros [|k] item'; cbn.
      * intros [= <-]. exists j. by rewrite Nat.add_0_r.
      * intros Hk. destruct (Hjobs k item' Hk) as (j' & ? & ?). exists j'.
        by replace (n + S k) with (S n + k) by lia.
Qed.

Lemma push_all_invalid uuid n good bad rest s :
  Forall (λ item, valid_feed item = true) good →
  valid_feed bad = false →
  ∃ e jobs,
    push_all uuid n (good ++ bad :: rest) s =
      inl (e, with_queue (with_tasks (q_tasks (s_queue s) ++ jobs) (s_queue s)) s)
    ∧ createJob (uuid (n + length good)) bad = inl e
    ∧ length jobs = length good
    ∧ ∀ k item, good !! k = Some item →
        ∃ j, jobs !! k = Some j ∧ createJob (uuid (n + k)) item = inr j.
Proof.
  intros Hall Hbad. revert n s.
  induction Hall as [|item items Hitem Hall IH]; intros n s.
  - destruct (createJob (uuid n) bad) as [e|j] eqn:Hc.
    + exists e, []. cbn. rewrite Hc, app_nil_r, Nat.add_0_r.
      split_and!; [|done..]. by destruct s as [? ? ? ? ? []].
    + assert (valid_feed bad = true) by (apply (createJob_accepts (uuid n)); eauto).
      congruence.
  - destruct (proj2 (createJob_accepts (uuid n) item) Hitem) as [j Hj].
    destruct (IH (S n) (with_queue (push j (s_queue s)) s))
      as (e & jobs & Hpush & He & Hlen & Hjobs).
    exists e, (j :: jobs). split_and!.
    + cbn [push_all app]. rewrite Hj, Hpush. cbn. by rewrite <- app_assoc.
    + cbn [length]. by replace (n + S (length items)) with (S n + length items) by lia.
    + cbn. by rewrite Hlen.
    + intros [|k] item'; cbn.
      * intros [= <-]. exists j. by rewrite Nat.add_0_r.
      * intros Hk. destruct (Hjobs k item' Hk) as (j' & ? & ?). exists j'.
        by replace (n + S k) with (S n + k) by lia.
Qed.

(** X5: [url] on an array of valid feeds (the empty array included) returns, and
    all it does is append one job per item to the pending jobs, in the order
    of the array, the [k]-th job being the one [createJob] makes of the
    [k]-th item: the queue stays as paused as it was and no event is
    emitted.  A valid feed that is not an array is handled as the array of
    that one feed. *)
Theorem url_pushes_in_order (uuid : nat → string) (s : scraper) :
  (∀ items, Forall (λ item, valid_feed item = true) items →
     ∃ jobs,
       url uuid (VArr items) s =
         inr (with_queue (with_tasks (q_tasks (s_queue s) ++ jobs) (s_queue s)) s)
       ∧ length jobs = length items
       ∧ ∀ k item, items !! k = Some item →
           ∃ j, jobs !! k = Some j ∧ createJob (uuid k) item = inr j
             ∧ j_req j !! "url" = Some (feed_url item))
  ∧ (∀ feed, valid_feed feed = true →
       url uuid feed s = url uuid (VArr [feed]) s
       ∧ ∃ j, createJob (uuid 0) feed = inr j
           ∧ url uuid feed s = inr (with_queue (push j (s_queue s)) s)).
Proof.
  split.
  - intros items Hall.
    destruct (push_all_valid uuid 0 items s Hall) as (jobs & Hpush & Hlen & Hjobs).
    exists jobs. split_and!; [done..|].
    intros k item Hk. destruct (Hjobs k item Hk) as (j & Hj & Hc). exists j.
    cbn in Hc. split_and!; [done..|].
    by eapply createJob_url.
  - intros feed Hv.
    assert (Hone : url uuid feed s = url uuid (VArr [feed]) s) by by destruct feed.
    split; [done|].
    destruct (proj2 (createJob_accepts (uuid 0) feed) Hv) as [j Hj].
    exists j. split; [done|]. rewrite Hone. cbn. by rewrite Hj.
Qed.

Lemma url_pushes_in_order_witness :
  ∃ jobs, q_tasks (s_queue example_scraper) = jobs ∧ length jobs = 2.
Proof.
  destruct (url_pushes_in_order example_uuid
              (Scraper example_store example_engine "c0ffee" VUndefined)) as [Harr _].
  destruct (Harr [VStr "http://a"; VStr "http://b"]) as (jobs & Hurl & Hlen & _);
    [by repeat constructor|].
  exists jobs. split; [|exact Hlen].
  unfold example_scraper. rewrite Hurl. reflexivity.
Defined.

(** X6: [url] is not atomic: when an item of the array is rejected by
    [createJob], the call throws that item's error, and the jobs of the
    items before it have been pushed to the queue all the same. *)
Theorem url_not_atomic (uuid : nat → string) (good : list value) (bad : value)
    (rest : list value) (s : scraper) :
  Forall (λ item, valid_feed item = true) good →
  valid_feed bad = false →
  ∃ e jobs,
    url uuid (VArr (good ++ bad :: rest)) s =
      inl (e, with_queue (with_tasks (q_tasks (s_queue s) ++ jobs) (s_queue s)) s)
    ∧ (e = TypeError ∨ e = Error no_url_provided)
    ∧ length jobs = length good
    ∧ ∀ k item, good !! k = Some item →
        ∃ j, jobs !! k = Some j ∧ createJob (uuid k) item = inr j.
Proof.
  intros Hall Hbad.
  destruct (push_all_invalid uuid 0 good bad rest s Hall Hbad)
    as (e & jobs & Hpush & He & Hlen & Hjobs).
  exists e, jobs. split_and!; [done| |done|done].
  by eapply createJob_throws.
Qed.

Lemma url_not_atomic_witness :
  ∃ s', url example_uuid (VArr [VStr "http://a"; VObj ∅; VStr "http://b"])
          (Scraper example_store example_engine "c0ffee" VUndefined)
        = inl (Error no_url_provided, s')
    ∧ length (q_tasks (s_queue s')) = 1.
Proof.
  destruct (url_not_atomic example_uuid [VStr "http://a"] (VObj ∅) [VStr "http://b"]
              (Scraper example_store example_engine "c0ffee" VUndefined))
    as (e & jobs & Hurl & _ & Hlen & _); [by repeat constructor|reflexivity|].
  assert (He : e = Error no_url_provided).
  { assert (∃ s1, url example_uuid (VArr ([VStr "http://a"] ++ [VObj ∅; VStr "http://b"]))
                    (Scraper example_store example_engine "c0ffee" VUndefined)
                  = inl (Error no_url_provided, s1)) as [s1 H] by (eexists; reflexivity).
    rewrite Hurl in H. by injection H. }
  subst e. eexists. split; [exact Hurl|].
  cbn. exact Hlen.
Defined.

(** X7: [addUrl] pushes what [url] pushes and emits [job:added] once per call
    that returns, whatever the number of jobs added (none for the empty
    array); a call that throws on a rejected item emits nothing, although
    the jobs of the items before it were added. *)
Theorem addUrl_notifies_once (uuid : nat → string) (s : scraper) :
  (∀ items, Forall (λ item, valid_feed item = true) items →
     ∃ jobs,
       addUrl uuid (VArr items) s =
         inr (with_queue (with_tasks (q_tasks (s_queue s) ++ jobs) (s_queue s)) s,
              ["job:added"])
       ∧ length jobs = length items)
  ∧ (∀ good bad rest,
       Forall (λ item, valid_feed item = true) good → valid_feed bad = false →
       ∃ e jobs,
         addUrl uuid (VArr (good ++ bad :: rest)) s =
           inl (e, with_queue (with_tasks (q_tasks (s_queue s) ++ jobs) (s_queue s)) s)
         ∧ length jobs = length good)
  ∧ (∀ feed s' emitted, addUrl uuid feed s = inr (s', emitted) →
       emitted = ["job:added"] ∧ url uuid feed s = inr s').
Proof.
  split_and!.
  - intros items Hall.
    destruct (push_all_valid uuid 0 items s Hall) as (jobs & Hpush & Hlen & _).
    exists jobs. split; [|done]. unfold addUrl, url. by rewrite Hpush.
  - intros good bad rest Hall Hbad.
    destruct (push_all_invalid uuid 0 good bad rest s Hall Hbad)
      as (e & jobs & Hpush & _ & Hlen & _).
    exists e, jobs. split; [|done]. unfold addUrl, url. by rewrite Hpush.
  - intros feed s' emitted. unfold addUrl.
    destruct (url uuid feed s) as [?|s1]; [done|]. by intros [= <- <-].
Qed.

Lemma addUrl_notifies_once_witness :
  ∃ s', addUrl example_uuid (VArr [])
          (Scraper example_store example_engine "c0ffee" VUndefined)
        = inr (s', ["job:added"]).
Proof.
  destruct (addUrl_notifies_once example_uuid
              (Scraper example_store example_engine "c0ffee" VUndefined)) as (Hok & _).
  destruct (Hok []) as (jobs & Hadd & _); [constructor|].
  eexists. exact Hadd.
Defined.

(** ** The options *)

(** X8: [config] and [timeout] do not commute.  After [config], [timeout] writes
    into the object [config] allocated: the shared [defaults] object is left
    as it was.  Called first, [timeout] writes into [defaults], where every
    other scraper reads it, and the object [config] allocates afterwards
    takes the timeout of the patch when it has one and the written one
    otherwise. *)
Theorem config_timeout_order (st : store) (s : scraper) (patch : obj) (t : value) :
  is_number t = true →
  (∃ st1 s1 st2,
     config (VObj patch) st s = inr (st1, s1)
     ∧ timeout t st1 s1 = inr (st2, s1)
     ∧ st_defaults st2 = st_defaults st
     ∧ read st2 (s_options s1) "timeout" = t)
  ∧ (s_options s = RDefaults →
     ∃ st1 st2 s2,
       timeout t st s = inr (st1, s)
       ∧ config (VObj patch) st1 s = inr (st2, s2)
       ∧ st_defaults st2 = <["timeout" := t]> (st_defaults st)
       ∧ read st2 (s_options s2) "timeout" = default t (patch !! "timeout")).
Proof.
  intros Ht. split.
  - eexists _, _, _. split; [reflexivity|]. unfold timeout. rewrite Ht.
    split; [reflexivity|]. split; [done|].
    unfold read. cbn.
    rewrite list_lookup_alter, lookup_app_r, Nat.sub_diag by done. cbn.
    rewrite decide_True by done. cbn. by rewrite lookup_insert_eq.
  - intros Ho. unfold timeout. rewrite Ht, Ho. eexists _, _, _. split; [reflexivity|].
    split; [reflexivity|]. split; [done|].
    unfold read. cbn. rewrite lookup_app_r, Nat.sub_diag by done. cbn.
    unfold extend. rewrite lookup_union.
    rewrite Ho. cbn. rewrite lookup_insert_eq.
    by destruct (patch !! "timeout") as [v|] eqn:Hp.
Qed.

Lemma config_timeout_order_witness :
  ∃ st1 s1 st2,
    config (VObj ∅) example_store example_scraper = inr (st1, s1)
    ∧ timeout (VNum 5000) st1 s1 = inr (st2, s1)
    ∧ st_defaults st2 = st_defaults example_store.
Proof.
  destruct (config_timeout_order example_store example_scraper ∅ (VNum 5000) eq_refl)
    as [(st1 & s1 & st2 & Hc & Ht & Hd & _) _].
  exists st1, s1, st2. split; [exact Hc|]. split; [exact Ht|exact Hd].
Defined.

(** ** The script of a scraper *)

(** X9: A scraper holds one script at most: once [scriptStack] is truthy, every
    call of [script] or [jawascript] throws its "script already registered"
    error, whatever its arguments (the test comes before the one on the
    arguments) and without calling a loader, so no sequence of calls changes
    the script. *)
Theorem script_registered_once {F : Type} (ph : phscript F) (scriptStack : value) :
  truthy scriptStack = true →
  (∀ path check, script ph path check scriptStack =
     inl (Error "sandcrawler.scraper.script: script already registered."))
  ∧ (∀ fn check, jawascript ph fn check scriptStack =
       inl (Error "sandcrawler.scraper.jawascript: script already registered."))
  ∧ ∀ cs, register_all ph cs scriptStack = scriptStack.
Proof.
  intros Hs. split_and!.
  - intros path check. unfold script. by rewrite Hs.
  - intros fn check. unfold jawascript. by rewrite Hs.
  - induction cs as [|[path check|fn check] cs IH]; cbn; [done|..].
    + unfold script. by rewrite Hs.
    + unfold jawascript. by rewrite Hs.
Qed.

Lemma script_registered_once_witness :
  register_all (Phscript unit (λ _ _, inr (VStr "f")) (λ _ _, inr (VStr "g"))
                  (λ _ _, inr (VStr "h")))
    [ByJawascript (SrcValue (VNum 42)) VNull; ByScript (VStr "other.js") VNull]
    (VStr "scrape.js") = VStr "scrape.js".
Proof.
  destruct (script_registered_once
              (Phscript unit (λ _ _, inr (VStr "f")) (λ _ _, inr (VStr "g"))
                 (λ _ _, inr (VStr "h")))
              (VStr "scrape.js") eq_refl) as (_ & _ & Hall).
  apply Hall.
Defined.

(** ** The flags, the listeners and the end of a run *)

Lemma check_drain_state s :
  (s_state (check_drain s) = s_state s ∧ s_listeners (check_drain s) = s_listeners s)
  ∨ (s_state (check_drain s) = ended_flags (s_state s) ∧ s_listeners (check_drain s) = []).
Proof. destruct (check_drain_cases s) as [[-> _] | [-> _]]; [by left|by right]. Qed.

Lemma series_state i s :
  (s_state (series i s) = s_state s ∧ s_listeners (series i s) = s_listeners s)
  ∨ (s_state (series i s) = ended_flags (s_state s) ∧ s_listeners (series i s) = []).
Proof.
  destruct (series_shape i s) as [(err & _ & ->) | [_ ->]]; by left.
Qed.

Lemma step_state a s s' :
  step a s = Some s' →
  (s_state s' = s_state s ∧ s_listeners s' = s_listeners s)
  ∨ (s_state s' = ended_flags (s_state s) ∧ s_listeners s' = []).
Proof.
  destruct a; cbn [step].
  - intros (i & err & _ & _ & [[_ ->] | [_ ->]])%before_done_shape; [by right|].
    exact (series_state _ _).
  - intros (j & ts & st' & _ & _ & _ & _ & _ & ->)%process_shape. by left.
  - intros (j & st & j' & err & _ & _ & _ & [(_ & st' & _ & _ & _ & ->) | (err' & _ & ->)])
      %stage_done_shape; [by left|].
    exact (check_drain_state _).
Qed.

Lemma flags_inv_exec s0 acts s :
  exec acts (run s0) = Some s → flags_inv s0 s.
Proof.
  intros Hexec.
  eapply (exec_invariant (flags_inv s0) s0); [| | |exact Hexec].
  - intros a s1 s2 _ Hinv Hstep. unfold flags_inv in *.
    destruct (step_state _ _ _ Hstep) as [[-> ->] | [-> ->]]; [done|].
    right. by destruct Hinv as [[-> _] | [-> _]].
  - apply run_same_setup.
  - unfold run, flags_inv. destruct (series_state 0 (emit Emit_scraper_start s0)); auto.
Qed.

Lemma ends_app tr1 tr2 : ends (tr1 ++ tr2) = ends tr1 ++ ends tr2.
Proof. apply List.filter_app. Qed.

Lemma ends_sproj tr : ends (sproj tr) = ends tr.
Proof.
  unfold ends, sproj. induction tr as [|e tr IH]; [done|].
  cbn. destruct e; cbn; by rewrite ?IH.
Qed.

Lemma ends_start k l : ends (start_trace k l) = [].
Proof.
  revert k. induction l as [|e l IH]; intros k; cbn; [done|].
  destruct (truthy e); [done|apply IH].
Qed.

Lemma elem_of_sproj e tr : e ∈ sproj tr ↔ of_scraper e = true ∧ e ∈ tr.
Proof. unfold sproj. rewrite !list_elem_of_In, List.filter_In. tauto. Qed.

Lemma teardown_not_start k l : Emit_scraper_teardown ∉ start_trace k l.
Proof.
  revert k. induction l as [|e l IH]; intros k; cbn; [by intros ?%elem_of_nil|].
  rewrite !not_elem_of_cons. split_and!; [done..|].
  destruct (truthy e); [by intros ?%elem_of_nil|apply IH].
Qed.

(** X10: The flags of a scraper during a run: they are left as they were until
    [exit], which sets [fulfilled] and clears [running]; no step of a run
    sets [running], [locked] or [paused], so a scraper that was not marked
    as running is not while it runs.  [scraper:end] is emitted when, and
    only when, the scraper becomes fulfilled, once, with the status "fail"
    if a start middleware failed and "success" otherwise. *)
Theorem state_flags (s0 : scraper) :
  ready s0 →
  ∀ acts s, exec acts (run s0) = Some s →
    (fulfilled (s_state s) = false → s_state s = s_state s0)
    ∧ (fulfilled (s_state s) = true → s_state s = ended_flags (s_state s0))
    ∧ (running (s_state s0) = false → running (s_state s) = false)
    ∧ ends (s_trace s) =
        (if fulfilled (s_state s) then [Emit_scraper_end (exit_status s0)] else []).
Proof.
  intros Hready acts s Hexec.
  pose proof (flags_inv_exec s0 acts s Hexec) as Hinv.
  pose proof (ready_fulfilled _ Hready) as Hf0.
  split_and!.
  - intros Hf. destruct Hinv as [[? _] | [Hs _]]; [done|]. by rewrite Hs in Hf.
  - intros Hf. destruct Hinv as [[Hs _] | [? _]]; [|done]. rewrite Hs in Hf. congruence.
  - intros Hr. destruct Hinv as [[-> _] | [-> _]]; done.
  - destruct (phase_exec s0 acts s Hready Hexec)
      as [i _ _ _ _ _ _ _ _ Hf Htr | err _ Herr _ _ _ _ _ Hf _ _ Htr
         | _ Herr _ _ _ _ _ Hf Htr | pre _ Herr _ _ _ _ _ Hf _ _ Htr Hpre];
      rewrite Hf; unfold exit_status.
    + rewrite Htr. change (Emit_scraper_start :: ?l) with ([Emit_scraper_start] ++ l).
      by rewrite !ends_app, ends_start.
    + rewrite Herr, Htr. change (Emit_scraper_start :: ?l) with ([Emit_scraper_start] ++ l).
      by rewrite !ends_app, ends_start.
    + rewrite <- ends_sproj, Htr.
      change (Emit_scraper_start :: ?l) with ([Emit_scraper_start] ++ l).
      by rewrite !ends_app, ends_start.
    + rewrite Herr, Htr, ends_app, <- (ends_sproj pre), Hpre.
      change (Emit_scraper_start :: ?l) with ([Emit_scraper_start] ++ l).
      by rewrite !ends_app, ends_start.
Qed.

Lemma state_flags_witness :
  ∃ s, exec [Process; Process; StageDone 1] (run example_scraper) = Some s
    ∧ running (s_state s) = false
    ∧ ends (s_trace s) = [].
Proof.
  eexists. split; [vm_compute; reflexivity|].
  match goal with |- running (s_state ?s) = _ ∧ _ =>
    assert (Hexec : exec [Process; Process; StageDone 1] (run example_scraper) = Some s)
      by (vm_compute; reflexivity)
  end.
  destruct (state_flags example_scraper ready_example_scraper _ _ Hexec)
    as (_ & _ & Hrun & Hends).
  split; [exact (Hrun eq_refl)|exact Hends].
Defined.

(** X11: The listeners are removed by [teardown] only, and [scraper:teardown] is
    the last event of a run: while the scraper is not fulfilled the
    listeners are those subscribed before the run and [scraper:teardown]
    was not emitted; once it is fulfilled no listener is left,
    [scraper:teardown] was emitted once, as the last event, and nothing
    more can happen.  So no event of a run is emitted after the listeners
    were removed. *)
Theorem listeners_until_teardown (s0 : scraper) :
  ready s0 →
  ∀ acts s, exec acts (run s0) = Some s →
    (fulfilled (s_state s) = false →
       s_listeners s = s_listeners s0 ∧ Emit_scraper_teardown ∉ s_trace s)
    ∧ (fulfilled (s_state s) = true →
       s_listeners s = []
       ∧ (∃ pre, s_trace s = pre ++ [Emit_scraper_teardown]
                 ∧ Emit_scraper_teardown ∉ pre)
       ∧ quiescent s).
Proof.
  intros Hready acts s Hexec.
  pose proof (flags_inv_exec s0 acts s Hexec) as Hinv.
  pose proof (ready_fulfilled _ Hready) as Hf0.
  pose proof (phase_exec s0 acts s Hready Hexec) as Hph.
  split.
  - intros Hf. split.
    { destruct Hinv as [[_ ?] | [Hs _]]; [done|]. by rewrite Hs in Hf. }
    destruct Hph as [i _ _ _ _ _ _ _ _ _ Htr | err _ _ _ _ _ _ _ Hf' _ _ _
                    | _ _ _ _ _ _ _ _ Htr | pre _ _ _ _ _ _ _ Hf' _ _ _ _];
      try congruence.
    + rewrite Htr, not_elem_of_cons, not_elem_of_app. split_and!; [done| |].
      * apply teardown_not_start.
      * by intros ?%list_elem_of_singleton.
    + intros Hin. assert (Hin' : Emit_scraper_teardown ∈ sproj (s_trace s))
        by by apply elem_of_sproj.
      rewrite Htr, elem_of_cons in Hin'. destruct Hin' as [|Hin']; [done|].
      by apply teardown_not_start in Hin'.
  - intros Hf. split_and!.
    + destruct Hinv as [[Hs _] | [_ ?]]; [|done]. rewrite Hs in Hf. congruence.
    + destruct Hph as [i _ _ _ _ _ _ _ _ Hf' _ | err _ _ _ _ _ _ _ _ _ _ Htr
                      | _ _ _ _ _ _ _ Hf' _ | pre _ _ _ _ _ _ _ _ _ _ Htr Hpre];
        try congruence.
      * exists (Emit_scraper_start :: start_trace 0 (mw_before (s_middlewares s0)) ++
                [OnComplete err; Emit_scraper_fail err; Emit_scraper_end "fail"]).
        split; [rewrite Htr; cbn; by rewrite <- app_assoc|].
        rewrite not_elem_of_cons, not_elem_of_app, !not_elem_of_cons.
        split_and!; try done; [apply teardown_not_start|by intros ?%elem_of_nil].
      * exists (pre ++ [Drain_called; OnComplete VNull; Emit_scraper_success;
                        Emit_scraper_end "success"]).
        split; [rewrite Htr; by rewrite <- app_assoc|].
        rewrite not_elem_of_app, !not_elem_of_cons.
        split_and!; try done; [|by intros ?%elem_of_nil].
        intros Hin. assert (Hin' : Emit_scraper_teardown ∈ sproj pre)
          by by apply elem_of_sproj.
        rewrite Hpre, elem_of_cons in Hin'. destruct Hin' as [|Hin']; [done|].
        by apply teardown_not_start in Hin'.
    + by eapply ended_quiescent.
Qed.

Lemma listeners_until_teardown_witness :
  ∃ s, exec [Process; Process; StageDone 1] (run (result example_scraper)) = Some s
    ∧ s_listeners s = ["job:fail"; "job:success"].
Proof.
  eexists. split; [vm_compute; reflexivity|].
  match goal with |- s_listeners ?s = _ =>
    assert (Hexec : exec [Process; Process; StageDone 1] (run (result example_scraper))
                    = Some s) by (vm_compute; reflexivity)
  end.
  destruct (listeners_until_teardown (result example_scraper)
              (ready_on _ _ (ready_on _ _ ready_example_scraper)) _ _ Hexec) as [Hl _].
  destruct (Hl eq_refl) as [Hsame _]. exact Hsame.
Defined.

(** ** The callback of [result] *)

Lemma omap_result_None (l : list event) :
  (∀ e, e ∈ l → result_args e = None) → omap result_args l = [].
Proof.
  induction l as [|e l IH]; [done|]. intros H. cbn.
  rewrite (H e) by (apply elem_of_cons; auto).
  apply IH. intros e' He'. apply H, elem_of_cons. auto.
Qed.

(** The one job event of a sequential pipeline is its last event. *)
Lemma sequential_result r prev tr :
  sequential r prev tr →
  ∃ pre e c, tr = pre ++ [e] ∧ omap result_args pre = [] ∧ result_args e = Some c.
Proof.
  intros (pre & e & -> & He & Hpre)%sequential_last.
  exists pre, e. destruct He as [[j ->] | (err & j & ->)]; eexists; (split_and!; [done| |done]).
  all: apply omap_result_None; intros e' He'; by destruct (Hpre e' He') as (st & [->|[err' ->]]).
Qed.

Lemma awaited_head s r j st :
  stage_valid s st → ∃ err tl, awaited s r j st = CalledBack r st err :: tl.
Proof.
  intros Hv. destruct (run_stage s st j) as [j' err] eqn:Hrun.
  unfold awaited. rewrite (trace_from_step _ _ _ _ _ _ Hv Hrun). cbn. eauto.
Qed.

Lemma pipeline_head s r j : ∃ st tl, pipeline s r j = Invoked r st :: tl.
Proof.
  assert (∃ st, stage_valid s st ∧ trace_from s r j st = pipeline s r j) as (st & Hv & <-).
  { unfold pipeline, trace_from, stage_valid.
    destruct (mw_beforeScraping (s_middlewares s)) as [|mw mws] eqn:Hmws.
    - by exists SFetch.
    - exists (SBefore 0). cbn. split; [lia|done]. }
  destruct (trace_from_head s r j st Hv) as (tl & -> & _). eauto.
Qed.

(** The calls of [fn] about one job: none while the job is pending or in
    its pipeline, one once it has left it. *)
Lemma job_calls s0 jobs0 s r :
  jobs_inv s0 jobs0 s →
  (result_calls r (s_trace s) = []
   ∧ ¬ (r < q_shifted (s_queue s) ∧ q_workers (s_queue s) !! r = None))
  ∨ (∃ j0 c, jobs0 !! r = Some j0
       ∧ r < q_shifted (s_queue s) ∧ q_workers (s_queue s) !! r = None
       ∧ proj r (s_trace s) = pipeline s0 r j0
       ∧ result_calls r (s_trace s) = [c]).
Proof.
  intros [_ _ Hp Ha Hd]. unfold result_calls.
  destruct (decide (r < q_shifted (s_queue s))) as [Hlt|Hge].
  - destruct (q_workers (s_queue s) !! r) as [[j st]|] eqn:Hw.
    + left. split; [|by intros [_ ?]].
      destruct (Ha r j st Hw) as (Hv & j0 & _ & Heq & _).
      destruct (sequential_result r None _ (sequential_pipeline s0 r j0))
        as (pre & e & c & Hpipe & Hpre & _).
      destruct (awaited_head s0 r j st Hv) as (err & tl & Haw).
      rewrite Hpipe, Haw in Heq.
      destruct (exists_last (l := CalledBack r st err :: tl)) as (aw & x & Hlast); [done|].
      rewrite Hlast, app_assoc in Heq. apply app_inj_tail in Heq as [Heq _].
      rewrite <- Heq, omap_app in Hpre. by apply app_eq_nil in Hpre as [? _].
    + right. destruct (Hd r Hlt Hw) as (j0 & Hj0 & Heq).
      destruct (sequential_result r None _ (sequential_pipeline s0 r j0))
        as (pre & e & c & Hpipe & Hpre & He).
      exists j0, c. split_and!; [done..|].
      rewrite Heq, Hpipe, omap_app, Hpre. cbn. by rewrite He.
  - left. split; [|intros [? _]; lia]. destruct (Hp r) as [_ ->]; [lia|done].
Qed.

(** X12: The callback given to [result] is called once per job: in every state
    of a run of a scraper on which [result] was called, the two handlers
    are subscribed as long as [scraper:teardown] was not emitted; [fn] was
    called at most once about each job, and exactly once about the jobs
    that left their pipeline, which are all the pushed jobs once the queue
    has drained; and each call either passes [null] as the error, and then
    no stage of the job called back with an error, or passes the truthy
    error a stage of the job called back with, which the job carries on
    [res.error]. *)
Theorem result_called_once_per_job (s0 : scraper) :
  ready s0 →
  ∀ acts s, exec acts (run (result s0)) = Some s →
    (Emit_scraper_teardown ∉ s_trace s →
       "job:fail" ∈ s_listeners s ∧ "job:success" ∈ s_listeners s)
    ∧ (∀ r, length (result_calls r (s_trace s)) ≤ 1)
    ∧ (∀ r, length (result_calls r (s_trace s)) = 1 ↔
            r < q_shifted (s_queue s) ∧ q_workers (s_queue s) !! r = None)
    ∧ (Drain_called ∈ s_trace s →
         ∀ r, r < length (q_tasks (s_queue s0)) → length (result_calls r (s_trace s)) = 1)
    ∧ (∀ r err rq rs, (err, rq, rs) ∈ result_calls r (s_trace s) →
         (err = VNull ∧ ∀ st e, CalledBack r st e ∈ s_trace s → truthy e = false)
         ∨ (truthy err = true ∧ rs !! "error" = Some err
            ∧ ∃ st, CalledBack r st err ∈ s_trace s)).
Proof.
  intros Hready0 acts s Hexec.
  assert (Hready : ready (result s0)) by by do 2 apply ready_on.
  destruct (jobs_inv_exec _ acts s Hready Hexec) as [Hinv Hsame].
  pose proof (phase_exec _ acts s Hready Hexec) as Hph.
  pose proof (flags_inv_exec _ acts s Hexec) as Hfl.
  split_and!.
  - intros Htd.
    destruct Hph as [i _ _ _ _ _ _ _ _ Hf _ | err _ _ _ _ _ _ _ _ _ _ Htr
                    | _ _ _ _ _ _ _ Hf _ | pre _ _ _ _ _ _ _ _ _ _ Htr _].
    1,3: destruct Hfl as [[_ ->] | [Hs _]]; [|by rewrite Hs in Hf];
         cbn; rewrite !elem_of_app, !list_elem_of_singleton; auto.
    + exfalso. apply Htd. rewrite Htr, elem_of_cons, elem_of_app.
      right. right. unfold fail_tail. rewrite !elem_of_cons. auto 10.
    + exfalso. apply Htd. rewrite Htr, elem_of_app.
      right. unfold success_tail. rewrite !elem_of_cons. auto 10.
  - intros r. destruct (job_calls _ _ s r Hinv) as [[-> _] | (j0 & c & _ & _ & _ & _ & ->)];
      cbn; lia.
  - intros r. destruct (job_calls _ _ s r Hinv) as [[-> Hn] | (j0 & c & _ & ? & ? & _ & ->)];
      cbn; [split; [lia|tauto]|tauto].
  - intros Hdrain r Hr.
    destruct Hph as [i _ _ _ _ _ _ _ _ Hf Htr | err _ Herr _ _ _ _ _ Hf _ _ Htr
                    | _ Herr _ _ _ _ _ Hf Htr | pre _ _ _ _ _ Hw Hsh _ _ _ _ _].
    1,2,3: pose proof (phase_counts _ _ (phase_exec _ acts s Hready Hexec)) as Hc;
           apply drains_elem in Hdrain; rewrite Hf in Hc;
           destruct (start_error _); destruct Hc as [_ Hc]; first [congruence | lia].
    destruct (job_calls _ _ s r Hinv) as [[_ Hn] | (j0 & c & _ & _ & _ & _ & ->)]; [|done].
    exfalso. apply Hn. rewrite Hsh, Hw. split; [exact Hr|apply lookup_empty].
  - intros r err rq rs Hin.
    destruct (job_calls _ _ s r Hinv) as [[Hnil _] | (j0 & c & _ & _ & _ & Hproj & _)];
      [by rewrite Hnil in Hin; apply elem_of_nil in Hin|].
    unfold result_calls in Hin.
    apply list_elem_of_omap in Hin as (e & He & Hargs).
    pose proof He as [Hab _]%elem_of_proj.
    rewrite Hproj in He. pose proof (sequential_pipeline (result s0) r j0) as Hseq.
    destruct e; try discriminate Hargs; cbn in Hab; apply Nat.eqb_eq in Hab as <-;
      injection Hargs as <- <- <-.
    + right. destruct (sequential_job_fail _ _ _ _ _ Hseq He) as (Ht & Hres & st & Hcb).
      split_and!; [done..|]. exists st.
      eapply (proj1 (elem_of_proj r _ _)). by rewrite Hproj.
    + left. split; [done|]. intros st e Hcb.
      eapply (sequential_job_success _ _ _ _ Hseq He st e).
      rewrite <- Hproj. apply elem_of_proj. split; [apply about_CalledBack|done].
Qed.

Lemma result_called_once_per_job_witness :
  ∃ s, exec [Process; Process; StageDone 1; StageDone 0] (run (result example_scraper))
       = Some s
    ∧ length (result_calls 0 (s_trace s)) = 1
    ∧ length (result_calls 1 (s_trace s)) = 1.
Proof.
  eexists. split; [vm_compute; reflexivity|].
  match goal with |- length (result_calls 0 (s_trace ?s)) = _ ∧ _ =>
    assert (Hexec : exec [Process; Process; StageDone 1; StageDone 0]
                      (run (result example_scraper)) = Some s) by (vm_compute; reflexivity);
    assert (Hd : Drain_called ∈ s_trace s)
      by (do 7 apply list_elem_of_further; apply list_elem_of_here)
  end.
  destruct (result_called_once_per_job example_scraper ready_example_scraper _ _ Hexec)
    as (_ & _ & _ & Hall & _).
  split; apply (Hall Hd); cbn; lia.
Defined.

(** ** The order in which the jobs start *)

(** X13: The queue is first in, first out: at every point of a run the jobs
    that have started are the first jobs pushed, as many as the queue has
    pulled, so a job never starts before one that was pushed earlier; and
    the pending jobs are the remaining ones, still in the order of the
    pushes (or none, once the queue was killed). *)
Theorem jobs_start_in_order (s0 : scraper) :
  ready s0 →
  ∀ acts s, exec acts (run s0) = Some s →
    (∀ r, proj r (s_trace s) ≠ [] ↔ r < q_shifted (s_queue s))
    ∧ q_shifted (s_queue s) ≤ length (q_tasks (s_queue s0))
    ∧ (∀ r r', r ≤ r' → proj r' (s_trace s) ≠ [] → proj r (s_trace s) ≠ [])
    ∧ (q_tasks (s_queue s) = drop (q_shifted (s_queue s)) (q_tasks (s_queue s0))
       ∨ q_tasks (s_queue s) = []).
Proof.
  intros Hready acts s Hexec.
  destruct (jobs_inv_exec s0 acts s Hready Hexec) as [Hinv Hsame].
  assert (Hstarted : ∀ r, proj r (s_trace s) ≠ [] ↔ r < q_shifted (s_queue s)).
  { intros r. destruct Hinv as [_ _ Hp Ha Hd]. split.
    - intros Hne. destruct (decide (r < q_shifted (s_queue s))) as [|Hge]; [done|].
      destruct (Hp r) as [_ Hnil]; [lia|done].
    - intros Hlt. destruct (q_workers (s_queue s) !! r) as [[j st]|] eqn:Hw.
      + destruct (Ha r j st Hw) as (Hv & j0 & _ & Heq & _).
        destruct (awaited_head s0 r j st Hv) as (err & tl & Haw).
        destruct (pipeline_head s0 r j0) as (st' & tl' & Hpipe).
        intros Hnil. rewrite Hnil, Haw, Hpipe in Heq. discriminate Heq.
      + destruct (Hd r Hlt Hw) as (j0 & _ & ->).
        by destruct (pipeline_head s0 r j0) as (st' & tl' & ->). }
  split_and!; [done| | |].
  - by destruct Hinv.
  - intros r r' Hle Hr'. apply Hstarted. apply Hstarted in Hr'. lia.
  - by destruct Hinv.
Qed.

Lemma jobs_start_in_order_witness :
  ∃ s, exec [Process] (run example_scraper) = Some s
    ∧ proj 0 (s_trace s) ≠ [].
Proof.
  eexists. split; [vm_compute; reflexivity|].
  match goal with |- proj 0 (s_trace ?s) ≠ _ =>
    assert (Hexec : exec [Process] (run example_scraper) = Some s)
      by (vm_compute; reflexivity)
  end.
  destruct (jobs_start_in_order example_scraper ready_example_scraper _ _ Hexec)
    as (Hstarted & _).
  apply Hstarted. cbn. lia.
Defined.

(** ** What precedes the call of the engine, and [job:success] *)

Lemma is_fetch_of_spec r e : is_fetch_of r e = true ↔ e = Invoked r SFetch.
Proof.
  destruct e as [| | | | | | | | | |r' [| |]| |]; cbn; try (split; [done|intros [=]]).
  rewrite Nat.eqb_eq. split; [by intros ->|by intros [= ->]].
Qed.

(** The first occurrence of an event that satisfies a test. *)
Lemma first_occurrence {A : Type} (f : A → bool) (l : list A) (x : A) :
  x ∈ l → f x = true →
  ∃ l1 y l2, l = l1 ++ y :: l2 ∧ f y = true ∧ ∀ z, z ∈ l1 → f z = false.
Proof.
  induction l as [|a l IH]; [by intros ?%elem_of_nil|].
  intros Hin Hx. destruct (f a) eqn:Ha.
  - exists [], a, l. split_and!; [done|done|]. by intros z ?%elem_of_nil.
  - apply elem_of_cons in Hin as [->|Hin]; [congruence|].
    destruct (IH Hin Hx) as (l1 & y & l2 & -> & Hy & Hl1).
    exists (a :: l1), y, l2. split_and!; [done|done|].
    intros z [->|Hz]%elem_of_cons; auto.
Qed.

(** A pipeline that reaches the engine: the call of [fetch] comes after the
    falsy callback of every [beforeScraping] middleware. *)
Lemma before_trace_reaches_fetch eng afters r k mws j :
  Invoked r SFetch ∈ before_trace eng afters r k mws j →
  ∃ pre post,
    before_trace eng afters r k mws j = pre ++ Invoked r SFetch :: post
    ∧ (Invoked r SFetch ∉ pre)
    ∧ ∀ i, k ≤ i < k + length mws →
        ∃ err, CalledBack r (SBefore i) err ∈ pre ∧ truthy err = false.
Proof.
  revert k j. induction mws as [|mw mws IH]; intros k j; cbn.
  - intros _. unfold fetch_trace. destruct (eng j) as [j' err].
    eexists [], _. split_and!; [done|by intros ?%elem_of_nil|]. intros i Hi. lia.
  - destruct (apply_before mw j) as [j' e]. rewrite !elem_of_cons.
    intros [|[|Hin]]; [done|done|].
    destruct (truthy e) eqn:He; [by apply list_elem_of_singleton in Hin|].
    destruct (IH _ _ Hin) as (pre & post & -> & Hpre & Hall).
    exists (Invoked r (SBefore k) :: CalledBack r (SBefore k) e :: pre), post.
    split_and!; [done| |].
    + rewrite !not_elem_of_cons. by split_and!.
    + intros i Hi. destruct (decide (i = k)) as [->|Hne].
      * exists e. split; [|done]. rewrite !elem_of_cons. auto.
      * destruct (Hall i) as (err & ? & ?); [lia|].
        exists err. split; [|done]. rewrite !elem_of_cons. auto.
Qed.

(** X14: [engine.fetch] is called for a job only after every [beforeScraping]
    middleware has called back for that job, and none of them with an
    error: the trace up to the first call of [fetch] for job [r] holds a
    falsy callback of each of them. *)
Theorem fetch_only_after_beforeScraping (s0 : scraper) :
  ready s0 →
  ∀ acts s r, exec acts (run s0) = Some s →
    Invoked r SFetch ∈ s_trace s →
    ∃ tr1 tr2,
      s_trace s = tr1 ++ Invoked r SFetch :: tr2
      ∧ (Invoked r SFetch ∉ tr1)
      ∧ ∀ i, i < length (mw_beforeScraping (s_middlewares s0)) →
          ∃ err, CalledBack r (SBefore i) err ∈ tr1 ∧ truthy err = false.
Proof.
  intros Hready acts s r Hexec Hin.
  destruct (jobs_inv_exec s0 acts s Hready Hexec) as [Hinv Hsame].
  destruct (first_occurrence (is_fetch_of r) _ _ Hin) as (tr1 & y & tr2 & Htr & Hy & Htr1);
    [by apply is_fetch_of_spec|].
  apply is_fetch_of_spec in Hy as ->.
  assert (Hnot : ∀ l : list event,
            (∀ z, z ∈ l → is_fetch_of r z = false) → Invoked r SFetch ∉ l).
  { intros l Hl Hz. apply Hl in Hz. by rewrite (proj2 (is_fetch_of_spec r _) eq_refl) in Hz. }
  exists tr1, tr2. split_and!; [done|by apply Hnot|].
  assert (Hin' : Invoked r SFetch ∈ proj r (s_trace s)).
  { apply elem_of_proj. split; [apply about_Invoked|done]. }
  assert (∃ j0, q_tasks (s_queue s0) !! r = Some j0) as [j0 Hj0].
  { destruct (job_status _ _ s r Hinv) as [Hnil | [(j & st & j0 & _ & ? & _) | (j0 & ? & _)]];
      [|eauto..]. rewrite Hnil in Hin'. by apply elem_of_nil in Hin'. }
  destruct (prefix_of_job _ _ _ _ _ Hinv Hj0) as [k Hk].
  assert (Hpipe : Invoked r SFetch ∈ pipeline s0 r j0).
  { rewrite Hk, elem_of_app. by left. }
  destruct (before_trace_reaches_fetch _ _ _ _ _ _ Hpipe) as (pre & post & Heq & Hpre & Hall).
  fold (pipeline s0 r j0) in Heq. rewrite Heq in Hk.
  rewrite Htr, proj_app in Hk.
  change (Invoked r SFetch :: tr2) with ([Invoked r SFetch] ++ tr2) in Hk.
  rewrite proj_app, (proj_one_same r (Invoked r SFetch)) in Hk by apply about_Invoked.
  rewrite <- !app_assoc in Hk. cbn in Hk.
  assert (Hnot1 : Invoked r SFetch ∉ proj r tr1).
  { intros [_ ?]%elem_of_proj. by eapply Hnot. }
  destruct (not_elem_of_app_cons_inv_l _ _ _ _ _ _ Hnot1 Hpre Hk) as (-> & _ & _).
  intros i Hi. destruct (Hall i) as (err & Herr & ?); [cbn; lia|].
  exists err. split; [|done]. by apply elem_of_proj in Herr as [_ ?].
Qed.

Lemma ready_example_checked : ready example_checked.
Proof. apply ready_register_beforeScraping, ready_example_scraper. Qed.

Lemma fetch_only_after_beforeScraping_witness :
  ∃ s, exec [Process; StageDone 0] (run example_checked) = Some s
    ∧ ∃ tr1 tr2, s_trace s = tr1 ++ Invoked 0 SFetch :: tr2
        ∧ ∃ err, CalledBack 0 (SBefore 0) err ∈ tr1 ∧ truthy err = false.
Proof.
  eexists. split; [vm_compute; reflexivity|].
  match goal with |- ∃ tr1 tr2, s_trace ?s = _ ∧ _ =>
    assert (Hexec : exec [Process; StageDone 0] (run example_checked) = Some s)
      by (vm_compute; reflexivity);
    assert (Hin : Invoked 0 SFetch ∈ s_trace s)
      by (do 3 apply list_elem_of_further; apply list_elem_of_here)
  end.
  destruct (fetch_only_after_beforeScraping example_checked ready_example_checked
              _ _ 0 Hexec Hin) as (tr1 & tr2 & Htr & _ & Hall).
  exists tr1, tr2. split; [exact Htr|].
  apply (Hall 0). vm_compute. constructor.
Defined.

Lemma after_trace_success r k mws j jf :
  Emit_job_success r jf ∈ after_trace r k mws j →
  ∀ i, k ≤ i < k + length mws →
    ∃ err, Invoked r (SAfter i) ∈ after_trace r k mws j
      ∧ CalledBack r (SAfter i) err ∈ after_trace r k mws j ∧ truthy err = false.
Proof.
  revert k j. induction mws as [|mw mws IH]; intros k j; cbn.
  - intros _ i Hi. lia.
  - destruct (apply_after mw j) as [j' e]. rewrite !elem_of_cons.
    intros [|[|Hin]]; [done|done|].
    destruct (truthy e) eqn:He; [by apply list_elem_of_singleton in Hin|].
    intros i Hi. destruct (decide (i = k)) as [->|Hne].
    + exists e. rewrite !elem_of_cons. auto.
    + destruct (IH _ _ Hin i) as (err & ? & ? & ?); [lia|].
      exists err. rewrite !elem_of_cons. auto.
Qed.

Lemma fetch_trace_success eng afters r j jf :
  Emit_job_success r jf ∈ fetch_trace eng afters r j →
  (∃ err, Invoked r SFetch ∈ fetch_trace eng afters r j
     ∧ CalledBack r SFetch err ∈ fetch_trace eng afters r j ∧ truthy err = false)
  ∧ ∀ i, i < length afters →
      ∃ err, Invoked r (SAfter i) ∈ fetch_trace eng afters r j
        ∧ CalledBack r (SAfter i) err ∈ fetch_trace eng afters r j ∧ truthy err = false.
Proof.
  unfold fetch_trace. destruct (eng j) as [j' e]. rewrite !elem_of_cons.
  intros [|[|Hin]]; [done|done|].
  destruct (truthy e) eqn:He; [by apply list_elem_of_singleton in Hin|].
  split.
  - exists e. rewrite !elem_of_cons. auto.
  - intros i Hi. destruct (after_trace_success _ _ _ _ _ Hin i) as (err & ? & ? & ?); [lia|].
    exists err. rewrite !elem_of_cons. auto.
Qed.

Lemma before_trace_success eng afters r k mws j jf :
  Emit_job_success r jf ∈ before_trace eng afters r k mws j →
  (∀ i, k ≤ i < k + length mws →
     ∃ err, Invoked r (SBefore i) ∈ before_trace eng afters r k mws j
       ∧ CalledBack r (SBefore i) err ∈ before_trace eng afters r k mws j
       ∧ truthy err = false)
  ∧ (∃ err, Invoked r SFetch ∈ before_trace eng afters r k mws j
       ∧ CalledBack r SFetch err ∈ before_trace eng afters r k mws j ∧ truthy err = false)
  ∧ ∀ i, i < length afters →
      ∃ err, Invoked r (SAfter i) ∈ before_trace eng afters r k mws j
        ∧ CalledBack r (SAfter i) err ∈ before_trace eng afters r k mws j
        ∧ truthy err = false.
Proof.
  revert k j. induction mws as [|mw mws IH]; intros k j; cbn.
  - intros [Hf Ha]%fetch_trace_success. split_and!; [|done..]. intros i Hi. lia.
  - destruct (apply_before mw j) as [j' e]. rewrite !elem_of_cons.
    intros [|[|Hin]]; [done|done|].
    destruct (truthy e) eqn:He; [by apply list_elem_of_singleton in Hin|].
    destruct (IH _ _ Hin) as (Hb & (ef & ? & ? & ?) & Ha).
    split_and!.
    + intros i Hi. destruct (decide (i = k)) as [->|Hne].
      * exists e. rewrite !elem_of_cons. auto.
      * destruct (Hb i) as (err & ? & ? & ?); [lia|].
        exists err. rewrite !elem_of_cons. auto.
    + exists ef. rewrite !elem_of_cons. auto.
    + intros i Hi. destruct (Ha i Hi) as (err & ? & ? & ?).
      exists err. rewrite !elem_of_cons. auto.
Qed.

(** A job event in the trace: the job has left its pipeline, and its events
    are its whole pipeline. *)
Lemma job_event_done s0 jobs0 s r e :
  jobs_inv s0 jobs0 s →
  e ∈ s_trace s → about r e = true → is_Some (result_args e) →
  ∃ j0, jobs0 !! r = Some j0 ∧ proj r (s_trace s) = pipeline s0 r j0.
Proof.
  intros Hinv Hin Hab [c Hc].
  destruct (job_calls s0 jobs0 s r Hinv) as [[Hnil _] | (j0 & c' & ? & _ & _ & ? & _)];
    [|eauto].
  assert (c ∈ result_calls r (s_trace s)).
  { apply list_elem_of_omap. exists e. split; [by apply elem_of_proj|done]. }
  rewrite Hnil in H. by apply elem_of_nil in H.
Qed.

(** X15: [job:success] is emitted for a job only when every stage of its
    pipeline (each [beforeScraping] middleware, the [fetch] of the engine,
    each [afterScraping] middleware) was called and called back without an
    error; and then [job:fail] is never emitted for that job. *)
Theorem job_success_means_all_stages_passed (s0 : scraper) :
  ready s0 →
  ∀ acts s r j, exec acts (run s0) = Some s →
    Emit_job_success r j ∈ s_trace s →
    (∀ st, stage_valid s0 st →
       ∃ err, Invoked r st ∈ s_trace s ∧ CalledBack r st err ∈ s_trace s
         ∧ truthy err = false)
    ∧ (∀ err j', Emit_job_fail err r j' ∉ s_trace s)
    ∧ (∀ j', Emit_job_success r j' ∈ s_trace s → j' = j).
Proof.
  intros Hready acts s r j Hexec Hin.
  destruct (jobs_inv_exec s0 acts s Hready Hexec) as [Hinv Hsame].
  destruct (job_event_done _ _ s r _ Hinv Hin) as (j0 & Hj0 & Hproj);
    [apply Nat.eqb_refl|by eexists|].
  assert (Hpipe : Emit_job_success r j ∈ pipeline s0 r j0).
  { rewrite <- Hproj. apply elem_of_proj. split; [apply Nat.eqb_refl|done]. }
  assert (Hback : ∀ e, e ∈ pipeline s0 r j0 → e ∈ s_trace s).
  { intros e He. rewrite <- Hproj in He. by apply elem_of_proj in He as [_ ?]. }
  destruct (sequential_last r None _ (sequential_pipeline s0 r j0))
    as (pre & e & Hlast & _ & Hpre).
  assert (Hone : ∀ e', e' ∈ s_trace s → about r e' = true → is_Some (result_args e') →
            e' = Emit_job_success r j).
  { assert (He : e = Emit_job_success r j).
    { rewrite Hlast, elem_of_app, list_elem_of_singleton in Hpipe.
      destruct Hpipe as [Hp|]; [|done].
      by destruct (Hpre _ Hp) as (st & [|[err ?]]). }
    intros e' He' Hab [c Hc].
    assert (e' ∈ pipeline s0 r j0) as Hp.
    { rewrite <- Hproj. by apply elem_of_proj. }
    rewrite Hlast, elem_of_app, list_elem_of_singleton in Hp.
    destruct Hp as [Hp| ->]; [|done].
    destruct (Hpre _ Hp) as (st & [->|[err ->]]); discriminate Hc. }
  split_and!.
  - unfold pipeline in Hpipe.
    destruct (before_trace_success _ _ _ _ _ _ _ Hpipe) as (Hb & (ef & ? & ? & ?) & Ha).
    fold (pipeline s0 r j0) in *.
    intros [i| |i] Hv.
    + destruct (Hb i) as (err & ? & ? & ?); [unfold stage_valid in Hv; lia|].
      exists err. auto.
    + exists ef. auto.
    + destruct (Ha i) as (err & ? & ? & ?); [exact Hv|]. exists err. auto.
  - intros err j' Hfail.
    by specialize (Hone _ Hfail (Nat.eqb_refl r) ltac:(by eexists)).
  - intros j' Hsucc.
    specialize (Hone _ Hsucc (Nat.eqb_refl r) ltac:(by eexists)). by injection Hone.
Qed.

Lemma job_success_means_all_stages_passed_witness :
  ∃ s, exec [Process; StageDone 0] (run example_scraper) = Some s
    ∧ ∃ err, CalledBack 0 SFetch err ∈ s_trace s ∧ truthy err = false.
Proof.
  eexists. split; [vm_compute; reflexivity|].
  match goal with |- ∃ err, _ ∈ s_trace ?s ∧ _ =>
    assert (Hexec : exec [Process; StageDone 0] (run example_scraper) = Some s)
      by (vm_compute; reflexivity);
    assert (∃ j, Emit_job_success 0 j ∈ s_trace s) as [j Hin]
      by (eexists; do 3 apply list_elem_of_further; apply list_elem_of_here)
  end.
  destruct (job_success_means_all_stages_passed example_scraper ready_example_scraper
              _ _ 0 j Hexec Hin) as (Hall & _).
  destruct (Hall SFetch I) as (err & _ & Hcb & Herr).
  exists err. split; [exact Hcb|exact Herr].
Defined.

(** ** The job a [beforeScraping] middleware fails *)

Lemma before_trace_fail_job eng afters r k mws j i err :
  CalledBack r (SBefore i) err ∈ before_trace eng afters r k mws j →
  truthy err = true →
  ∃ rq, Emit_job_fail err r (set_res "error" err (with_req rq j))
          ∈ before_trace eng afters r k mws j.
Proof.
  revert k j. induction mws as [|mw mws IH]; intros k j; cbn.
  - by intros ?%fetch_trace_no_before.
  - unfold apply_before. destruct (mw (j_req j)) as [rq e]. rewrite !elem_of_cons.
    intros [|[[= <- <-]|Hin]] Herr; [done| |].
    + rewrite Herr. exists rq. rewrite !elem_of_cons. auto.
    + destruct (truthy e); [by apply list_elem_of_singleton in Hin|].
      destruct (IH _ _ Hin Herr) as [rq' Hrq']. exists rq'.
      rewrite !elem_of_cons. auto.
Qed.

(** X16: The [beforeScraping] middlewares are handed [job.req] only: when
    one of them fails a job, the job emitted with [job:fail] has the [id]
    and the [state] of the job that was pushed, and its [res] is the [res]
    of the pushed job with the error added; no other [job:fail] is emitted
    for the job.  (Nothing is said of [original], which may share objects
    with [req].) *)
Theorem beforeScraping_failure_keeps_job (s0 : scraper) :
  ready s0 →
  ∀ acts s r i err j0, exec acts (run s0) = Some s →
    q_tasks (s_queue s0) !! r = Some j0 →
    CalledBack r (SBefore i) err ∈ s_trace s →
    truthy err = true →
    (∃ j, Emit_job_fail err r j ∈ s_trace s)
    ∧ ∀ err' j, Emit_job_fail err' r j ∈ s_trace s →
        err' = err
        ∧ j_id j = j_id j0
        ∧ j_state j = j_state j0
        ∧ j_res j = <["error" := err]> (j_res j0).
Proof.
  intros Hready acts s r i err j0 Hexec Hj0 Hin Herr.
  destruct (jobs_inv_exec s0 acts s Hready Hexec) as [Hinv Hsame].
  destruct (truthy_callback_done _ _ _ _ _ _ Hinv Hin Herr) as (j0' & Hj0' & _ & Hproj).
  rewrite Hj0 in Hj0'. injection Hj0' as <-.
  assert (Hin' : CalledBack r (SBefore i) err ∈ pipeline s0 r j0).
  { rewrite <- Hproj. apply elem_of_proj. split; [apply about_CalledBack|done]. }
  destruct (before_trace_fail_job _ _ _ _ _ _ _ _ Hin' Herr) as [rq Hrq].
  fold (pipeline s0 r j0) in Hrq.
  destruct (sequential_fail r None _ _ err (sequential_pipeline s0 r j0) Hin' Herr)
    as (_ & pre & jf & Heq & _ & Hpre).
  assert (Hlast : ∀ err' j, Emit_job_fail err' r j ∈ pipeline s0 r j0 →
            err' = err ∧ j = jf).
  { intros err' j. rewrite Heq, elem_of_app, !elem_of_cons, elem_of_nil.
    intros [Hp|[|[|[[= -> ->]|[]]]]]; try done.
    by destruct (Hpre _ Hp) as (st' & e' & _ & [|[? _]]). }
  destruct (Hlast _ _ Hrq) as [_ <-].
  split.
  - eexists. eapply (proj1 (elem_of_proj r _ _)). rewrite Hproj. exact Hrq.
  - intros err' j Hj.
    destruct (Hlast err' j) as [-> ->]; [|done].
    rewrite <- Hproj. apply elem_of_proj. split; [apply Nat.eqb_refl|done].
Qed.

Lemma beforeScraping_failure_keeps_job_witness :
  ∃ s, exec [Process; StageDone 0] (run example_blocked) = Some s
    ∧ ∃ j, Emit_job_fail (VStr "blocked") 0 j ∈ s_trace s
         ∧ j_id j = "Job[1b9d6bcd]"
         ∧ j_res j = {[ "error" := VStr "blocked" ]}.
Proof.
  eexists. split; [vm_compute; reflexivity|].
  match goal with |- ∃ j, _ ∈ s_trace ?s ∧ _ =>
    assert (Hexec : exec [Process; StageDone 0] (run example_blocked) = Some s)
      by (vm_compute; reflexivity);
    assert (Hin : CalledBack 0 (SBefore 0) (VStr "blocked") ∈ s_trace s)
      by (do 2 apply list_elem_of_further; apply list_elem_of_here)
  end.
  pose (j0 := set_req "url" (VStr "http://a") (skeleton "1b9d6bcd" (VStr "http://a"))).
  assert (Hj0 : q_tasks (s_queue example_blocked) !! 0 = Some j0) by reflexivity.
  destruct (beforeScraping_failure_keeps_job example_blocked ready_example_blocked
              _ _ 0 0 (VStr "blocked") j0 Hexec Hj0 Hin eq_refl) as [[j Hj] Hall].
  exists j. split; [exact Hj|].
  destruct (Hall _ _ Hj) as (_ & Hid & _ & Hres).
  split; [exact Hid|exact Hres].
Defined.

(** ** The [after] middlewares *)

Lemma register_after_check_drain fn s :
  check_drain (register_after fn s) = register_after fn (check_drain s).
Proof.
  unfold check_drain. cbn [register_after with_middlewares s_queue].
  destruct (q_drain (s_queue s)) as [[]|]; [|done].
  by destruct (idle (s_queue s)).
Qed.

Lemma register_after_job_callback fn r j err s :
  job_callback r j err (register_after fn s) = register_after fn (job_callback r j err s).
Proof.
  rewrite !job_callback_eq, <- register_after_check_drain. reflexivity.
Qed.

Lemma register_after_afterScraping fn r j i s :
  afterScraping r j i (register_after fn s) = register_after fn (afterScraping r j i s).
Proof.
  unfold afterScraping, task_at. cbn [register_after with_middlewares s_middlewares
    mw_afterScraping].
  destruct (mw_afterScraping (s_middlewares s) !! i); [done|].
  apply register_after_job_callback.
Qed.

Lemma register_after_beforeScraping fn r j i s :
  beforeScraping r j i (register_after fn s) = register_after fn (beforeScraping r j i s).
Proof.
  unfold beforeScraping, task_at. cbn [register_after with_middlewares s_middlewares
    mw_beforeScraping].
  by destruct (mw_beforeScraping (s_middlewares s) !! i).
Qed.

Lemma register_after_series fn i s :
  series i (register_after fn s) = register_after fn (series i s).
Proof.
  unfold series, task_at. cbn [register_after with_middlewares s_middlewares mw_before].
  destruct (mw_before (s_middlewares s) !! i); [done|].
  reflexivity.
Qed.

Lemma register_after_step fn a s :
  step a (register_after fn s) = register_after fn <$> step a s.
Proof.
  destruct a; cbn [step].
  - unfold before_done, task_at, aborts.
    cbn [register_after with_middlewares s_middlewares mw_before s_series].
    destruct (s_series s) as [i|]; [|done].
    destruct (mw_before (s_middlewares s) !! i) as [err|]; [|done].
    cbn [fmap option_fmap option_map]. f_equal.
    destruct (truthy err) eqn:Herr.
    + unfold run_callback. by rewrite Herr.
    + exact (register_after_series fn (S i) (emit (BeforeCalledBack i err) s)).
  - unfold process. cbn [register_after with_middlewares s_queue].
    destruct (shift (s_queue s)) as [[j q]|]; [|done].
    cbn [fmap option_fmap option_map]. f_equal.
    exact (register_after_beforeScraping fn (q_shifted (s_queue s)) j 0 (with_queue q s)).
  - unfold stage_done, task_at, aborts.
    cbn [register_after with_middlewares s_queue s_middlewares mw_beforeScraping
         mw_afterScraping s_engine].
    destruct (q_workers (s_queue s) !! r) as [[j [i| |i]]|]; [| | |done].
    + destruct (mw_beforeScraping (s_middlewares s) !! i) as [mw|]; [|done].
      destruct (apply_before mw j) as [j' err].
      cbn [fmap option_fmap option_map]. f_equal.
      destruct (truthy err).
      * exact (register_after_job_callback fn r j' err (emit (CalledBack r (SBefore i) err) s)).
      * exact (register_after_beforeScraping fn r j' (S i)
                 (emit (CalledBack r (SBefore i) err) s)).
    + destruct (s_engine s j) as [j' err].
      cbn [fmap option_fmap option_map]. f_equal.
      destruct (truthy err).
      * exact (register_after_job_callback fn r j' err (emit (CalledBack r SFetch err) s)).
      * exact (register_after_afterScraping fn r j' 0 (emit (CalledBack r SFetch err) s)).
    + destruct (mw_afterScraping (s_middlewares s) !! i) as [mw|]; [|done].
      destruct (apply_after mw j) as [j' err].
      cbn [fmap option_fmap option_map]. f_equal.
      destruct (truthy err).
      * exact (register_after_job_callback fn r j' err (emit (CalledBack r (SAfter i) err) s)).
      * exact (register_after_afterScraping fn r j' (S i)
                 (emit (CalledBack r (SAfter i) err) s)).
Qed.

Lemma register_after_exec fn acts s :
  exec acts (register_after fn s) = register_after fn <$> exec acts s.
Proof.
  revert s. induction acts as [|a acts IH]; intros s; cbn [exec]; [done|].
  rewrite register_after_step. destruct (step a s) as [s'|]; [|done].
  cbn. apply IH.
Qed.

(** X17: The middlewares registered with [after] are never run: registering one
    changes nothing to a run but the list it is stored in.  Every execution
    of the scraper is an execution of the scraper with the middleware, which
    emits the same events and calls the same user code, and conversely. *)
Theorem after_middlewares_never_run (fn : start_mw) (s0 : scraper) (acts : list action) :
  exec acts (run (register_after fn s0)) = register_after fn <$> exec acts (run s0)
  ∧ (∀ s, exec acts (run s0) = Some s →
       ∃ s', exec acts (run (register_after fn s0)) = Some s'
         ∧ s_trace s' = s_trace s ∧ s_queue s' = s_queue s ∧ s_state s' = s_state s)
  ∧ (exec acts (run s0) = None → exec acts (run (register_after fn s0)) = None).
Proof.
  assert (Heq : exec acts (run (register_after fn s0))
                = register_after fn <$> exec acts (run s0)).
  { rewrite <- register_after_exec. f_equal. unfold run.
    exact (register_after_series fn 0 (emit Emit_scraper_start s0)). }
  split_and!; [done| |].
  - intros s Hs. rewrite Heq, Hs. eexists. split; [reflexivity|done].
  - intros Hn. by rewrite Heq, Hn.
Qed.

Lemma after_middlewares_never_run_witness :
  ∃ s', exec [Process] (run (register_after (VStr "never") example_scraper)) = Some s'
    ∧ s_trace s' = [Emit_scraper_start; Invoked 0 SFetch].
Proof.
  destruct (after_middlewares_never_run (VStr "never") example_scraper [Process])
    as (_ & Hsame & _).
  assert (∃ s, exec [Process] (run example_scraper) = Some s
               ∧ s_trace s = [Emit_scraper_start; Invoked 0 SFetch]) as (s & Hexec & Htr)
    by (eexists; split; [vm_compute; reflexivity|reflexivity]).
  destruct (Hsame s Hexec) as (s' & Hexec' & Htr' & _).
  exists s'. split; [exact Hexec'|]. rewrite Htr'. exact Htr.
Defined.

(** ** A failure ends the pipeline of the job *)

(** X18: A stage that calls back with an error is the last stage called for the
    job: every other stage that was called for it comes earlier in the
    pipeline and called back without an error, and [job:success] is never
    emitted for it.  In particular, when the [fetch] of the engine fails, no
    [afterScraping] middleware is called for the job. *)
Theorem failure_ends_pipeline (s0 : scraper) :
  ready s0 →
  ∀ acts s r st err, exec acts (run s0) = Some s →
    CalledBack r st err ∈ s_trace s →
    truthy err = true →
    (∀ st', Invoked r st' ∈ s_trace s → st' = st ∨ stage_ltb st' st = true)
    ∧ (∀ st' err', CalledBack r st' err' ∈ s_trace s →
         (st' = st ∧ err' = err) ∨ (stage_ltb st' st = true ∧ truthy err' = false))
    ∧ (∀ j, Emit_job_success r j ∉ s_trace s)
    ∧ (st = SFetch → ∀ i, Invoked r (SAfter i) ∉ s_trace s).
Proof.
  intros Hready acts s r st err Hexec Hin Herr.
  destruct (jobs_inv_exec s0 acts s Hready Hexec) as [Hinv Hsame].
  destruct (truthy_callback_done _ _ _ _ _ _ Hinv Hin Herr) as (j0 & Hj0 & _ & Hproj).
  assert (Hin' : CalledBack r st err ∈ pipeline s0 r j0).
  { rewrite <- Hproj. apply elem_of_proj. split; [apply about_CalledBack|done]. }
  destruct (sequential_fail r None _ _ err (sequential_pipeline s0 r j0) Hin' Herr)
    as (_ & pre & j & Heq & Hres & Hpre).
  assert (Hall : ∀ e, about r e = true → e ∈ s_trace s →
            e ∈ pre ∨ e = Invoked r st ∨ e = CalledBack r st err
            ∨ e = Emit_job_fail err r j).
  { intros e Ha He. assert (e ∈ proj r (s_trace s)) as He' by by apply elem_of_proj.
    rewrite Hproj, Heq, elem_of_app, !elem_of_cons, elem_of_nil in He'. tauto. }
  assert (Hcalls : ∀ st', Invoked r st' ∈ s_trace s → st' = st ∨ stage_ltb st' st = true).
  { intros st' Hst'.
    destruct (Hall _ (about_Invoked r st') Hst') as [Hp|[[= ->]|[|]]]; [|by left|done|done].
    destruct (Hpre _ Hp) as (st2 & err2 & Hlt & [[= ->]|[? _]]); [by right|done]. }
  split_and!.
  - exact Hcalls.
  - intros st' err' Hcb.
    destruct (Hall _ (about_CalledBack r st' err') Hcb) as [Hp|[|[[= -> ->]|]]];
      [|done|by left|done].
    destruct (Hpre _ Hp) as (st2 & err2 & Hlt & [|[[= -> ->] ?]]); [done|by right].
  - intros j' Hj'.
    destruct (Hall (Emit_job_success r j')) as [Hp|[|[|]]]; [apply Nat.eqb_refl|done| |done..].
    by destruct (Hpre _ Hp) as (st2 & err2 & _ & [|[? _]]).
  - intros -> i Hi. by destruct (Hcalls _ Hi).
Qed.

Lemma failure_ends_pipeline_witness :
  ∃ s, exec [Process; Process; StageDone 1] (run example_scraper) = Some s
    ∧ ∀ i, Invoked 1 (SAfter i) ∉ s_trace s.
Proof.
  eexists. split; [vm_compute; reflexivity|].
  match goal with |- ∀ i, _ ∉ s_trace ?s =>
    assert (Hexec : exec [Process; Process; StageDone 1] (run example_scraper) = Some s)
      by (vm_compute; reflexivity);
    assert (Hin : CalledBack 1 SFetch (VStr "unreachable") ∈ s_trace s)
      by (do 3 apply list_elem_of_further; apply list_elem_of_here)
  end.
  destruct (failure_ends_pipeline example_scraper ready_example_scraper
              _ _ 1 SFetch (VStr "unreachable") Hexec Hin eq_refl) as (_ & _ & _ & Hskip).
  exact (Hskip eq_refl).
Defined.

(** ** No stage is called twice *)

Lemma stage_eqb_eq a b : stage_eqb a b = true ↔ a = b.
Proof.
  destruct a, b; cbn; rewrite ?Nat.eqb_eq; split; try done; try congruence.
Qed.

Lemma stage_ltb_irrefl st : stage_ltb st st = false.
Proof. destruct st; cbn; try done; apply Nat.ltb_irrefl. Qed.

Lemma calls_of_app r st tr1 tr2 :
  calls_of r st (tr1 ++ tr2) = calls_of r st tr1 + calls_of r st tr2.
Proof. unfold calls_of. by rewrite List.filter_app, length_app. Qed.

Lemma calls_of_proj r st tr : calls_of r st (proj r tr) = calls_of r st tr.
Proof.
  unfold calls_of, proj. induction tr as [|e tr IH]; [done|].
  cbn [List.filter]. destruct (about r e) eqn:Hab; cbn [List.filter];
    destruct (is_call_of r st e) eqn:Hc; cbn [length]; rewrite ?IH; try done.
  destruct e; cbn in Hab, Hc; try done. by rewrite Hab in Hc.
Qed.

(** In a sequential pipeline a stage is called once at most, and after the
    stage that precedes the pipeline. *)
Lemma sequential_calls r prev tr st :
  sequential r prev tr →
  calls_of r st tr ≤ 1 ∧ (calls_of r st tr = 1 → follows prev st).
Proof.
  induction 1 as [prev j|prev st0 err j Hprev Herr Hres|prev st0 err tl Hprev Herr Htl IH].
  - unfold calls_of. cbn. split; [lia|done].
  - unfold calls_of. cbn. rewrite Nat.eqb_refl. cbn.
    destruct (stage_eqb st st0) eqn:Hst; cbn; [|split; [lia|done]].
    apply stage_eqb_eq in Hst as ->. split; [lia|done].
  - destruct IH as [IH1 IH2].
    change (Invoked r st0 :: CalledBack r st0 err :: tl)
      with ([Invoked r st0; CalledBack r st0 err] ++ tl).
    rewrite calls_of_app. unfold calls_of at 1 3. cbn. rewrite Nat.eqb_refl. cbn.
    destruct (stage_eqb st st0) eqn:Hst; cbn.
    + apply stage_eqb_eq in Hst as ->.
      destruct (decide (calls_of r st0 tl = 1)) as [H1|H1].
      * specialize (IH2 H1). cbn in IH2. by rewrite stage_ltb_irrefl in IH2.
      * split; [lia|done].
    + split; [lia|]. intros H1. specialize (IH2 H1). cbn in IH2.
      by eapply follows_trans.
Qed.

(** X19: A job is never retried: in every state of a run each stage (each
    [beforeScraping] middleware, the [fetch] of the engine, each
    [afterScraping] middleware) was called at most once for each job. *)
Theorem stage_called_at_most_once (s0 : scraper) :
  ready s0 →
  ∀ acts s r st, exec acts (run s0) = Some s →
    calls_of r st (s_trace s) ≤ 1.
Proof.
  intros Hready acts s r st Hexec.
  destruct (jobs_inv_exec s0 acts s Hready Hexec) as [Hinv Hsame].
  rewrite <- calls_of_proj.
  destruct (job_status _ _ s r Hinv)
    as [-> | [(j & st' & j0 & _ & _ & Heq & _) | (j0 & _ & _ & Heq)]].
  - unfold calls_of. cbn. lia.
  - destruct (sequential_calls r None _ st (sequential_pipeline s0 r j0)) as [Hle _].
    rewrite <- Heq, calls_of_app in Hle. lia.
  - rewrite Heq. by destruct (sequential_calls r None _ st (sequential_pipeline s0 r j0)).
Qed.

Lemma stage_called_at_most_once_witness :
  ∃ s, exec [Process; Process; StageDone 1; StageDone 0] (run example_scraper) = Some s
    ∧ calls_of 0 SFetch (s_trace s) ≤ 1.
Proof.
  eexists. split; [vm_compute; reflexivity|].
  match goal with |- calls_of 0 SFetch (s_trace ?s) ≤ 1 =>
    assert (Hexec : exec [Process; Process; StageDone 1; StageDone 0] (run example_scraper)
                    = Some s) by (vm_compute; reflexivity)
  end.
  exact (stage_called_at_most_once example_scraper ready_example_scraper _ _ 0 SFetch Hexec).
Defined.

(** ** A queue that admits no worker *)

(** X20: The bound of the queue is [maxConcurrency || 1], so a negative
    [maxConcurrency] is kept.  A queue whose bound is negative never starts
    a worker: when it holds a job and the start middlewares succeed, no job
    ever starts, the completion callback of [run] is never called, the
    scraper is never fulfilled, and once the start middlewares are through
    nothing more can happen. *)
Theorem negative_concurrency_never_completes (s0 : scraper) (k : Z) :
  ready s0 →
  q_concurrency (s_queue s0) = VNum k → (k < 0)%Z →
  q_tasks (s_queue s0) ≠ [] →
  (∀ e, e ∈ mw_before (s_middlewares s0) → truthy e = false) →
  (∀ st eng uid name,
     read st RDefaults "maxConcurrency" = VNum k →
     q_concurrency (s_queue (Scraper st eng uid name)) = VNum k)
  ∧ ∀ acts s, exec acts (run s0) = Some s →
      fulfilled (s_state s) = false
      ∧ completions (s_trace s) = []
      ∧ (∀ r, proj r (s_trace s) = [])
      ∧ (s_series s = None → quiescent s).
Proof.
  intros Hready Hc Hk Htasks Hse%start_error_None. split.
  { intros st eng uid name Hread.
    change (q_concurrency (s_queue (Scraper st eng uid name)))
      with (or_else (read st RDefaults "maxConcurrency") (VNum 1)).
    rewrite Hread. unfold or_else. cbn.
    destruct (Z.eqb_spec k 0); [lia|done]. }
  intros acts s Hexec.
  assert (Hb : (bound (s_queue s0) ≤ 0)%Z) by (unfold bound; rewrite Hc; lia).
  destruct (no_slot_exec s0 acts s Hready Hb Hexec) as [Hsh Hw].
  destruct (jobs_inv_exec s0 acts s Hready Hexec) as [Hinv Hsame].
  pose proof (phase_exec s0 acts s Hready Hexec) as Hph.
  assert (Hf : fulfilled (s_state s) = false).
  { destruct Hph as [i _ _ _ _ _ _ _ _ Hf _ | err _ Hse' _ _ _ _ _ _ _ _ _
                    | _ _ _ _ _ _ _ Hf _ | pre _ _ _ _ _ _ Hsh' _ _ _ _ _];
      [done|congruence|done|].
    rewrite Hsh in Hsh'. by destruct (q_tasks (s_queue s0)). }
  split_and!; [done| | |].
  - pose proof (phase_counts s0 s Hph) as Hcount. rewrite Hse, Hf in Hcount.
    by destruct Hcount.
  - intros r. destruct Hinv as [_ _ Hp _ _]. apply Hp. lia.
  - intros Hser a. destruct a; cbn [step].
    + unfold before_done. by rewrite Hser.
    + unfold process, shift, slot_free. rewrite (same_concurrency _ _ Hsame), Hc, Hw.
      rewrite map_size_empty. cbn.
      destruct (q_paused (s_queue s)); [done|].
      change (Z.of_nat 0) with 0%Z.
      destruct (Z.ltb_spec 0 k); [lia|done].
    + unfold stage_done. by rewrite Hw, lookup_empty.
Qed.

Lemma negative_concurrency_never_completes_witness :
  ∃ s, exec [] (run example_stalled) = Some s
    ∧ fulfilled (s_state s) = false
    ∧ quiescent s.
Proof.
  eexists. split; [reflexivity|].
  assert (Hready : ready example_stalled) by by constructor.
  destruct (negative_concurrency_never_completes example_stalled (-1) Hready eq_refl)
    as [_ Hrun]; [lia|discriminate|by intros e ?%elem_of_nil|].
  destruct (Hrun [] (run example_stalled) eq_refl) as (Hf & _ & _ & Hq).
  split; [exact Hf|exact (Hq eq_refl)].
Defined.
